(** * A model of [advanced-vector/vector.h]

    [RawMemory<T>] owns a block of uninitialised storage obtained from
    [operator new]; [Vector<T>] owns one [RawMemory<T>] and the number of
    objects constructed in the leading slots of its block.

    The embedding keeps what the C++ code manipulates:
    - storage is a heap of blocks, a block is a list of slots, a slot is
      either raw or holds a live object;
    - [Vector] objects live in an object store and are named by references,
      so that [this != &rhs] is a comparison of references;
    - member functions are computations in a state-and-exception monad over
      that world; an element constructor or assignment can throw, following
      a schedule carried by the world; what C++ leaves undefined (or stops at
      with an assertion) is the outcome [Undefined]. *)

From Stdlib Require Import ZArith Lia.
From stdpp Require Import gmap list.

(** ** [size_t] arithmetic *)

Definition SIZE_WIDTH : Z := 64.

Definition to_size_t (z : Z) : nat := Z.to_nat (z mod 2 ^ SIZE_WIDTH).

Definition sz_add (a b : nat) : nat := to_size_t (Z.of_nat a + Z.of_nat b).
Definition sz_sub (a b : nat) : nat := to_size_t (Z.of_nat a - Z.of_nat b).
Definition sz_mul (a b : nat) : nat := to_size_t (Z.of_nat a * Z.of_nat b).

(** A value fits [size_t]. *)
Definition fits (n : nat) : Prop := (Z.of_nat n < 2 ^ SIZE_WIDTH)%Z.

(** ** Exceptions *)

Inductive exn :=
| bad_alloc                          (* thrown by [operator new] *)
| std_exception (what : nat)         (* any other class derived from std::exception *)
| foreign_exception (what : nat).    (* anything else: [throw 42;] *)

Definition is_std_exception (e : exn) : bool :=
  match e with
  | bad_alloc | std_exception _ => true
  | foreign_exception _ => false
  end.

(** ** Pointers [T*] *)

Record pointer := Ptr { block : option positive; index : nat }.

Definition nullptr : pointer := Ptr None 0.

Definition ptr_add (p : pointer) (n : nat) : pointer :=
  Ptr (block p) (index p + n).

Global Instance pointer_eq_dec : EqDecision pointer.
Proof. solve_decision. Defined.

Definition ptr_eqb (p q : pointer) : bool := bool_decide (p = q).

(** ** The two classes' data members *)

Record RawMemory := mkRawMemory {
  buffer_ : option positive;     (* T* buffer_ = nullptr *)
  capacity_ : nat                (* size_t capacity_ = 0 *)
}.

Record Vector := mkVector {
  data_ : RawMemory;             (* RawMemory<T> data_ = {} *)
  size_ : nat                    (* size_t size_ = 0 *)
}.

Global Instance RawMemory_eq_dec : EqDecision RawMemory.
Proof. solve_decision. Defined.

Global Instance Vector_eq_dec : EqDecision Vector.
Proof. solve_decision. Defined.

(** Two operands of a member function, which C++ may pass the same object
    for ([x = std::move(x)]). *)
Inductive operands (A : Type) :=
| Distinct (this rhs : A)
| Same (both : A).
Arguments Distinct {A} _ _.
Arguments Same {A} _.

Definition get_this {A} (o : operands A) : A :=
  match o with Distinct t _ => t | Same b => b end.
Definition get_rhs {A} (o : operands A) : A :=
  match o with Distinct _ r => r | Same b => b end.
Definition set_this {A} (x : A) (o : operands A) : operands A :=
  match o with Distinct _ r => Distinct x r | Same _ => Same x end.
Definition set_rhs {A} (x : A) (o : operands A) : operands A :=
  match o with Distinct t _ => Distinct t x | Same _ => Same x end.

(** ** Element types *)

(** What the container needs to know about [T]: the three type traits the
    code and the library branch on, the value of [T()], and the state a
    moved-from object is left in. A copy has the value of its source. *)
Record element_type (T : Type) := mkElement {
  is_nothrow_move_constructible : bool;
  is_copy_constructible : bool;
  is_trivially_destructible : bool;
  value_initialized : T;
  moved_from : T → T
}.
Arguments is_nothrow_move_constructible {T} _.
Arguments is_copy_constructible {T} _.
Arguments is_trivially_destructible {T} _.
Arguments value_initialized {T} _.
Arguments moved_from {T} _ _.

(** ** The world: heap, objects, and the exceptions to come *)

(** How a computation ends. *)
Inductive outcome (A : Type) :=
| Ok (a : A)
| Throw (e : exn)
| Undefined.
Arguments Ok {A} _.
Arguments Throw {A} _.
Arguments Undefined {A}.

Section World.
Context {T : Type}.

Record world := mkWorld {
  mem : gmap positive (list (option T));  (* blocks from operator new; None is a raw slot *)
  objs : gmap positive Vector;            (* the Vector objects, by address *)
  tick : nat;                             (* fallible operations run so far *)
  schedule : nat → option exn;            (* the n-th fallible operation throws this *)
  leaked : nat                            (* objects whose storage was released undestroyed *)
}.

Definition with_mem (f : gmap positive (list (option T)) → gmap positive (list (option T)))
    (w : world) : world :=
  mkWorld (f (mem w)) (objs w) (tick w) (schedule w) (leaked w).
Definition with_objs (f : gmap positive Vector → gmap positive Vector) (w : world) : world :=
  mkWorld (mem w) (f (objs w)) (tick w) (schedule w) (leaked w).
Definition with_tick (n : nat) (w : world) : world :=
  mkWorld (mem w) (objs w) n (schedule w) (leaked w).
Definition with_leaked (n : nat) (w : world) : world :=
  mkWorld (mem w) (objs w) (tick w) (schedule w) n.

Definition M (A : Type) : Type := world → outcome A * world.

Definition ret {A} (a : A) : M A := λ w, (Ok a, w).

Definition bind {A B} (m : M A) (k : A → M B) : M B :=
  λ w, match m w with
       | (Ok a, w') => k a w'
       | (Throw e, w') => (Throw e, w')
       | (Undefined, w') => (Undefined, w')
       end.

Definition throw {A} (e : exn) : M A := λ w, (Throw e, w).
Definition undefined {A} : M A := λ w, (Undefined, w).

(** [try { m } catch (const std::exception&) { h; }]: an exception of
    another kind passes through. *)
Definition try_catch_std {A} (m : M A) (h : exn → M A) : M A :=
  λ w, match m w with
       | (Throw e, w') => if is_std_exception e then h e w' else (Throw e, w')
       | r => r
       end.

(** [try { m } catch (...) { h; }], as the library algorithms do. *)
Definition try_catch_all {A} (m : M A) (h : exn → M A) : M A :=
  λ w, match m w with
       | (Throw e, w') => h e w'
       | r => r
       end.

(** Stack unwinding: [cleanup] is the destructor of a local object, run
    when an exception leaves [m]. Destructors do not throw. *)
Definition unwinding {A} (m : M A) (cleanup : M unit) : M A :=
  try_catch_all m (λ e, bind cleanup (λ _, throw e)).

End World.

Arguments world : clear implicits.
Arguments M : clear implicits.

Global Instance M_ret {T} : MRet (M T) := λ A a, ret a.
Global Instance M_bind {T} : MBind (M T) := λ A B k m, bind m k.

(** ** Storage and element operations *)

Section Primitives.
Context {T : Type} (E : element_type T).

Definition modify (f : world T → world T) : M T unit := λ w, (Ok tt, f w).

(** One fallible operation: it takes the next entry of the schedule. *)
Definition fallible : M T unit := λ w,
  match schedule w (tick w) with
  | Some e => (Throw e, with_tick (S (tick w)) w)
  | None => (Ok tt, with_tick (S (tick w)) w)
  end.

(** [operator new] for [n] slots: a block no live block shares, all raw. *)
Definition operator_new (n : nat) : M T pointer := λ w,
  match schedule w (tick w) with
  | Some _ => (Throw bad_alloc, with_tick (S (tick w)) w)
  | None =>
      let a := fresh (dom (mem w)) in
      (Ok (Ptr (Some a) 0),
       with_mem (insert a (replicate n None)) (with_tick (S (tick w)) w))
  end.

Definition live_objects (blk : list (option T)) : list T := omap id blk.

(** [operator delete]: the pointer must be null or the start of a block. *)
Definition operator_delete (p : pointer) : M T unit := λ w,
  match block p, index p with
  | None, 0 => (Ok tt, w)
  | Some a, 0 =>
      match mem w !! a with
      | Some blk =>
          (Ok tt, with_leaked (leaked w + length (live_objects blk)) (with_mem (delete a) w))
      | None => (Undefined, w)
      end
  | _, _ => (Undefined, w)
  end.

(** The slot a pointer designates; no slot, no defined behaviour. *)
Definition slot (p : pointer) : M T (option T) := λ w,
  match block p with
  | Some a =>
      match mem w !! a with
      | Some blk =>
          match blk !! index p with
          | Some s => (Ok s, w)
          | None => (Undefined, w)
          end
      | None => (Undefined, w)
      end
  | None => (Undefined, w)
  end.

Definition set_slot (p : pointer) (s : option T) : M T unit := λ w,
  match block p with
  | Some a =>
      match mem w !! a with
      | Some blk =>
          if decide (index p < length blk)
          then (Ok tt, with_mem (insert a (<[index p := s]> blk)) w)
          else (Undefined, w)
      | None => (Undefined, w)
      end
  | None => (Undefined, w)
  end.

(** Reading [p[0]]: the object must be alive. *)
Definition load (p : pointer) : M T T :=
  s ← slot p;
  match s with
  | Some v => mret v
  | None => undefined
  end.

(** The object at [p] takes the value [v]. *)
Definition store (p : pointer) (v : T) : M T unit :=
  _ ← load p; set_slot p (Some v).

(** An object of value [v] starts its life in the slot at [p]. *)
Definition placement_new (p : pointer) (v : T) : M T unit :=
  _ ← slot p; set_slot p (Some v).

(** [std::destroy_at(p)]. For a trivially destructible [T] the library
    does nothing; otherwise the destructor runs, and it must find an object. *)
Definition destroy_at (p : pointer) : M T unit :=
  s ← slot p;
  match s with
  | Some _ => set_slot p None
  | None => if is_trivially_destructible E then mret tt else undefined
  end.

(** [new (p) T(std::forward<Args>(args)...)]: the arguments are named by
    the value [v] they construct. *)
Definition emplace_new (p : pointer) (v : T) : M T unit :=
  fallible;; placement_new p v.

(** [T temp_obj(std::forward<Args>(args)...)], an object on the stack. *)
Definition emplace_local (v : T) : M T T :=
  fallible;; mret v.

(** [new (p) T()] *)
Definition value_construct (p : pointer) : M T unit :=
  fallible;; placement_new p (value_initialized E).

(** [new (p) T(src[0])]: the copy constructor *)
Definition copy_construct (p src : pointer) : M T unit :=
  v ← load src; fallible;; placement_new p v.

(** [new (p) T(std::move(src[0]))]: a [noexcept] move constructor takes
    nothing from the schedule. *)
Definition move_construct (p src : pointer) : M T unit :=
  v ← load src;
  (if is_nothrow_move_constructible E then mret tt else fallible);;
  placement_new p v;;
  store src (moved_from E v).

(** [dst[0] = src[0]] *)
Definition copy_assign (dst src : pointer) : M T unit :=
  v ← load src; _ ← load dst; fallible;; store dst v.

(** [dst[0] = std::move(src[0])] *)
Definition move_assign (dst src : pointer) : M T unit :=
  v ← load src; _ ← load dst; fallible;; store dst v;; store src (moved_from E v).

(** [dst[0] = std::move(temp_obj)] for a stack object of value [v]. *)
Definition move_assign_local (dst : pointer) (v : T) : M T unit :=
  _ ← load dst; fallible;; store dst v.

(** Pointer arithmetic that must stay inside the block. *)
Definition ptr_minus (p : pointer) (n : nat) : M T pointer :=
  if decide (n ≤ index p) then mret (Ptr (block p) (index p - n)) else undefined.

(** [p - q] *)
Definition ptr_diff (p q : pointer) : M T nat :=
  if decide (block p = block q ∧ index q ≤ index p)
  then mret (index p - index q) else undefined.

(** *** The library algorithms the container calls *)

(** [std::destroy_n(first, n)] *)
Fixpoint destroy_n (first : pointer) (n : nat) : M T unit :=
  match n with
  | 0 => mret tt
  | S n' => destroy_at first;; destroy_n (ptr_add first 1) n'
  end.

(** [std::uninitialized_copy_n(first, n, d_first)]: when a construction
    throws, the objects already constructed are destroyed and the
    exception goes on. *)
Fixpoint uninitialized_copy_n (first : pointer) (n : nat) (d_first : pointer) : M T unit :=
  match n with
  | 0 => mret tt
  | S n' =>
      copy_construct d_first first;;
      try_catch_all (uninitialized_copy_n (ptr_add first 1) n' (ptr_add d_first 1))
                    (λ e, destroy_at d_first;; throw e)
  end.

(** [std::uninitialized_move_n(first, n, d_first)] *)
Fixpoint uninitialized_move_n (first : pointer) (n : nat) (d_first : pointer) : M T unit :=
  match n with
  | 0 => mret tt
  | S n' =>
      move_construct d_first first;;
      try_catch_all (uninitialized_move_n (ptr_add first 1) n' (ptr_add d_first 1))
                    (λ e, destroy_at d_first;; throw e)
  end.

(** [std::uninitialized_value_construct_n(first, n)] *)
Fixpoint uninitialized_value_construct_n (first : pointer) (n : nat) : M T unit :=
  match n with
  | 0 => mret tt
  | S n' =>
      value_construct first;;
      try_catch_all (uninitialized_value_construct_n (ptr_add first 1) n')
                    (λ e, destroy_at first;; throw e)
  end.

Fixpoint move_loop (first : pointer) (n : nat) (d_first : pointer) : M T unit :=
  match n with
  | 0 => mret tt
  | S n' => move_assign d_first first;; move_loop (ptr_add first 1) n' (ptr_add d_first 1)
  end.

(** [std::move(first, last, d_first)] *)
Definition std_move (first last d_first : pointer) : M T unit :=
  n ← ptr_diff last first; move_loop first n d_first.

Fixpoint move_backward_loop (n : nat) (last d_last : pointer) : M T unit :=
  match n with
  | 0 => mret tt
  | S n' =>
      last' ← ptr_minus last 1;
      d_last' ← ptr_minus d_last 1;
      move_assign d_last' last';;
      move_backward_loop n' last' d_last'
  end.

(** [std::move_backward(first, last, d_last)] *)
Definition std_move_backward (first last d_last : pointer) : M T unit :=
  n ← ptr_diff last first; move_backward_loop n last d_last.

End Primitives.

(** ** [RawMemory<T>] *)

Module RawMem.

(** [RawMemory() = default] *)
Definition default : RawMemory := mkRawMemory None 0.

Definition Capacity (m : RawMemory) : nat := capacity_ m.
Definition GetAddress (m : RawMemory) : pointer := Ptr (buffer_ m) 0.

(** [operator==(const RawMemory&, const RawMemory&)] *)
Definition eq (lhs rhs : RawMemory) : bool :=
  (Capacity lhs =? Capacity rhs) && ptr_eqb (GetAddress lhs) (GetAddress rhs).

(** [operator!=(const RawMemory&, const RawMemory&)] *)
Definition neq (lhs rhs : RawMemory) : bool :=
  negb (Capacity lhs =? Capacity rhs) && negb (ptr_eqb (GetAddress lhs) (GetAddress rhs)).

(** The body shared by the move constructor and the move assignment,
    statement by statement on the two operands. *)
Definition take_over (o : operands RawMemory) : operands RawMemory :=
  if neq (get_this o) (get_rhs o) then
    (* capacity_ = std::move(rhs.Capacity()); *)
    let o := set_this (mkRawMemory (buffer_ (get_this o)) (Capacity (get_rhs o))) o in
    (* buffer_ = rhs.GetAddress(); *)
    let o := set_this (mkRawMemory (block (GetAddress (get_rhs o))) (capacity_ (get_this o))) o in
    (* rhs.buffer_ = nullptr; *)
    let o := set_rhs (mkRawMemory None (capacity_ (get_rhs o))) o in
    (* rhs.capacity_ = 0; *)
    set_rhs (mkRawMemory (buffer_ (get_rhs o)) 0) o
  else o.

(** [RawMemory(RawMemory&& other)]: the new object starts from its default
    member initialisers. Returns the new object and [other] afterwards. *)
Definition move_ctor (other : RawMemory) : RawMemory * RawMemory :=
  let o := take_over (Distinct default other) in
  (get_this o, get_rhs o).

(** [RawMemory& operator=(RawMemory&& rhs)] *)
Definition move_assign (o : operands RawMemory) : operands RawMemory :=
  take_over o.

(** [void Swap(RawMemory& other)] *)
Definition Swap (o : operands RawMemory) : operands RawMemory :=
  (* std::swap(buffer_, other.buffer_); *)
  let b := buffer_ (get_this o) in
  let o := set_this (mkRawMemory (buffer_ (get_rhs o)) (capacity_ (get_this o))) o in
  let o := set_rhs (mkRawMemory b (capacity_ (get_rhs o))) o in
  (* std::swap(capacity_, other.capacity_); *)
  let c := capacity_ (get_this o) in
  let o := set_this (mkRawMemory (buffer_ (get_this o)) (capacity_ (get_rhs o))) o in
  set_rhs (mkRawMemory (buffer_ (get_rhs o)) c) o.

Section Storage.
Context {T : Type}.

(** [static T* Allocate(size_t n)]. The heap hands out slots of [T]: the
    byte count [n * sizeof(T)] that the source passes to [operator new] is
    not computed, so [Allocate n] stands for the source's call as long as
    that product does not wrap in [size_t]. *)
Definition Allocate (n : nat) : M T pointer :=
  if decide (n ≠ 0) then operator_new n else mret nullptr.

(** [static void Deallocate(T* buf)] *)
Definition Deallocate (buf : pointer) : M T unit :=
  if decide (buf ≠ nullptr) then operator_delete buf else mret tt.

(** [explicit RawMemory(size_t capacity)] *)
Definition ctor (capacity : nat) : M T RawMemory :=
  buf ← Allocate capacity;
  mret (mkRawMemory (block buf) capacity).

(** [~RawMemory()] *)
Definition dtor (m : RawMemory) : M T unit :=
  Deallocate (GetAddress m).

(** [T* operator+(size_t offset)], with its assertion *)
Definition plus (m : RawMemory) (offset : nat) : M T pointer :=
  if decide (offset ≤ capacity_ m)
  then mret (ptr_add (GetAddress m) offset)
  else undefined.

(** [T& operator[](size_t index)], with its assertion; the reference is
    the pointer to the slot. *)
Definition at_ (m : RawMemory) (index : nat) : M T pointer :=
  if decide (index < capacity_ m)
  then mret (ptr_add (GetAddress m) index)
  else undefined.

End Storage.

End RawMem.


(** ** [Vector<T>] *)

Module Vec.

(** The [const] members read the object. *)
Definition Size (v : Vector) : nat := size_ v.
Definition Capacity (v : Vector) : nat := RawMem.Capacity (data_ v).
Definition Data (v : Vector) : RawMemory := data_ v.

(** [operator==(const Vector&, const Vector&)] *)
Definition eq (lhs rhs : Vector) : bool :=
  RawMem.eq (Data lhs) (Data rhs) && (Size lhs =? Size rhs).

(** [operator!=(const Vector&, const Vector&)] *)
Definition neq (lhs rhs : Vector) : bool :=
  RawMem.neq (Data lhs) (Data rhs) && negb (Size lhs =? Size rhs).

Section Methods.
Context {T : Type} (E : element_type T).

(** *** Access to the objects *)

Definition obj (this : positive) : M T Vector := λ w,
  match objs w !! this with
  | Some v => (Ok v, w)
  | None => (Undefined, w)
  end.

(** An object starts its life at [this], storage no object occupies. *)
Definition new_obj (this : positive) (v : Vector) : M T unit := λ w,
  match objs w !! this with
  | None => (Ok tt, with_objs (insert this v) w)
  | Some _ => (Undefined, w)
  end.

Definition del_obj (this : positive) : M T unit :=
  modify (with_objs (delete this)).

Definition set_data (this : positive) (d : RawMemory) : M T unit :=
  v ← obj this; modify (with_objs (insert this (mkVector d (size_ v)))).

Definition set_size (this : positive) (n : nat) : M T unit :=
  v ← obj this; modify (with_objs (insert this (mkVector (data_ v) n))).

(** Storage for a local [Vector]. *)
Definition local_storage : M T positive := λ w, (Ok (fresh (dom (objs w))), w).

(** The members are destroyed, after the destructor's body or when a
    constructor's body throws: [~RawMemory()] releases the block. *)
Definition destroy_members (this : positive) : M T unit :=
  v ← obj this; del_obj this;; RawMem.dtor (data_ v).

(** [iterator begin()] and [iterator end()] *)
Definition begin_ (this : positive) : M T pointer :=
  v ← obj this; mret (RawMem.GetAddress (data_ v)).

Definition end_ (this : positive) : M T pointer :=
  v ← obj this; RawMem.plus (data_ v) (size_ v).

(** [T& operator[](size_t index)], with its assertion *)
Definition at_ (this : positive) (index : nat) : M T pointer :=
  v ← obj this;
  if decide (index < size_ v) then RawMem.at_ (data_ v) index else undefined.

(** Which way elements go to a new block:
    [is_nothrow_move_constructible_v<T> || !is_copy_constructible_v<T>] *)
Definition relocate_by_move : bool :=
  is_nothrow_move_constructible E || negb (is_copy_constructible E).

(** *** Constructors and destructor *)

(** [Vector() = default] *)
Definition ctor_default (this : positive) : M T unit :=
  new_obj this (mkVector RawMem.default 0).

(** [explicit Vector(size_t size)] *)
Definition ctor_sized (this : positive) (size : nat) : M T unit :=
  d ← RawMem.ctor size;
  new_obj this (mkVector d size);;
  unwinding
    (v ← obj this;
     uninitialized_value_construct_n E (RawMem.GetAddress (data_ v)) (size_ v))
    (destroy_members this).

(** [explicit Vector(const Vector& other)] *)
Definition ctor_copy (this other : positive) : M T unit :=
  o ← obj other;
  d ← RawMem.ctor (Size o);
  new_obj this (mkVector d (Size o));;
  unwinding
    (v ← obj this;
     o ← obj other;
     uninitialized_copy_n E (RawMem.GetAddress (data_ o)) (size_ v)
                            (RawMem.GetAddress (data_ v)))
    (destroy_members this).

(** [Vector(Vector&& other) noexcept] *)
Definition ctor_move (this other : positive) : M T unit :=
  o ← obj other;
  (* data_(std::move(other.data_)) *)
  let '(d, od) := RawMem.move_ctor (data_ o) in
  set_data other od;;
  (* size_(std::move(other.size_)) *)
  o ← obj other;
  new_obj this (mkVector d (size_ o));;
  (* other.size_ = 0; *)
  set_size other 0.

(** [~Vector()] *)
Definition dtor (this : positive) : M T unit :=
  v ← obj this;
  (if decide (RawMem.GetAddress (data_ v) ≠ nullptr)
   then destroy_n E (RawMem.GetAddress (data_ v)) (size_ v)
   else mret tt);;
  destroy_members this.

(** [void Swap(Vector& other) noexcept] *)
Definition Swap (this other : positive) : M T unit :=
  t ← obj this;
  o ← obj other;
  (* data_.Swap(other.data_); *)
  let r := RawMem.Swap (if decide (this = other) then Same (data_ t)
                        else Distinct (data_ t) (data_ o)) in
  set_data this (get_this r);;
  set_data other (get_rhs r);;
  (* std::swap(size_, other.size_); *)
  t ← obj this;
  o ← obj other;
  set_size this (size_ o);;
  set_size other (size_ t).

(** *** Assignment *)

(** [for (size_t i = 0; i < std::min(size_, rhs.size_); ++i) data_[i] = rhs[i];]
    with [n] iterations left. *)
Fixpoint assign_loop (this rhs : positive) (i n : nat) : M T unit :=
  match n with
  | 0 => mret tt
  | S n' =>
      t ← obj this;
      dst ← RawMem.at_ (data_ t) i;
      src ← at_ rhs i;
      copy_assign dst src;;
      assign_loop this rhs (sz_add i 1) n'
  end.

(** [Vector& operator=(const Vector& rhs)] *)
Definition assign_copy (this rhs : positive) : M T unit :=
  if decide (this ≠ rhs) then
    t ← obj this;
    r ← obj rhs;
    (if decide (RawMem.Capacity (data_ t) < size_ r) then
       (* Vector temp(rhs); Swap(temp); and temp leaves scope *)
       temp ← local_storage;
       ctor_copy temp rhs;;
       Swap this temp;;
       dtor temp
     else
       assign_loop this rhs 0 (size_ t `min` size_ r);;
       if decide (size_ r < size_ t) then
         p ← RawMem.plus (data_ t) (size_ r);
         destroy_n E p (sz_sub (size_ t) (size_ r))
       else if decide (size_ t < size_ r) then
         src ← RawMem.plus (data_ r) (size_ t);
         dst ← RawMem.plus (data_ t) (size_ t);
         uninitialized_copy_n E src (sz_sub (size_ r) (size_ t)) dst
       else mret tt);;
    (* size_ = rhs.size_; *)
    r ← obj rhs;
    set_size this (size_ r)
  else mret tt.

(** [Vector& operator=(Vector&& rhs) noexcept] *)
Definition assign_move (this rhs : positive) : M T unit :=
  if decide (this ≠ rhs) then
    t ← obj this;
    r ← obj rhs;
    (* data_ = std::move(rhs.data_); *)
    let o := RawMem.move_assign (Distinct (data_ t) (data_ r)) in
    set_data this (get_this o);;
    set_data rhs (get_rhs o);;
    (* size_ = rhs.size_; *)
    r ← obj rhs;
    set_size this (size_ r)
  else mret tt.

(** *** Capacity *)

(** [void Reserve(size_t new_capacity)] *)
Definition Reserve (this : positive) (new_capacity : nat) : M T unit :=
  v ← obj this;
  if decide (new_capacity ≤ RawMem.Capacity (data_ v)) then mret tt
  else
    new_data ← RawMem.ctor new_capacity;
    unwinding
      ((if relocate_by_move
        then uninitialized_move_n E (RawMem.GetAddress (data_ v)) (size_ v)
                                    (RawMem.GetAddress new_data)
        else uninitialized_copy_n E (RawMem.GetAddress (data_ v)) (size_ v)
                                    (RawMem.GetAddress new_data));;
       destroy_n E (RawMem.GetAddress (data_ v)) (size_ v))
      (RawMem.dtor new_data);;
    (* data_.Swap(new_data); and new_data leaves scope *)
    let o := RawMem.Swap (Distinct (data_ v) new_data) in
    set_data this (get_this o);;
    RawMem.dtor (get_rhs o).

(** [void Resize(size_t new_size)] *)
Definition Resize (this : positive) (new_size : nat) : M T unit :=
  v ← obj this;
  (if decide (new_size < size_ v) then
     p ← RawMem.plus (data_ v) new_size;
     destroy_n E p (sz_sub (size_ v) new_size)
   else
     (if decide (Capacity v < new_size) then Reserve this new_size else mret tt);;
     v ← obj this;
     p ← RawMem.plus (data_ v) (size_ v);
     uninitialized_value_construct_n E p (sz_sub new_size (size_ v)));;
  set_size this new_size.

(** *** Insertion at the end *)

(** [T& UnusedEmplaceBack(Args&&... args)]; the reference returned is the
    pointer to the element. *)
Definition UnusedEmplaceBack (this : positive) (x : T) : M T pointer :=
  v ← obj this;
  p ← RawMem.plus (data_ v) (size_ v);
  emplace_new p x;;
  (* return data_[size_++]; *)
  v ← obj this;
  set_size this (sz_add (size_ v) 1);;
  RawMem.at_ (data_ v) (size_ v).

(** [T& RelocatedEmplaceBack(Args&&... args)] *)
Definition RelocatedEmplaceBack (this : positive) (x : T) : M T pointer :=
  v ← obj this;
  temp ← RawMem.ctor (if decide (size_ v = 0) then 1 else sz_mul (size_ v) 2);
  unwinding
    (emplace_new (ptr_add (RawMem.GetAddress temp) (size_ v)) x;;
     try_catch_std
       (if relocate_by_move
        then uninitialized_move_n E (RawMem.GetAddress (data_ v)) (size_ v)
                                    (RawMem.GetAddress temp)
        else uninitialized_copy_n E (RawMem.GetAddress (data_ v)) (size_ v)
                                    (RawMem.GetAddress temp))
       (λ e, destroy_n E (RawMem.GetAddress temp) (sz_add (size_ v) 1);; throw e);;
     destroy_n E (RawMem.GetAddress (data_ v)) (size_ v))
    (RawMem.dtor temp);;
  (* data_.Swap(temp); *)
  let o := RawMem.Swap (Distinct (data_ v) temp) in
  set_data this (get_this o);;
  (* ++size_; *)
  set_size this (sz_add (size_ v) 1);;
  (* return data_[size_ - 1]; and temp leaves scope *)
  v ← obj this;
  r ← RawMem.at_ (data_ v) (sz_sub (size_ v) 1);
  RawMem.dtor (get_rhs o);;
  mret r.

(** [T& EmplaceBack(Args&&... args)] *)
Definition EmplaceBack (this : positive) (x : T) : M T pointer :=
  v ← obj this;
  if decide (size_ v = Capacity v)
  then RelocatedEmplaceBack this x
  else UnusedEmplaceBack this x.

(** [void PushBack(const T& value)] and [void PushBack(T&& value)] *)
Definition PushBack (this : positive) (value : T) : M T unit :=
  EmplaceBack this value;; mret tt.

(** [void PopBack()] *)
Definition PopBack (this : positive) : M T unit :=
  (* std::destroy_at(&data_[--size_]); *)
  v ← obj this;
  set_size this (sz_sub (size_ v) 1);;
  v ← obj this;
  p ← RawMem.at_ (data_ v) (size_ v);
  destroy_at E p.

(** *** Insertion and removal at a position *)

(** [iterator UnusedEmplace(const_iterator pos, Args&&... args)] *)
Definition UnusedEmplace (this : positive) (pos : pointer) (x : T) : M T pointer :=
  e ← end_ this;
  if decide (pos = e) then
    UnusedEmplaceBack this x;;
    e ← end_ this;
    ptr_minus e 1
  else
    b ← begin_ this;
    insert_begin_align ← ptr_diff pos b;
    try_catch_std
      ((* T temp_obj(std::forward<Args>(args)...); *)
       temp_obj ← emplace_local x;
       (* new (end()) T(std::forward<T>(data_[size_ - 1])); *)
       e ← end_ this;
       v ← obj this;
       last ← RawMem.at_ (data_ v) (sz_sub (size_ v) 1);
       move_construct E e last;;
       (* std::move_backward(begin() + insert_begin_align, end() - 1, end()); *)
       b ← begin_ this;
       e1 ← end_ this;
       e1 ← ptr_minus e1 1;
       e2 ← end_ this;
       std_move_backward E (ptr_add b insert_begin_align) e1 e2;;
       (* *(begin() + insert_begin_align) = std::forward<T>(temp_obj); *)
       b ← begin_ this;
       move_assign_local (ptr_add b insert_begin_align) temp_obj)
      (λ ex, e ← end_ this; operator_delete e;; throw ex);;
    (* ++size_; *)
    v ← obj this;
    set_size this (sz_add (size_ v) 1);;
    v ← obj this;
    RawMem.plus (data_ v) insert_begin_align.

(** [iterator RelocatedEmplace(const_iterator pos, Args&&... args)] *)
Definition RelocatedEmplace (this : positive) (pos : pointer) (x : T) : M T pointer :=
  e ← end_ this;
  if decide (pos = e) then
    RelocatedEmplaceBack this x;;
    e ← end_ this;
    ptr_minus e 1
  else
    b ← begin_ this;
    insert_begin_align ← ptr_diff pos b;
    e ← end_ this;
    insert_back_align ← ptr_diff e pos;
    v ← obj this;
    temp ← RawMem.ctor (if decide (size_ v = 0) then 1 else sz_mul (size_ v) 2);
    unwinding
      (emplace_new (ptr_add (RawMem.GetAddress temp) insert_begin_align) x;;
       try_catch_std
         (if relocate_by_move
          then
            uninitialized_move_n E (RawMem.GetAddress (data_ v)) insert_begin_align
                                   (RawMem.GetAddress temp);;
            uninitialized_move_n E
              (ptr_add (RawMem.GetAddress (data_ v)) insert_begin_align) insert_back_align
              (ptr_add (RawMem.GetAddress temp) (sz_add insert_begin_align 1))
          else
            uninitialized_copy_n E (RawMem.GetAddress (data_ v)) insert_begin_align
                                   (RawMem.GetAddress temp);;
            uninitialized_copy_n E
              (ptr_add (RawMem.GetAddress (data_ v)) insert_begin_align) insert_back_align
              (ptr_add (RawMem.GetAddress temp) (sz_add insert_begin_align 1)))
         (λ ex, destroy_n E (RawMem.GetAddress temp) (sz_add (size_ v) 1);; throw ex);;
       destroy_n E (RawMem.GetAddress (data_ v)) (size_ v))
      (RawMem.dtor temp);;
    (* data_.Swap(temp); *)
    let o := RawMem.Swap (Distinct (data_ v) temp) in
    set_data this (get_this o);;
    (* ++size_; *)
    set_size this (sz_add (size_ v) 1);;
    (* return data_ + insert_begin_align; and temp leaves scope *)
    v ← obj this;
    r ← RawMem.plus (data_ v) insert_begin_align;
    RawMem.dtor (get_rhs o);;
    mret r.

(** [iterator Emplace(const_iterator pos, Args&&... args)] *)
Definition Emplace (this : positive) (pos : pointer) (x : T) : M T pointer :=
  v ← obj this;
  if decide (size_ v = Capacity v)
  then RelocatedEmplace this pos x
  else UnusedEmplace this pos x.

(** [iterator Insert(const_iterator pos, const T& value)] and the
    overload taking [T&&] *)
Definition Insert (this : positive) (pos : pointer) (value : T) : M T pointer :=
  Emplace this pos value.

(** [iterator Erase(const_iterator pos)] *)
Definition Erase (this : positive) (pos : pointer) : M T pointer :=
  e ← end_ this;
  if decide (pos = e) then
    PopBack this;;
    e ← end_ this;
    ptr_minus e 1
  else
    b ← begin_ this;
    erase_begin_align ← ptr_diff pos b;
    (* std::move(begin() + (erase_begin_align + 1), end(), begin() + erase_begin_align); *)
    b1 ← begin_ this;
    e ← end_ this;
    b2 ← begin_ this;
    std_move E (ptr_add b1 (sz_add erase_begin_align 1)) e (ptr_add b2 erase_begin_align);;
    PopBack this;;
    b ← begin_ this;
    mret (ptr_add b erase_begin_align).

End Methods.

End Vec.

(** ** What the claims are stated with *)

Section Specification.
Context {T : Type}.

(** No exception is scheduled from now on. *)
Definition calm (w : world T) : Prop :=
  ∀ n, tick w ≤ n → schedule w n = None.

(** The next [n] fallible operations succeed and the one after throws [e]. *)
Definition throws_after (w : world T) (n : nat) (e : exn) : Prop :=
  (∀ j, j < n → schedule w (tick w + j) = None) ∧ schedule w (tick w + n) = Some e.

(** A block of [cap] slots whose leading slots hold [xs]; the rest is raw. *)
Definition block_image (xs : list T) (cap : nat) : list (option T) :=
  (Some <$> xs) ++ replicate (cap - length xs) None.

(** The vector [v] owns, in [w], a block laid out as the data model says,
    and its elements are [xs]. *)
Definition holds (w : world T) (v : Vector) (xs : list T) : Prop :=
  size_ v = length xs ∧
  length xs ≤ capacity_ (data_ v) ∧
  fits (capacity_ (data_ v)) ∧
  match buffer_ (data_ v) with
  | Some a => capacity_ (data_ v) ≠ 0 ∧
              mem w !! a = Some (block_image xs (capacity_ (data_ v)))
  | None => capacity_ (data_ v) = 0
  end.

(** The elements of [v] read from the heap: the first [size_] slots of its
    block, if they all hold an object. *)
Definition elements (w : world T) (v : Vector) : option (list T) :=
  match buffer_ (data_ v) with
  | Some a => blk ← mem w !! a;
              if decide (size_ v ≤ length blk) then mapM id (take (size_ v) blk) else None
  | None => if decide (size_ v = 0) then Some [] else None
  end.

(** What [p] points to. *)
Definition pointee (w : world T) (p : pointer) : option T :=
  a ← block p; blk ← mem w !! a; s ← blk !! index p; s.


End Specification.

(** The growth policy of a single-element insertion, between the vector
    before ([v]) and after ([v']): a full vector gets capacity
    [max(1, 2 * size)], another one keeps its block. *)
Definition growth_policy (v v' : Vector) : Prop :=
  (Vec.Size v = Vec.Capacity v → Vec.Capacity v' = 1 `max` (2 * Vec.Size v)) ∧
  (Vec.Size v < Vec.Capacity v → Vec.Data v' = Vec.Data v).

(** [0 <= Size() <= Capacity()] *)
Definition size_within_capacity (v : Vector) : bool :=
  (0 <=? Vec.Size v) && (Vec.Size v <=? Vec.Capacity v).

(** The invariant of [RawMemory]: a null address exactly when the capacity is 0. *)
Definition null_iff_empty (m : RawMemory) : Prop :=
  buffer_ m = None ↔ capacity_ m = 0.

(** ** Element types and worlds to run the code on *)

Module Sample.

(** An [int]-like element. *)
Definition Int : element_type nat := mkElement nat true true true 0 (λ x, x).

(** Copyable, with a move constructor that may throw: relocated by copy. *)
Definition Copyable : element_type nat := mkElement nat false true true 0 (λ x, x).

(** Move-only, with a move constructor that may throw; a moved-from
    object holds 0. *)
Definition MoveOnly : element_type nat := mkElement nat false false true 0 (λ _, 0).

Definition never : nat → option exn := λ _, None.

(** The [n]-th fallible operation throws [e], no other does. *)
Definition only_at (n : nat) (e : exn) : nat → option exn :=
  λ k, if decide (k = n) then Some e else None.

Definition empty_world (s : nat → option exn) : world nat := mkWorld ∅ ∅ 0 s 0.

(** A world with one vector at reference 1 holding [xs] in a block of
    exactly [length xs] slots at address 1. *)
Definition one_vector (xs : list nat) (s : nat → option exn) : world nat :=
  mkWorld {[ 1%positive := Some <$> xs ]}
          {[ 1%positive := mkVector (mkRawMemory (Some 1%positive) (length xs)) (length xs) ]}
          0 s 0.

(** The same with [spare] raw slots behind the elements. *)
Definition roomy_vector (xs : list nat) (spare : nat) (s : nat → option exn) : world nat :=
  mkWorld {[ 1%positive := (Some <$> xs) ++ replicate spare None ]}
          {[ 1%positive := mkVector (mkRawMemory (Some 1%positive) (length xs + spare))
                                    (length xs) ]}
          0 s 0.

(** Two vectors, at references 1 and 2, in blocks 1 and 2. *)
Definition two_vectors (xs ys : list nat) (spare : nat) (s : nat → option exn) : world nat :=
  mkWorld {[ 1%positive := (Some <$> xs) ++ replicate spare None; 2%positive := Some <$> ys ]}
          {[ 1%positive := mkVector (mkRawMemory (Some 1%positive) (length xs + spare))
                                    (length xs);
             2%positive := mkVector (mkRawMemory (Some 2%positive) (length ys)) (length ys) ]}
          0 s 0.

End Sample.

(** * Facts *)

(** ** [size_t] arithmetic without wrap-around *)

Lemma to_size_t_small (z : Z) : (0 ≤ z < 2 ^ SIZE_WIDTH)%Z → to_size_t z = Z.to_nat z.
Proof. intros H. unfold to_size_t. by rewrite Z.mod_small. Qed.

Lemma sz_add_fits a b : fits (a + b) → sz_add a b = a + b.
Proof.
  unfold fits, sz_add. intros H. rewrite to_size_t_small by lia. lia.
Qed.

Lemma sz_sub_le a b : b ≤ a → fits a → sz_sub a b = a - b.
Proof.
  unfold fits, sz_sub. intros Hle H. rewrite to_size_t_small by lia. lia.
Qed.

Lemma sz_mul_fits a b : fits (a * b) → sz_mul a b = a * b.
Proof.
  unfold fits, sz_mul. intros H. rewrite to_size_t_small by lia. lia.
Qed.

Lemma fits_le a b : a ≤ b → fits b → fits a.
Proof. unfold fits. lia. Qed.

(** ** The comparison operators *)

Lemma RawMemory_eq_spec lhs rhs :
  RawMem.eq lhs rhs = true ↔ buffer_ lhs = buffer_ rhs ∧ capacity_ lhs = capacity_ rhs.
Proof.
  unfold RawMem.eq, RawMem.Capacity, RawMem.GetAddress, ptr_eqb.
  rewrite andb_true_iff, Nat.eqb_eq, bool_decide_eq_true.
  split; [intros [? ?] | intros [-> ?]]; split; congruence.
Qed.

Lemma RawMemory_neq_spec lhs rhs :
  RawMem.neq lhs rhs = true ↔ buffer_ lhs ≠ buffer_ rhs ∧ capacity_ lhs ≠ capacity_ rhs.
Proof.
  unfold RawMem.neq, RawMem.Capacity, RawMem.GetAddress, ptr_eqb.
  rewrite andb_true_iff, !negb_true_iff, Nat.eqb_neq, bool_decide_eq_false.
  split; intros [? ?]; split; congruence.
Qed.

(** C1. [operator==] on two Vectors is true exactly when they have the same
    buffer address, the same capacity and the same size, whatever the
    elements are: two vectors holding equal elements in different blocks
    compare unequal. [operator!=] is true only when the buffer identity and
    the size both differ, and on two vectors of equal size in different
    buffers both operators answer false, so [!=] is not the negation of [==]. *)
Theorem Vector_comparison_by_identity :
  (∀ lhs rhs : Vector,
     Vec.eq lhs rhs = true ↔
     (buffer_ (data_ lhs) = buffer_ (data_ rhs) ∧
      capacity_ (data_ lhs) = capacity_ (data_ rhs)) ∧ size_ lhs = size_ rhs) ∧
  (∃ (w : world nat) (lhs rhs : Vector) (xs : list nat),
     holds w lhs xs ∧ holds w rhs xs ∧ Vec.eq lhs rhs = false) ∧
  (∀ lhs rhs : Vector,
     Vec.neq lhs rhs = true →
     ¬ (buffer_ (data_ lhs) = buffer_ (data_ rhs) ∧
        capacity_ (data_ lhs) = capacity_ (data_ rhs)) ∧ size_ lhs ≠ size_ rhs) ∧
  (∀ lhs rhs : Vector,
     size_ lhs = size_ rhs → buffer_ (data_ lhs) ≠ buffer_ (data_ rhs) →
     Vec.eq lhs rhs = false ∧ Vec.neq lhs rhs = false ∧
     Vec.neq lhs rhs ≠ negb (Vec.eq lhs rhs)).
Proof.
  split; [| split; [| split]].
  - intros lhs rhs. unfold Vec.eq, Vec.Data, Vec.Size.
    by rewrite andb_true_iff, RawMemory_eq_spec, Nat.eqb_eq.
  - exists (Sample.two_vectors [7; 8] [7; 8] 0 Sample.never),
      (mkVector (mkRawMemory (Some 1%positive) 2) 2),
      (mkVector (mkRawMemory (Some 2%positive) 2) 2), [7; 8].
    repeat split; simpl; try lia; try done; unfold fits, SIZE_WIDTH; simpl; lia.
  - intros lhs rhs. unfold Vec.neq, Vec.Data, Vec.Size.
    rewrite andb_true_iff, RawMemory_neq_spec, negb_true_iff, Nat.eqb_neq.
    intros [[Hb Hc] Hs]. split; [intros [? ?]; congruence | done].
  - intros lhs rhs Hs Hb.
    assert (Vec.eq lhs rhs = false) as He.
    { apply not_true_is_false. unfold Vec.eq, Vec.Data, Vec.Size.
      rewrite andb_true_iff, RawMemory_eq_spec. intros [[? ?] ?]. congruence. }
    assert (Vec.neq lhs rhs = false) as Hn.
    { apply not_true_is_false. unfold Vec.neq, Vec.Data, Vec.Size.
      rewrite andb_true_iff, negb_true_iff, Nat.eqb_neq. intros [? ?]. congruence. }
    rewrite He, Hn. done.
Qed.

(** Two vectors of equal size in different buffers: the hypotheses of the
    last part of C1 are met and neither operator holds. *)
Lemma Vector_comparison_by_identity_witness :
  let lhs := mkVector (mkRawMemory (Some 1%positive) 2) 2 in
  let rhs := mkVector (mkRawMemory (Some 2%positive) 2) 2 in
  Vec.eq lhs rhs = false ∧ Vec.neq lhs rhs = false.
Proof.
  intros lhs rhs.
  destruct Vector_comparison_by_identity as (_ & _ & _ & H).
  destruct (H lhs rhs) as (He & Hn & _); [reflexivity | discriminate |].
  split; assumption.
Defined.

(** ** Moving a [RawMemory] *)

Lemma RawMemory_move_ctor_spec other :
  null_iff_empty other →
  RawMem.move_ctor other = (other, RawMem.default).
Proof.
  intros [H1 H2]. destruct other as [[a|] c]; simpl in *.
  - destruct c as [|c]; [by specialize (H2 eq_refl) | reflexivity].
  - rewrite (H1 eq_refl). reflexivity.
Qed.

Lemma RawMemory_move_assign_transfers this rhs :
  buffer_ this ≠ buffer_ rhs → capacity_ this ≠ capacity_ rhs →
  RawMem.move_assign (Distinct this rhs) = Distinct rhs RawMem.default.
Proof.
  intros Hb Hc. unfold RawMem.move_assign, RawMem.take_over.
  replace (RawMem.neq _ _) with true
    by (symmetry; by apply RawMemory_neq_spec).
  by destruct rhs.
Qed.

Lemma RawMemory_self_move_assign m :
  RawMem.move_assign (Same m) = Same m.
Proof.
  unfold RawMem.move_assign, RawMem.take_over.
  replace (RawMem.neq _ _) with false; [done |].
  symmetry. apply not_true_is_false. rewrite RawMemory_neq_spec. simpl. tauto.
Qed.

(** C3, where the code departs from it. Move assignment between two blocks
    of the same capacity does nothing: the guard [*this != rhs] needs the
    capacities to differ as well as the addresses, so the destination keeps
    its own region and the source is not reset. *)
Theorem RawMemory_move_assign_same_capacity (a b : option positive) (c : nat) :
  RawMem.move_assign (Distinct (mkRawMemory a c) (mkRawMemory b c))
  = Distinct (mkRawMemory a c) (mkRawMemory b c).
Proof.
  unfold RawMem.move_assign, RawMem.take_over, RawMem.neq; simpl.
  by rewrite Nat.eqb_refl.
Qed.

(** ** Running the monad *)

Section Run.
Context {T : Type}.
Implicit Types (w : world T) (m : gmap positive (list (option T)))
  (o : gmap positive Vector) (s : nat → option exn).

Lemma run_bind {A B} (c : M T A) (k : A → M T B) w :
  (c ≫= k) w =
  match c w with
  | (Ok a, w') => k a w'
  | (Throw e, w') => (Throw e, w')
  | (Undefined, w') => (Undefined, w')
  end.
Proof. reflexivity. Qed.

Lemma bind_Ok {A B} (c : M T A) (k : A → M T B) w a w' :
  c w = (Ok a, w') → (c ≫= k) w = k a w'.
Proof. intros H. by rewrite run_bind, H. Qed.

Lemma bind_Throw {A B} (c : M T A) (k : A → M T B) w e w' :
  c w = (Throw e, w') → (c ≫= k) w = (Throw e, w').
Proof. intros H. by rewrite run_bind, H. Qed.

Lemma run_ret {A} (a : A) w : (mret a : M T A) w = (Ok a, w).
Proof. reflexivity. Qed.

Lemma try_catch_all_Ok {A} (c : M T A) h w a w' :
  c w = (Ok a, w') → try_catch_all c h w = (Ok a, w').
Proof. intros H. unfold try_catch_all. by rewrite H. Qed.

Lemma try_catch_all_Throw {A} (c : M T A) h w e w' :
  c w = (Throw e, w') → try_catch_all c h w = h e w'.
Proof. intros H. unfold try_catch_all. by rewrite H. Qed.

Lemma try_catch_std_Ok {A} (c : M T A) h w a w' :
  c w = (Ok a, w') → try_catch_std c h w = (Ok a, w').
Proof. intros H. unfold try_catch_std. by rewrite H. Qed.

Lemma try_catch_std_Throw {A} (c : M T A) h w e w' :
  c w = (Throw e, w') →
  try_catch_std c h w = if is_std_exception e then h e w' else (Throw e, w').
Proof. intros H. unfold try_catch_std. by rewrite H. Qed.

Lemma unwinding_Ok {A} (c : M T A) cleanup w a w' :
  c w = (Ok a, w') → unwinding c cleanup w = (Ok a, w').
Proof. intros H. unfold unwinding. by apply try_catch_all_Ok. Qed.

Lemma unwinding_Throw {A} (c : M T A) cleanup w e w' w'' :
  c w = (Throw e, w') → cleanup w' = (Ok tt, w'') →
  unwinding c cleanup w = (Throw e, w'').
Proof.
  intros H Hc. unfold unwinding. rewrite (try_catch_all_Throw _ _ _ _ _ H).
  unfold bind. by rewrite Hc.
Qed.

(** *** The schedule *)

Lemma fallible_Ok m o t s l :
  s t = None →
  fallible (mkWorld m o t s l) = (Ok tt, mkWorld m o (S t) s l).
Proof. intros H. unfold fallible; simpl. by rewrite H. Qed.

Lemma fallible_Throw m o t s l e :
  s t = Some e →
  fallible (mkWorld m o t s l) = (Throw e, mkWorld m o (S t) s l).
Proof. intros H. unfold fallible; simpl. by rewrite H. Qed.

(** *** Slots *)

Lemma slot_Ok m o t s l a i blk x :
  m !! a = Some blk → blk !! i = Some x →
  slot (Ptr (Some a) i) (mkWorld m o t s l) = (Ok x, mkWorld m o t s l).
Proof. intros Hm Hb. unfold slot; simpl. by rewrite Hm, Hb. Qed.

Lemma set_slot_Ok m o t s l a i blk x :
  m !! a = Some blk → i < length blk →
  set_slot (Ptr (Some a) i) x (mkWorld m o t s l)
  = (Ok tt, mkWorld (<[a := <[i := x]> blk]> m) o t s l).
Proof.
  intros Hm Hi. unfold set_slot; simpl. rewrite Hm.
  by destruct (decide (i < length blk)).
Qed.

Lemma load_Ok m o t s l a i blk v :
  m !! a = Some blk → blk !! i = Some (Some v) →
  load (Ptr (Some a) i) (mkWorld m o t s l) = (Ok v, mkWorld m o t s l).
Proof.
  intros Hm Hb. unfold load.
  by rewrite (bind_Ok _ _ _ _ _ (slot_Ok _ _ _ _ _ _ _ _ _ Hm Hb)).
Qed.

Lemma store_Ok m o t s l a i blk v v' :
  m !! a = Some blk → blk !! i = Some (Some v) →
  store (Ptr (Some a) i) v' (mkWorld m o t s l)
  = (Ok tt, mkWorld (<[a := <[i := Some v']> blk]> m) o t s l).
Proof.
  intros Hm Hb. unfold store.
  rewrite (bind_Ok _ _ _ _ _ (load_Ok _ _ _ _ _ _ _ _ _ Hm Hb)).
  apply set_slot_Ok; [done | by eapply lookup_lt_Some].
Qed.

Lemma placement_new_Ok m o t s l a i blk x v :
  m !! a = Some blk → blk !! i = Some x →
  placement_new (Ptr (Some a) i) v (mkWorld m o t s l)
  = (Ok tt, mkWorld (<[a := <[i := Some v]> blk]> m) o t s l).
Proof.
  intros Hm Hb. unfold placement_new.
  rewrite (bind_Ok _ _ _ _ _ (slot_Ok _ _ _ _ _ _ _ _ _ Hm Hb)).
  apply set_slot_Ok; [done | by eapply lookup_lt_Some].
Qed.

(** *** Blocks cut at a slot *)

Lemma lookup_cut {X} (pre post : list X) (x : X) i :
  i = length pre → (pre ++ x :: post) !! i = Some x.
Proof. intros ->. by apply list_lookup_middle. Qed.

Lemma insert_cut {X} (pre post : list X) (x y : X) i :
  i = length pre → <[i := y]> (pre ++ x :: post) = pre ++ y :: post.
Proof.
  intros ->. replace (length pre) with (length pre + 0) by lia.
  by rewrite insert_app_r.
Qed.

End Run.

Section Elements.
Context {T : Type} (E : element_type T).
Implicit Types (m : gmap positive (list (option T)))
  (o : gmap positive Vector) (s : nat → option exn)
  (pre post : list (option T)).

Lemma destroy_at_Ok m o t s l a i pre post x :
  m !! a = Some (pre ++ x :: post) → i = length pre →
  is_trivially_destructible E = true ∨ is_Some x →
  destroy_at E (Ptr (Some a) i) (mkWorld m o t s l)
  = (Ok tt, mkWorld (<[a := pre ++ None :: post]> m) o t s l).
Proof.
  intros Hm Hi Hx. unfold destroy_at.
  rewrite (bind_Ok _ _ _ _ _ (slot_Ok _ _ _ _ _ _ _ _ _ Hm (lookup_cut _ _ _ _ Hi))).
  destruct x as [v|].
  - rewrite (set_slot_Ok _ _ _ _ _ _ _ _ _ Hm).
    + by rewrite insert_cut.
    + subst i. rewrite length_app; simpl. lia.
  - destruct Hx as [-> | [? [=]]]. rewrite run_ret.
    by rewrite insert_id.
Qed.

Lemma emplace_new_Ok m o t s l a i pre post x v :
  m !! a = Some (pre ++ x :: post) → i = length pre → s t = None →
  emplace_new (Ptr (Some a) i) v (mkWorld m o t s l)
  = (Ok tt, mkWorld (<[a := pre ++ Some v :: post]> m) o (S t) s l).
Proof.
  intros Hm Hi Hs. unfold emplace_new.
  rewrite (bind_Ok _ _ _ _ _ (fallible_Ok _ _ _ _ _ Hs)).
  rewrite (placement_new_Ok _ _ _ _ _ _ _ _ _ _ Hm (lookup_cut _ _ _ _ Hi)).
  by rewrite insert_cut.
Qed.

Lemma emplace_new_Throw m o t s l p v e :
  s t = Some e →
  emplace_new p v (mkWorld m o t s l) = (Throw e, mkWorld m o (S t) s l).
Proof.
  intros Hs. unfold emplace_new.
  by rewrite (bind_Throw _ _ _ _ _ (fallible_Throw _ _ _ _ _ _ Hs)).
Qed.

Lemma value_construct_Ok m o t s l a i pre post x :
  m !! a = Some (pre ++ x :: post) → i = length pre → s t = None →
  value_construct E (Ptr (Some a) i) (mkWorld m o t s l)
  = (Ok tt, mkWorld (<[a := pre ++ Some (value_initialized E) :: post]> m) o (S t) s l).
Proof.
  intros Hm Hi Hs. unfold value_construct.
  rewrite (bind_Ok _ _ _ _ _ (fallible_Ok _ _ _ _ _ Hs)).
  rewrite (placement_new_Ok _ _ _ _ _ _ _ _ _ _ Hm (lookup_cut _ _ _ _ Hi)).
  by rewrite insert_cut.
Qed.

(** Copy construction from another block. *)
Lemma copy_construct_Ok m o t s l sa si sblk v a i pre post x :
  m !! sa = Some sblk → sblk !! si = Some (Some v) →
  m !! a = Some (pre ++ x :: post) → i = length pre → s t = None →
  copy_construct (Ptr (Some a) i) (Ptr (Some sa) si) (mkWorld m o t s l)
  = (Ok tt, mkWorld (<[a := pre ++ Some v :: post]> m) o (S t) s l).
Proof.
  intros Hsm Hsb Hm Hi Hs. unfold copy_construct.
  rewrite (bind_Ok _ _ _ _ _ (load_Ok _ _ _ _ _ _ _ _ _ Hsm Hsb)).
  rewrite (bind_Ok _ _ _ _ _ (fallible_Ok _ _ _ _ _ Hs)).
  rewrite (placement_new_Ok _ _ _ _ _ _ _ _ _ _ Hm (lookup_cut _ _ _ _ Hi)).
  by rewrite insert_cut.
Qed.

Lemma copy_construct_Throw m o t s l sa si sblk v p e :
  m !! sa = Some sblk → sblk !! si = Some (Some v) → s t = Some e →
  copy_construct p (Ptr (Some sa) si) (mkWorld m o t s l)
  = (Throw e, mkWorld m o (S t) s l).
Proof.
  intros Hsm Hsb Hs. unfold copy_construct.
  rewrite (bind_Ok _ _ _ _ _ (load_Ok _ _ _ _ _ _ _ _ _ Hsm Hsb)).
  by rewrite (bind_Throw _ _ _ _ _ (fallible_Throw _ _ _ _ _ _ Hs)).
Qed.

End Elements.

(** ** The library algorithms *)

Section Algorithms.
Context {T : Type} (E : element_type T).
Implicit Types (m : gmap positive (list (option T)))
  (o : gmap positive Vector) (s : nat → option exn)
  (pre post olds : list (option T)) (vs : list T).

Lemma ptr_add_Ptr b i n : ptr_add (Ptr b i) n = Ptr b (i + n).
Proof. reflexivity. Qed.

Lemma destroy_n_Ok olds : ∀ m o t s l a i pre post,
  m !! a = Some (pre ++ olds ++ post) → i = length pre →
  is_trivially_destructible E = true ∨ Forall is_Some olds →
  destroy_n E (Ptr (Some a) i) (length olds) (mkWorld m o t s l)
  = (Ok tt, mkWorld (<[a := pre ++ replicate (length olds) None ++ post]> m) o t s l).
Proof.
  induction olds as [|x olds IH]; intros m o t s l a i pre post Hm Hi Hx; simpl.
  - rewrite run_ret. by rewrite insert_id.
  - rewrite (bind_Ok _ _ _ _ _ (destroy_at_Ok E _ _ _ _ _ _ _ _ _ _ Hm Hi
      ltac:(destruct Hx as [?|Hx]; [by left | right; by inversion Hx]))).
    rewrite ptr_add_Ptr.
    rewrite (IH _ _ _ _ _ a (i + 1) (pre ++ [None]) post).
    + rewrite insert_insert_eq. by rewrite <- app_assoc.
    + rewrite lookup_insert_eq. by rewrite <- app_assoc.
    + rewrite length_app; simpl. lia.
    + destruct Hx as [?|Hx]; [by left | right; by inversion Hx].
Qed.

Lemma destroy_n_slots n olds m o t s l a i pre post :
  length olds = n →
  m !! a = Some (pre ++ olds ++ post) → i = length pre →
  is_trivially_destructible E = true ∨ Forall is_Some olds →
  destroy_n E (Ptr (Some a) i) n (mkWorld m o t s l)
  = (Ok tt, mkWorld (<[a := pre ++ replicate n None ++ post]> m) o t s l).
Proof. intros <-. apply destroy_n_Ok. Qed.

(** Copy construction of [vs], read from block [sa], over the slots
    [olds] of another block. *)
Lemma uninitialized_copy_n_Ok vs : ∀ m o t s l sa si sblk a i pre post olds,
  sa ≠ a →
  m !! sa = Some sblk →
  (∀ j v, vs !! j = Some v → sblk !! (si + j) = Some (Some v)) →
  m !! a = Some (pre ++ olds ++ post) → i = length pre → length olds = length vs →
  (∀ j, j < length vs → s (t + j) = None) →
  uninitialized_copy_n E (Ptr (Some sa) si) (length vs) (Ptr (Some a) i) (mkWorld m o t s l)
  = (Ok tt, mkWorld (<[a := pre ++ (Some <$> vs) ++ post]> m) o (t + length vs) s l).
Proof.
  induction vs as [|v vs IH];
    intros m o t s l sa si sblk a i pre post olds Hne Hsm Hsrc Hm Hi Hlen Hs; simpl.
  - destruct olds; [|done]. rewrite run_ret, Nat.add_0_r. by rewrite insert_id.
  - destruct olds as [|x olds]; [done|]. simpl in Hlen.
    assert (sblk !! si = Some (Some v)) as Hv.
    { specialize (Hsrc 0 v eq_refl). by rewrite Nat.add_0_r in Hsrc. }
    assert (s t = None) as Hs0.
    { specialize (Hs 0 ltac:(simpl; lia)). by rewrite Nat.add_0_r in Hs. }
    rewrite (bind_Ok _ _ _ _ _
      (copy_construct_Ok _ _ _ _ _ _ _ _ _ _ _ _ _ _ Hsm Hv Hm Hi Hs0)).
    rewrite !ptr_add_Ptr.
    erewrite try_catch_all_Ok; [reflexivity |].
    rewrite (IH _ _ _ _ _ sa (si + 1) sblk a (i + 1) (pre ++ [Some v]) post olds).
    + rewrite insert_insert_eq, <- app_assoc. simpl.
      do 2 f_equal. f_equal. lia.
    + done.
    + by rewrite lookup_insert_ne.
    + intros j v' Hj. specialize (Hsrc (S j) v' Hj).
      by replace (si + 1 + j) with (si + S j) by lia.
    + rewrite lookup_insert_eq. by rewrite <- app_assoc.
    + rewrite length_app; simpl. lia.
    + lia.
    + intros j Hj. specialize (Hs (S j) ltac:(simpl; lia)).
      by replace (S t + j) with (t + S j) by lia.
Qed.

(** The [k]-th copy throws: the [k] copies made are destroyed again and
    the source block is as before. *)
Lemma uninitialized_copy_n_Throw vs : ∀ k e m o t s l sa si sblk a i pre post olds,
  sa ≠ a →
  m !! sa = Some sblk →
  (∀ j v, vs !! j = Some v → sblk !! (si + j) = Some (Some v)) →
  m !! a = Some (pre ++ olds ++ post) → i = length pre → length olds = length vs →
  k < length vs →
  (∀ j, j < k → s (t + j) = None) → s (t + k) = Some e →
  uninitialized_copy_n E (Ptr (Some sa) si) (length vs) (Ptr (Some a) i) (mkWorld m o t s l)
  = (Throw e,
     mkWorld (<[a := pre ++ replicate k None ++ drop k olds ++ post]> m) o (t + S k) s l).
Proof.
  induction vs as [|v vs IH];
    intros k e m o t s l sa si sblk a i pre post olds Hne Hsm Hsrc Hm Hi Hlen Hk Hs He;
    simpl in *; [lia|].
  destruct olds as [|x olds]; [done|]. simpl in Hlen.
  assert (sblk !! si = Some (Some v)) as Hv.
  { specialize (Hsrc 0 v eq_refl). by rewrite Nat.add_0_r in Hsrc. }
  destruct k as [|k].
  - rewrite Nat.add_0_r in He.
    rewrite (bind_Throw _ _ _ _ _ (copy_construct_Throw _ _ _ _ _ _ _ _ _ _ _ Hsm Hv He)).
    simpl. rewrite insert_id by done. do 2 f_equal. lia.
  - assert (s t = None) as Hs0.
    { specialize (Hs 0 ltac:(lia)). by rewrite Nat.add_0_r in Hs. }
    rewrite (bind_Ok _ _ _ _ _
      (copy_construct_Ok _ _ _ _ _ _ _ _ _ _ _ _ _ _ Hsm Hv Hm Hi Hs0)).
    rewrite !ptr_add_Ptr.
    erewrite try_catch_all_Throw; cycle 1.
    { apply (IH k e _ _ _ _ _ sa (si + 1) sblk a (i + 1) (pre ++ [Some v]) post olds).
      + done.
      + by rewrite lookup_insert_ne.
      + intros j v' Hj. specialize (Hsrc (S j) v' Hj).
        by replace (si + 1 + j) with (si + S j) by lia.
      + rewrite lookup_insert_eq. by rewrite <- app_assoc.
      + rewrite length_app; simpl. lia.
      + lia.
      + lia.
      + intros j Hj. specialize (Hs (S j) ltac:(lia)).
        by replace (S t + j) with (t + S j) by lia.
      + by replace (S t + k) with (t + S k) by lia. }
    rewrite insert_insert_eq, <- app_assoc. simpl.
    erewrite bind_Ok; cycle 1.
    { eapply (destroy_at_Ok E _ _ _ _ _ a i pre _ (Some v)).
      - by rewrite lookup_insert_eq.
      - done.
      - right. by eexists. }
    rewrite insert_insert_eq. unfold throw. do 2 f_equal. f_equal. lia.
Qed.

Lemma insert_pair_again {X} (mm : gmap positive X) a b x y x0 y0 :
  a ≠ b →
  <[a := x]> (<[b := y]> (<[a := x0]> (<[b := y0]> mm))) = <[a := x]> (<[b := y]> mm).
Proof.
  intros Hne. apply map_eq. intros j.
  destruct (decide (j = a)) as [->|]; [by rewrite !lookup_insert_eq|].
  rewrite !(lookup_insert_ne _ a) by done.
  destruct (decide (j = b)) as [->|]; [by rewrite !lookup_insert_eq|].
  by rewrite !lookup_insert_ne by done.
Qed.

Lemma move_construct_Ok m o t s l sa si spre spost v a i pre post x :
  sa ≠ a →
  m !! sa = Some (spre ++ Some v :: spost) → si = length spre →
  m !! a = Some (pre ++ x :: post) → i = length pre →
  is_nothrow_move_constructible E = true ∨ s t = None →
  move_construct E (Ptr (Some a) i) (Ptr (Some sa) si) (mkWorld m o t s l)
  = (Ok tt,
     mkWorld (<[sa := spre ++ Some (moved_from E v) :: spost]>
                (<[a := pre ++ Some v :: post]> m))
             o (if is_nothrow_move_constructible E then t else S t) s l).
Proof.
  intros Hne Hsm Hsi Hm Hi Hs. unfold move_construct.
  rewrite (bind_Ok _ _ _ _ _ (load_Ok _ _ _ _ _ _ _ _ _ Hsm (lookup_cut _ _ _ _ Hsi))).
  destruct (is_nothrow_move_constructible E).
  - rewrite (bind_Ok _ _ _ _ _ (run_ret _ _)).
    rewrite (bind_Ok _ _ _ _ _
      (placement_new_Ok _ _ _ _ _ _ _ _ _ _ Hm (lookup_cut _ _ _ _ Hi))).
    rewrite insert_cut by done.
    erewrite store_Ok; [| by rewrite lookup_insert_ne | by apply lookup_cut].
    by rewrite insert_cut.
  - destruct Hs as [[=]|Hs].
    rewrite (bind_Ok _ _ _ _ _ (fallible_Ok _ _ _ _ _ Hs)).
    rewrite (bind_Ok _ _ _ _ _
      (placement_new_Ok _ _ _ _ _ _ _ _ _ _ Hm (lookup_cut _ _ _ _ Hi))).
    rewrite insert_cut by done.
    erewrite store_Ok; [| by rewrite lookup_insert_ne | by apply lookup_cut].
    by rewrite insert_cut.
Qed.

Lemma move_construct_Throw m o t s l sa si sblk v p e :
  is_nothrow_move_constructible E = false →
  m !! sa = Some sblk → sblk !! si = Some (Some v) → s t = Some e →
  move_construct E p (Ptr (Some sa) si) (mkWorld m o t s l)
  = (Throw e, mkWorld m o (S t) s l).
Proof.
  intros Hn Hsm Hsb Hs. unfold move_construct. rewrite Hn.
  rewrite (bind_Ok _ _ _ _ _ (load_Ok _ _ _ _ _ _ _ _ _ Hsm Hsb)).
  by rewrite (bind_Throw _ _ _ _ _ (fallible_Throw _ _ _ _ _ _ Hs)).
Qed.

(** Moving [vs] out of block [sa] into another block: the sources are
    left moved-from. *)
Lemma uninitialized_move_n_Ok vs : ∀ m o t s l sa si spre spost a i pre post olds,
  sa ≠ a →
  m !! sa = Some (spre ++ (Some <$> vs) ++ spost) → si = length spre →
  m !! a = Some (pre ++ olds ++ post) → i = length pre → length olds = length vs →
  is_nothrow_move_constructible E = true ∨ (∀ j, j < length vs → s (t + j) = None) →
  uninitialized_move_n E (Ptr (Some sa) si) (length vs) (Ptr (Some a) i) (mkWorld m o t s l)
  = (Ok tt,
     mkWorld (<[sa := spre ++ (Some <$> (moved_from E <$> vs)) ++ spost]>
                (<[a := pre ++ (Some <$> vs) ++ post]> m))
             o (if is_nothrow_move_constructible E then t else t + length vs) s l).
Proof.
  induction vs as [|v vs IH];
    intros m o t s l sa si spre spost a i pre post olds Hne Hsm Hsi Hm Hi Hlen Hs; simpl.
  - destruct olds; [|done]. rewrite run_ret, Nat.add_0_r. simpl in *.
    rewrite !insert_id by (by rewrite ?lookup_insert_ne).
    by destruct (is_nothrow_move_constructible E).
  - destruct olds as [|x olds]; [done|]. simpl in Hlen, Hsm, Hm.
    erewrite bind_Ok; cycle 1.
    { eapply move_construct_Ok; [exact Hne | exact Hsm | exact Hsi | exact Hm | exact Hi |].
      destruct Hs as [?|Hs]; [by left|right].
      specialize (Hs 0 ltac:(simpl; lia)). by rewrite Nat.add_0_r in Hs. }
    rewrite !ptr_add_Ptr.
    erewrite try_catch_all_Ok; [reflexivity |].
    erewrite (IH _ _ _ _ _ sa (si + 1) (spre ++ [Some (moved_from E v)]) spost
               a (i + 1) (pre ++ [Some v]) post olds).
    + rewrite insert_pair_again by done. rewrite <- !app_assoc. simpl.
      do 2 f_equal. destruct (is_nothrow_move_constructible E); lia.
    + done.
    + rewrite lookup_insert_eq. by rewrite <- app_assoc.
    + rewrite length_app; simpl. lia.
    + rewrite lookup_insert_ne by done. rewrite lookup_insert_eq. by rewrite <- app_assoc.
    + rewrite length_app; simpl. lia.
    + lia.
    + destruct (is_nothrow_move_constructible E) eqn:Hn; [by left|right].
      destruct Hs as [[=]|Hs].
      intros j Hj. specialize (Hs (S j) ltac:(simpl; lia)).
      by replace (S t + j) with (t + S j) by lia.
Qed.

(** The [k]-th move throws: the [k] objects built are destroyed again, but
    their sources stay moved-from. *)
Lemma uninitialized_move_n_Throw vs : ∀ k e m o t s l sa si spre spost a i pre post olds,
  is_nothrow_move_constructible E = false →
  sa ≠ a →
  m !! sa = Some (spre ++ (Some <$> vs) ++ spost) → si = length spre →
  m !! a = Some (pre ++ olds ++ post) → i = length pre → length olds = length vs →
  k < length vs →
  (∀ j, j < k → s (t + j) = None) → s (t + k) = Some e →
  uninitialized_move_n E (Ptr (Some sa) si) (length vs) (Ptr (Some a) i) (mkWorld m o t s l)
  = (Throw e,
     mkWorld (<[sa := spre ++ (Some <$> (moved_from E <$> take k vs)) ++
                             (Some <$> drop k vs) ++ spost]>
                (<[a := pre ++ replicate k None ++ drop k olds ++ post]> m))
             o (t + S k) s l).
Proof.
  induction vs as [|v vs IH];
    intros k e m o t s l sa si spre spost a i pre post olds
           Hn Hne Hsm Hsi Hm Hi Hlen Hk Hs He; simpl in *; [lia|].
  destruct olds as [|x olds]; [done|]. simpl in Hlen, Hm.
  destruct k as [|k].
  - rewrite Nat.add_0_r in He.
    erewrite bind_Throw; cycle 1.
    { eapply move_construct_Throw; [done | exact Hsm | by apply lookup_cut | done]. }
    simpl. rewrite !insert_id by (by rewrite ?lookup_insert_ne).
    do 2 f_equal. lia.
  - assert (s t = None) as Hs0.
    { specialize (Hs 0 ltac:(lia)). by rewrite Nat.add_0_r in Hs. }
    erewrite bind_Ok; cycle 1.
    { eapply move_construct_Ok; [exact Hne | exact Hsm | exact Hsi | exact Hm | exact Hi |].
      by right. }
    rewrite Hn. rewrite !ptr_add_Ptr.
    erewrite try_catch_all_Throw; cycle 1.
    { apply (IH k e _ _ _ _ _ sa (si + 1) (spre ++ [Some (moved_from E v)]) spost
               a (i + 1) (pre ++ [Some v]) post olds).
      + done.
      + done.
      + rewrite lookup_insert_eq. by rewrite <- app_assoc.
      + rewrite length_app; simpl. lia.
      + rewrite lookup_insert_ne by done. rewrite lookup_insert_eq. by rewrite <- app_assoc.
      + rewrite length_app; simpl. lia.
      + lia.
      + lia.
      + intros j Hj. specialize (Hs (S j) ltac:(lia)).
        by replace (S t + j) with (t + S j) by lia.
      + by replace (S t + k) with (t + S k) by lia. }
    rewrite insert_pair_again by done. rewrite <- !app_assoc. simpl.
    erewrite bind_Ok; cycle 1.
    { eapply (destroy_at_Ok E _ _ _ _ _ a i pre _ (Some v)).
      - rewrite lookup_insert_ne by done. by rewrite lookup_insert_eq.
      - done.
      - right. by eexists. }
    rewrite (insert_insert_ne _ a sa) by done.
    rewrite insert_insert_eq.
    unfold throw. do 2 f_equal. lia.
Qed.


(** Move assignment between two live objects of one block. *)
Lemma move_assign_Ok m o t s l a blk di si u v :
  m !! a = Some blk → blk !! si = Some (Some v) → blk !! di = Some (Some u) →
  s t = None →
  move_assign E (Ptr (Some a) di) (Ptr (Some a) si) (mkWorld m o t s l)
  = (Ok tt,
     mkWorld (<[a := <[si := Some (moved_from E v)]> (<[di := Some v]> blk)]> m)
             o (S t) s l).
Proof.
  intros Hm Hsrc Hdst Hs. unfold move_assign.
  rewrite (bind_Ok _ _ _ _ _ (load_Ok _ _ _ _ _ _ _ _ _ Hm Hsrc)).
  rewrite (bind_Ok _ _ _ _ _ (load_Ok _ _ _ _ _ _ _ _ _ Hm Hdst)).
  rewrite (bind_Ok _ _ _ _ _ (fallible_Ok _ _ _ _ _ Hs)).
  rewrite (bind_Ok _ _ _ _ _ (store_Ok _ _ _ _ _ _ _ _ _ _ Hm Hdst)).
  destruct (decide (si = di)) as [->|Hne].
  - erewrite store_Ok; [| by rewrite lookup_insert_eq |].
    + by rewrite insert_insert_eq.
    + apply list_lookup_insert_eq. by eapply lookup_lt_Some.
  - erewrite store_Ok; [| by rewrite lookup_insert_eq |].
    + by rewrite insert_insert_eq.
    + by rewrite list_lookup_insert_ne.
Qed.

(** [std::move] to the slot just before the range: everything moves one
    slot to the left and the last slot keeps an object, moved-from unless
    the range was empty. *)
Lemma move_loop_left ys : ∀ m o t s l a i pre post y0,
  m !! a = Some (pre ++ Some y0 :: (Some <$> ys) ++ post) → i = length pre →
  (∀ j, j < length ys → s (t + j) = None) →
  ∃ r,
    move_loop E (Ptr (Some a) (S i)) (length ys) (Ptr (Some a) i) (mkWorld m o t s l)
    = (Ok tt, mkWorld (<[a := pre ++ (Some <$> ys) ++ Some r :: post]> m)
                      o (t + length ys) s l).
Proof.
  induction ys as [|y ys IH]; intros m o t s l a i pre post y0 Hm Hi Hs; simpl in *.
  - exists y0. rewrite run_ret, Nat.add_0_r. by rewrite insert_id.
  - assert (s t = None) as Hs0.
    { specialize (Hs 0 ltac:(lia)). by rewrite Nat.add_0_r in Hs. }
    set (tl := (Some <$> ys) ++ post) in *.
    assert ((pre ++ Some y0 :: Some y :: tl) !! S i = Some (Some y)) as Hsrc.
    { rewrite (cons_middle (Some y0)), app_assoc.
      apply lookup_cut. rewrite length_app; simpl. lia. }
    assert ((pre ++ Some y0 :: Some y :: tl) !! i = Some (Some y0)) as Hdst
      by by apply lookup_cut.
    rewrite (bind_Ok _ _ _ _ _ (move_assign_Ok _ _ _ _ _ _ _ _ _ _ _ Hm Hsrc Hdst Hs0)).
    rewrite (insert_cut _ _ _ _ _ Hi).
    rewrite (cons_middle (Some y)), app_assoc.
    rewrite insert_cut by (rewrite length_app; simpl; lia).
    rewrite !ptr_add_Ptr.
    destruct (IH (<[a := (pre ++ [Some y]) ++ Some (moved_from E y) :: tl]> m)
                 o (S t) s l a (i + 1) (pre ++ [Some y]) post (moved_from E y))
      as [r Hr].
    + by rewrite lookup_insert_eq.
    + rewrite length_app; simpl. lia.
    + intros j Hj. specialize (Hs (S j) ltac:(lia)).
      by replace (S t + j) with (t + S j) by lia.
    + exists r. replace (S i + 1) with (S (i + 1)) by lia. subst tl.
      etrans; [exact Hr|].
      rewrite insert_insert_eq, <- app_assoc. simpl.
      do 2 f_equal. f_equal. lia.
Qed.

Lemma ptr_minus_Ok b i n (w : world T) :
  n ≤ i → ptr_minus (Ptr b i) n w = (Ok (Ptr b (i - n)), w).
Proof. intros H. unfold ptr_minus; simpl. by destruct (decide (n ≤ i)). Qed.

(** [std::move_backward] to the slot just behind the range: everything
    moves one slot to the right, the first slot keeps an object. *)
Lemma move_backward_loop_right ys : ∀ m o t s l a i pre post z,
  m !! a = Some (pre ++ (Some <$> ys) ++ Some z :: post) → i = length pre →
  (∀ j, j < length ys → s (t + j) = None) →
  ∃ r,
    move_backward_loop E (length ys) (Ptr (Some a) (i + length ys))
                       (Ptr (Some a) (i + length ys + 1)) (mkWorld m o t s l)
    = (Ok tt, mkWorld (<[a := pre ++ Some r :: (Some <$> ys) ++ post]> m)
                      o (t + length ys) s l).
Proof.
  induction ys as [|y ys IH] using rev_ind; intros m o t s l a i pre post z Hm Hi Hs.
  - exists z. simpl in *. rewrite run_ret, Nat.add_0_r. by rewrite insert_id.
  - rewrite fmap_app in Hm. simpl in Hm. rewrite <- app_assoc in Hm. simpl in Hm.
    assert (pre ++ (Some <$> ys) ++ Some y :: Some z :: post
            = (pre ++ (Some <$> ys)) ++ Some y :: Some z :: post) as Heq
      by by rewrite app_assoc.
    rewrite Heq in Hm.
    assert (length (pre ++ (Some <$> ys)) = i + length ys) as Hlen
      by (rewrite length_app, length_fmap; lia).
    rewrite length_app in Hs. simpl in Hs.
    assert (s t = None) as Hs0.
    { specialize (Hs 0 ltac:(lia)). by rewrite Nat.add_0_r in Hs. }
    destruct (IH (<[a := (pre ++ (Some <$> ys)) ++ Some (moved_from E y) :: Some y :: post]> m)
                 o (S t) s l a i pre (Some y :: post) (moved_from E y))
      as [r Hr].
    { rewrite lookup_insert_eq. by rewrite <- app_assoc. }
    { done. }
    { intros j Hj. specialize (Hs (S j) ltac:(lia)).
      by replace (S t + j) with (t + S j) by lia. }
    exists r.
    rewrite length_app. simpl.
    replace (length ys + 1) with (S (length ys)) by lia.
    cbn [move_backward_loop].
    erewrite bind_Ok; [| apply ptr_minus_Ok; lia].
    erewrite bind_Ok; [| apply ptr_minus_Ok; lia].
    replace (i + S (length ys) - 1) with (i + length ys) by lia.
    replace (i + S (length ys) + 1 - 1) with (i + length ys + 1) by lia.
    set (pre' := pre ++ (Some <$> ys)) in *.
    assert ((pre' ++ Some y :: Some z :: post) !! (i + length ys) = Some (Some y)) as Hsrc
      by by apply lookup_cut.
    assert ((pre' ++ Some y :: Some z :: post) !! (i + length ys + 1) = Some (Some z))
      as Hdst.
    { rewrite (cons_middle (Some y)), app_assoc.
      apply lookup_cut. rewrite length_app; simpl. lia. }
    rewrite (bind_Ok _ _ _ _ _ (move_assign_Ok _ _ _ _ _ _ _ _ _ _ _ Hm Hsrc Hdst Hs0)).
    rewrite (cons_middle (Some y)), app_assoc.
    rewrite insert_cut by (rewrite length_app; simpl; lia).
    rewrite <- app_assoc. simpl.
    rewrite insert_cut by done.
    etrans; [exact Hr|]. rewrite insert_insert_eq.
    rewrite fmap_app, <- app_assoc. simpl.
    do 2 f_equal. lia.
Qed.

End Algorithms.

(** ** Access to the objects and to their blocks *)

Section Objects.
Context {T : Type}.
Implicit Types (m : gmap positive (list (option T)))
  (o : gmap positive Vector) (s : nat → option exn) (xs : list T).

Lemma obj_Ok m o t s l this v :
  o !! this = Some v →
  Vec.obj this (mkWorld m o t s l) = (Ok v, mkWorld m o t s l).
Proof. intros H. unfold Vec.obj; simpl. by rewrite H. Qed.

Lemma set_size_Ok m o t s l this v n :
  o !! this = Some v →
  Vec.set_size this n (mkWorld m o t s l)
  = (Ok tt, mkWorld m (<[this := mkVector (data_ v) n]> o) t s l).
Proof.
  intros H. unfold Vec.set_size. by rewrite (bind_Ok _ _ _ _ _ (obj_Ok _ _ _ _ _ _ _ H)).
Qed.

Lemma set_data_Ok m o t s l this v d :
  o !! this = Some v →
  Vec.set_data this d (mkWorld m o t s l)
  = (Ok tt, mkWorld m (<[this := mkVector d (size_ v)]> o) t s l).
Proof.
  intros H. unfold Vec.set_data. by rewrite (bind_Ok _ _ _ _ _ (obj_Ok _ _ _ _ _ _ _ H)).
Qed.

Lemma new_obj_Ok m o t s l this v :
  o !! this = None →
  Vec.new_obj this v (mkWorld m o t s l) = (Ok tt, mkWorld m (<[this := v]> o) t s l).
Proof. intros H. unfold Vec.new_obj; simpl. by rewrite H. Qed.

Lemma RawMemory_plus_Ok (d : RawMemory) n (w : world T) :
  n ≤ capacity_ d → RawMem.plus d n w = (Ok (Ptr (buffer_ d) n), w).
Proof. intros H. unfold RawMem.plus. by destruct (decide (n ≤ capacity_ d)). Qed.

Lemma RawMemory_at_Ok (d : RawMemory) n (w : world T) :
  n < capacity_ d → RawMem.at_ d n w = (Ok (Ptr (buffer_ d) n), w).
Proof. intros H. unfold RawMem.at_. by destruct (decide (n < capacity_ d)). Qed.

Lemma begin_Ok m o t s l this v :
  o !! this = Some v →
  Vec.begin_ this (mkWorld m o t s l) = (Ok (Ptr (buffer_ (data_ v)) 0), mkWorld m o t s l).
Proof.
  intros H. unfold Vec.begin_. by rewrite (bind_Ok _ _ _ _ _ (obj_Ok _ _ _ _ _ _ _ H)).
Qed.

Lemma end_Ok m o t s l this v :
  o !! this = Some v → size_ v ≤ capacity_ (data_ v) →
  Vec.end_ this (mkWorld m o t s l)
  = (Ok (Ptr (buffer_ (data_ v)) (size_ v)), mkWorld m o t s l).
Proof.
  intros H Hle. unfold Vec.end_. rewrite (bind_Ok _ _ _ _ _ (obj_Ok _ _ _ _ _ _ _ H)).
  by apply RawMemory_plus_Ok.
Qed.

(** *** The layout of a block *)

Lemma length_block_image xs cap :
  length xs ≤ cap → length (block_image xs cap) = cap.
Proof. intros H. unfold block_image. rewrite length_app, length_fmap, length_replicate. lia. Qed.

Lemma block_image_spare xs cap :
  length xs < cap →
  block_image xs cap = (Some <$> xs) ++ None :: replicate (cap - S (length xs)) None.
Proof.
  intros H. unfold block_image. f_equal.
  replace (cap - length xs) with (S (cap - S (length xs))) by lia. done.
Qed.

Lemma block_image_snoc xs x cap :
  (Some <$> xs) ++ Some x :: replicate (cap - S (length xs)) None
  = block_image (xs ++ [x]) cap.
Proof.
  unfold block_image. rewrite fmap_app, <- app_assoc, length_app. simpl.
  do 3 f_equal. lia.
Qed.

Lemma block_image_full (xs : list T) : block_image xs (length xs) = Some <$> xs.
Proof. unfold block_image. rewrite Nat.sub_diag. simpl. by rewrite app_nil_r. Qed.

Lemma block_image_lookup xs cap j v :
  xs !! j = Some v → block_image xs cap !! j = Some (Some v).
Proof.
  intros H. unfold block_image. rewrite lookup_app_l.
  - by rewrite list_lookup_fmap, H.
  - rewrite length_fmap. by eapply lookup_lt_Some.
Qed.

(** A vector with room owns a block. *)
Lemma holds_block (w : world T) v xs :
  holds w v xs → 0 < capacity_ (data_ v) →
  ∃ a, buffer_ (data_ v) = Some a ∧
       mem w !! a = Some (block_image xs (capacity_ (data_ v))).
Proof.
  intros (_ & _ & _ & H) Hc. destruct (buffer_ (data_ v)) as [a|]; [|lia].
  exists a. by destruct H.
Qed.

Lemma holds_elements (w : world T) v xs :
  holds w v xs → elements w v = Some xs.
Proof.
  intros (Hs & Hle & _ & H). unfold elements.
  destruct (buffer_ (data_ v)) as [a|].
  - destruct H as [_ ->]. simpl.
    rewrite length_block_image by done.
    destruct (decide (size_ v ≤ capacity_ (data_ v))); [|lia].
    unfold block_image. rewrite Hs, take_app_length' by by rewrite length_fmap.
    apply mapM_Some. apply Forall2_fmap_l. by apply Forall_Forall2_diag, Forall_true.
  - destruct (decide (size_ v = 0)) as [Hz|]; [|lia].
    rewrite Hz in Hs. by destruct xs.
Qed.

End Objects.

(** ** Appending where there is room *)

Section EmplaceBackUnused.
Context {T : Type} (E : element_type T).
Implicit Types (m : gmap positive (list (option T)))
  (o : gmap positive Vector) (s : nat → option exn) (xs : list T).

Lemma UnusedEmplaceBack_Ok m o t s l this a cap xs x :
  o !! this = Some (mkVector (mkRawMemory (Some a) cap) (length xs)) →
  m !! a = Some (block_image xs cap) → length xs < cap → fits cap →
  s t = None →
  Vec.UnusedEmplaceBack this x (mkWorld m o t s l)
  = (Ok (Ptr (Some a) (length xs)),
     mkWorld (<[a := block_image (xs ++ [x]) cap]> m)
             (<[this := mkVector (mkRawMemory (Some a) cap) (S (length xs))]> o)
             (S t) s l).
Proof.
  intros Ho Hm Hlt Hfit Hs. unfold Vec.UnusedEmplaceBack.
  rewrite (bind_Ok _ _ _ _ _ (obj_Ok _ _ _ _ _ _ _ Ho)). simpl.
  erewrite bind_Ok; [| apply RawMemory_plus_Ok; simpl; lia]. simpl.
  rewrite block_image_spare in Hm by done.
  erewrite bind_Ok; cycle 1.
  { eapply emplace_new_Ok; [exact Hm | by rewrite length_fmap | done]. }
  rewrite (bind_Ok _ _ _ _ _ (obj_Ok _ _ _ _ _ _ _ Ho)). simpl.
  rewrite (bind_Ok _ _ _ _ _ (set_size_Ok _ _ _ _ _ _ _ _ Ho)). simpl.
  rewrite RawMemory_at_Ok by (simpl; lia). simpl.
  rewrite block_image_snoc.
  rewrite sz_add_fits by (eapply fits_le; [|exact Hfit]; lia).
  by rewrite Nat.add_1_r.
Qed.

Lemma UnusedEmplaceBack_Throw m o t s l this v x e :
  o !! this = Some v → size_ v ≤ capacity_ (data_ v) → s t = Some e →
  Vec.UnusedEmplaceBack this x (mkWorld m o t s l)
  = (Throw e, mkWorld m o (S t) s l).
Proof.
  intros Ho Hle Hs. unfold Vec.UnusedEmplaceBack.
  rewrite (bind_Ok _ _ _ _ _ (obj_Ok _ _ _ _ _ _ _ Ho)).
  erewrite bind_Ok; [| by apply RawMemory_plus_Ok].
  by rewrite (bind_Throw _ _ _ _ _ (emplace_new_Throw _ _ _ _ _ _ _ _ Hs)).
Qed.

End EmplaceBackUnused.

(** ** Blocks that come and go *)

Section Storage.
Context {T : Type} (E : element_type T).
Implicit Types (m : gmap positive (list (option T)))
  (o : gmap positive Vector) (s : nat → option exn) (xs vs : list T).

Lemma fresh_block_unused m : m !! fresh (dom m) = None.
Proof. apply not_elem_of_dom. apply is_fresh. Qed.

Lemma fresh_block_other m a (blk : list (option T)) :
  m !! a = Some blk → a ≠ fresh (dom m).
Proof. intros H ->. by rewrite fresh_block_unused in H. Qed.

Lemma RawMemory_ctor_Ok m o t s l n :
  n ≠ 0 → s t = None →
  RawMem.ctor n (mkWorld m o t s l)
  = (Ok (mkRawMemory (Some (fresh (dom m))) n),
     mkWorld (<[fresh (dom m) := replicate n None]> m) o (S t) s l).
Proof.
  intros Hn Hs. unfold RawMem.ctor, RawMem.Allocate.
  destruct (decide (n ≠ 0)); [|done].
  unfold operator_new. rewrite run_bind. simpl. by rewrite Hs.
Qed.

Lemma RawMemory_ctor_Throw m o t s l n e :
  n ≠ 0 → s t = Some e →
  RawMem.ctor n (mkWorld m o t s l) = (Throw bad_alloc, mkWorld m o (S t) s l).
Proof.
  intros Hn Hs. unfold RawMem.ctor, RawMem.Allocate.
  destruct (decide (n ≠ 0)); [|done].
  unfold operator_new. rewrite run_bind. simpl. by rewrite Hs.
Qed.

Lemma RawMemory_ctor_zero (w : world T) :
  RawMem.ctor 0 w = (Ok (mkRawMemory None 0), w).
Proof. reflexivity. Qed.

Lemma RawMemory_dtor_Ok m o t s l a c blk :
  m !! a = Some blk →
  RawMem.dtor (mkRawMemory (Some a) c) (mkWorld m o t s l)
  = (Ok tt, mkWorld (delete a m) o t s (l + length (live_objects blk))).
Proof.
  intros Hm. unfold RawMem.dtor, RawMem.Deallocate, RawMem.GetAddress. simpl.
  destruct (decide (Ptr (Some a) 0 ≠ nullptr)) as [_|Hn]; [|by destruct Hn].
  unfold operator_delete. simpl. by rewrite Hm.
Qed.

Lemma RawMemory_dtor_null (w : world T) c :
  RawMem.dtor (mkRawMemory None c) w = (Ok tt, w).
Proof. reflexivity. Qed.

Lemma live_objects_raw n : live_objects (replicate n (@None T)) = [].
Proof. unfold live_objects. induction n; [done|]. simpl. done. Qed.

Lemma live_objects_full xs : live_objects (Some <$> xs) = xs.
Proof.
  unfold live_objects. induction xs as [|x xs IH]; [done|].
  rewrite fmap_cons. simpl. f_equal. exact IH.
Qed.

Lemma live_objects_app (b1 b2 : list (option T)) :
  live_objects (b1 ++ b2) = live_objects b1 ++ live_objects b2.
Proof. apply omap_app. Qed.

Lemma live_objects_cons_Some (v : T) b :
  live_objects (Some v :: b) = v :: live_objects b.
Proof. reflexivity. Qed.

Lemma replicate_cut {X} (x : X) n k :
  replicate (n + S k) x = replicate n x ++ x :: replicate k x.
Proof. by rewrite replicate_add. Qed.

(** Relocation, whichever way the type's traits choose: the new block
    receives [vs]; the old slots still hold objects, moved-from or not. *)
Lemma relocation_Ok vs m o t s l sa si spre spost a i pre post olds :
  sa ≠ a →
  m !! sa = Some (spre ++ (Some <$> vs) ++ spost) → si = length spre →
  m !! a = Some (pre ++ olds ++ post) → i = length pre → length olds = length vs →
  (∀ j, t ≤ j → s j = None) →
  ∃ vs' t', length vs' = length vs ∧ t ≤ t' ∧
    (if Vec.relocate_by_move E
     then uninitialized_move_n E (Ptr (Some sa) si) (length vs) (Ptr (Some a) i)
     else uninitialized_copy_n E (Ptr (Some sa) si) (length vs) (Ptr (Some a) i))
      (mkWorld m o t s l)
    = (Ok tt,
       mkWorld (<[sa := spre ++ (Some <$> vs') ++ spost]>
                  (<[a := pre ++ (Some <$> vs) ++ post]> m)) o t' s l).
Proof.
  intros Hne Hsm Hsi Hm Hi Hlen Hs.
  destruct (Vec.relocate_by_move E).
  - exists (moved_from E <$> vs),
      (if is_nothrow_move_constructible E then t else t + length vs).
    split; [by rewrite length_fmap|]. split; [destruct (is_nothrow_move_constructible E); lia|].
    apply uninitialized_move_n_Ok with (olds := olds); try done.
    right. intros j Hj. apply Hs. lia.
  - exists vs, (t + length vs). split; [done|]. split; [lia|].
    erewrite (uninitialized_copy_n_Ok E vs _ _ _ _ _ sa si _ a i pre post olds);
      [| done | exact Hsm | | exact Hm | done | done | intros j Hj; apply Hs; lia].
    + rewrite (insert_id (<[a:=_]> m) sa); [done|]. by rewrite lookup_insert_ne.
    + intros j v Hj. subst si. rewrite lookup_app_r by lia.
      replace (length spre + j - length spre) with j by lia.
      rewrite lookup_app_l by (rewrite length_fmap; by eapply lookup_lt_Some).
      by rewrite list_lookup_fmap, Hj.
Qed.

End Storage.

(** ** Appending to a full vector *)

Section EmplaceBackRelocated.
Context {T : Type} (E : element_type T).
Implicit Types (m : gmap positive (list (option T)))
  (o : gmap positive Vector) (s : nat → option exn) (xs vs : list T).

Lemma RelocatedEmplaceBack_Ok m o t s l this buf xs x :
  o !! this = Some (mkVector (mkRawMemory buf (length xs)) (length xs)) →
  match buf with
  | Some a => length xs ≠ 0 ∧ m !! a = Some (Some <$> xs)
  | None => length xs = 0
  end →
  fits (2 * length xs) →
  (∀ j, t ≤ j → s j = None) →
  ∃ t', t ≤ t' ∧
    Vec.RelocatedEmplaceBack E this x (mkWorld m o t s l)
    = (Ok (Ptr (Some (fresh (dom m))) (length xs)),
       mkWorld (<[fresh (dom m) :=
                    block_image (xs ++ [x]) (if decide (length xs = 0) then 1
                                             else 2 * length xs)]>
                  (match buf with Some a => delete a m | None => m end))
               (<[this := mkVector
                            (mkRawMemory (Some (fresh (dom m)))
                                         (if decide (length xs = 0) then 1
                                          else 2 * length xs))
                            (S (length xs))]> o)
               t' s l).
Proof.
  intros Ho Hbuf Hfit Hs.
  set (a' := fresh (dom m)).
  assert (m !! a' = None) as Ha' by apply fresh_block_unused.
  destruct buf as [a|].
  - destruct Hbuf as [Hn Hm].
    assert (a ≠ a') as Hne by by eapply fresh_block_other.
    destruct (decide (length xs = 0)) as [|_]; [done|].
    destruct (relocation_Ok E xs
                (<[a' := replicate (length xs) None ++
                         Some x :: replicate (length xs - 1) None]> m)
                o (S (S t)) s l a 0 [] [] a' 0 []
                (Some x :: replicate (length xs - 1) None) (replicate (length xs) None))
      as (vs' & t' & Hlen' & Ht' & Hrel).
    { done. }
    { rewrite lookup_insert_ne by done. by rewrite app_nil_r. }
    { done. }
    { by rewrite lookup_insert_eq. }
    { done. }
    { by rewrite length_replicate. }
    { intros j Hj. apply Hs. lia. }
    exists t'. split; [lia|].
    unfold Vec.RelocatedEmplaceBack.
    rewrite (bind_Ok _ _ _ _ _ (obj_Ok _ _ _ _ _ _ _ Ho)). cbn [size_ data_].
    destruct (decide (length xs = 0)) as [|_]; [done|].
    rewrite sz_mul_fits by (eapply fits_le; [|exact Hfit]; lia).
    rewrite sz_add_fits by (eapply fits_le; [|exact Hfit]; lia).
    erewrite bind_Ok; [| apply RawMemory_ctor_Ok; [lia | apply Hs; lia]].
    fold a'. unfold RawMem.GetAddress. cbn [buffer_ capacity_].
    rewrite !ptr_add_Ptr. simpl (0 + _).
    (* the new block, cut at the slot of the new element *)
    replace (replicate (length xs * 2) None)
      with (replicate (length xs) (@None T) ++ None :: replicate (length xs - 1) None)
      by (rewrite <- replicate_cut; f_equal; lia).
    erewrite bind_Ok; cycle 1.
    { apply unwinding_Ok.
      erewrite bind_Ok; cycle 1.
      { eapply emplace_new_Ok with (pre := replicate (length xs) None);
          [by rewrite lookup_insert_eq | by rewrite length_replicate | apply Hs; lia]. }
      rewrite insert_insert_eq.
      erewrite bind_Ok; [| apply try_catch_std_Ok; exact Hrel].
      rewrite insert_insert_eq.
      apply (destroy_n_slots E _ (Some <$> vs') _ _ _ _ _ a 0 [] []) .
      - by rewrite length_fmap.
      - by rewrite lookup_insert_eq, app_nil_r.
      - done.
      - right. apply Forall_fmap, Forall_true. intros v. by eexists. }
    rewrite insert_insert_eq. simpl.
    erewrite bind_Ok; [| by apply set_data_Ok].
    erewrite bind_Ok; [| apply set_size_Ok; by rewrite lookup_insert_eq].
    rewrite insert_insert_eq.
    erewrite bind_Ok; [| apply obj_Ok; by rewrite lookup_insert_eq].
    cbn [size_ data_].
    rewrite sz_sub_le by first [lia | eapply fits_le; [|exact Hfit]; lia].
    erewrite bind_Ok; [| apply RawMemory_at_Ok; simpl; lia].
    erewrite bind_Ok; cycle 1.
    { apply RawMemory_dtor_Ok. by rewrite lookup_insert_eq. }
    rewrite run_ret, app_nil_r, live_objects_raw. simpl.
    rewrite delete_insert_eq, delete_insert_ne by done.
    replace (length xs - 1) with (length xs * 2 - S (length xs)) by lia.
    rewrite block_image_snoc.
    replace (length xs + (length xs + 0)) with (length xs * 2) by lia.
    replace (length xs + 1 - 1) with (length xs) by lia.
    replace (length xs + 1) with (S (length xs)) by lia.
    by rewrite Nat.add_0_r.
  - destruct xs; [|done]. simpl in *.
    exists (S (S t)). split; [lia|].
    unfold Vec.RelocatedEmplaceBack.
    rewrite (bind_Ok _ _ _ _ _ (obj_Ok _ _ _ _ _ _ _ Ho)). cbn [size_ data_].
    destruct (decide (0 = 0)) as [_|]; [|done].
    erewrite bind_Ok; [| apply RawMemory_ctor_Ok; [lia | apply Hs; lia]].
    fold a'. unfold RawMem.GetAddress. cbn [buffer_ capacity_].
    rewrite !ptr_add_Ptr. simpl (0 + _).
    erewrite bind_Ok; cycle 1.
    { apply unwinding_Ok.
      erewrite bind_Ok; cycle 1.
      { eapply emplace_new_Ok with (pre := []) (post := []);
          [by rewrite lookup_insert_eq | done | apply Hs; lia]. }
      rewrite insert_insert_eq.
      erewrite bind_Ok; cycle 1.
      { apply try_catch_std_Ok. destruct (Vec.relocate_by_move E); reflexivity. }
      reflexivity. }
    simpl.
    erewrite bind_Ok; [| by apply set_data_Ok].
    erewrite bind_Ok; [| apply set_size_Ok; by rewrite lookup_insert_eq].
    rewrite insert_insert_eq.
    erewrite bind_Ok; [| apply obj_Ok; by rewrite lookup_insert_eq].
    reflexivity.
Qed.



(** Relocation by copy, and the copy of element [k] throws. *)
Lemma RelocatedEmplaceBack_copy_Throw m o t s l this a xs x k e :
  o !! this = Some (mkVector (mkRawMemory (Some a) (length xs)) (length xs)) →
  m !! a = Some (Some <$> xs) →
  fits (2 * length xs) →
  Vec.relocate_by_move E = false →
  k < length xs →
  (∀ j, j < 2 + k → s (t + j) = None) → s (t + (2 + k)) = Some e →
  Vec.RelocatedEmplaceBack E this x (mkWorld m o t s l)
  = if is_std_exception e then
      if is_trivially_destructible E
      then (Throw e, mkWorld m o (t + (3 + k)) s l)
      else (Undefined,
            mkWorld (<[fresh (dom m) := replicate (length xs) None ++
                                        Some x :: replicate (length xs - 1) None]> m)
                    o (t + (3 + k)) s l)
    else (Throw e, mkWorld m o (t + (3 + k)) s (l + 1)).
Proof.
  intros Ho Hm Hfit Hrel Hk Hs He.
  set (a' := fresh (dom m)).
  assert (m !! a' = None) as Ha' by apply fresh_block_unused.
  assert (a ≠ a') as Hne by by eapply fresh_block_other.
  unfold Vec.RelocatedEmplaceBack.
  rewrite (bind_Ok _ _ _ _ _ (obj_Ok _ _ _ _ _ _ _ Ho)). cbn [size_ data_].
  destruct (decide (length xs = 0)) as [|_]; [lia|].
  rewrite sz_mul_fits by (eapply fits_le; [|exact Hfit]; lia).
  rewrite sz_add_fits by (eapply fits_le; [|exact Hfit]; lia).
  erewrite bind_Ok; cycle 1.
  { apply RawMemory_ctor_Ok; [lia|]. specialize (Hs 0 ltac:(lia)).
    by rewrite Nat.add_0_r in Hs. }
  fold a'. unfold RawMem.GetAddress. cbn [buffer_ capacity_].
  rewrite !ptr_add_Ptr. simpl (0 + _). rewrite Hrel.
  replace (replicate (length xs * 2) None)
    with (replicate (length xs) (@None T) ++ None :: replicate (length xs - 1) None)
    by (rewrite <- replicate_cut; f_equal; lia).
  set (post := Some x :: replicate (length xs - 1) None).
  (* what the failed copy leaves in the new block *)
  assert (uninitialized_copy_n E (Ptr (Some a) 0) (length xs) (Ptr (Some a') 0)
            (mkWorld (<[a' := replicate (length xs) None ++ post]> m) o (S (S t)) s l)
          = (Throw e, mkWorld (<[a' := replicate (length xs) None ++ post]> m)
                              o (t + (3 + k)) s l)) as Hcopy.
  { erewrite (uninitialized_copy_n_Throw E xs k e _ _ _ _ _ a 0 (Some <$> xs) a' 0
                [] post (replicate (length xs) None)).
    - rewrite insert_insert_eq. simpl.
      rewrite drop_replicate, app_assoc, <- replicate_add.
      replace (k + (length xs - k)) with (length xs) by lia.
      do 2 f_equal. lia.
    - done.
    - by rewrite lookup_insert_ne.
    - intros j v Hj. rewrite Nat.add_0_l. by rewrite list_lookup_fmap, Hj.
    - by rewrite lookup_insert_eq.
    - done.
    - by rewrite length_replicate.
    - done.
    - intros j Hj. specialize (Hs (2 + j) ltac:(lia)).
      by replace (S (S t) + j) with (t + (2 + j)) by lia.
    - by replace (S (S t) + k) with (t + (2 + k)) by lia. }
  assert (emplace_new (Ptr (Some a') (length xs)) x
            (mkWorld (<[a' := replicate (length xs) None ++
                              None :: replicate (length xs - 1) None]> m) o (S t) s l)
          = (Ok tt, mkWorld (<[a' := replicate (length xs) None ++ post]> m)
                            o (S (S t)) s l)) as Hnew.
  { erewrite emplace_new_Ok with (pre := replicate (length xs) None);
      [| by rewrite lookup_insert_eq | by rewrite length_replicate
       | specialize (Hs 1 ltac:(lia)); by rewrite Nat.add_1_r in Hs].
    by rewrite insert_insert_eq. }
  destruct (is_std_exception e) eqn:Hstd.
  - destruct (is_trivially_destructible E) eqn:Htriv.
    + erewrite bind_Throw; [reflexivity|].
      eapply unwinding_Throw.
      * rewrite (bind_Ok _ _ _ _ _ Hnew).
        erewrite bind_Throw; [reflexivity|].
        rewrite (try_catch_std_Throw _ _ _ _ _ Hcopy), Hstd.
        erewrite bind_Ok; [reflexivity|].
        apply (destroy_n_slots E _ (replicate (length xs) None ++ [Some x])
                 _ _ _ _ _ a' 0 [] (replicate (length xs - 1) None)).
        -- rewrite length_app, length_replicate. done.
        -- rewrite lookup_insert_eq. unfold post. by rewrite <- app_assoc.
        -- done.
        -- by left.
      * rewrite insert_insert_eq.
        erewrite RawMemory_dtor_Ok; [| by rewrite lookup_insert_eq].
        rewrite delete_insert_eq, delete_id by done.
        simpl. rewrite <- replicate_add, live_objects_raw. simpl.
        by rewrite Nat.add_0_r.
    + erewrite run_bind. unfold unwinding, try_catch_all.
      rewrite (bind_Ok _ _ _ _ _ Hnew).
      erewrite run_bind.
      rewrite (try_catch_std_Throw _ _ _ _ _ Hcopy), Hstd.
      erewrite run_bind.
      assert (destroy_n E (Ptr (Some a') 0) (length xs + 1)
                (mkWorld (<[a' := replicate (length xs) None ++ post]> m)
                         o (t + (3 + k)) s l)
              = (Undefined, mkWorld (<[a' := replicate (length xs) None ++ post]> m)
                                    o (t + (3 + k)) s l)) as Hdes.
      { destruct xs as [|x0 xs']; [simpl in Hk; lia|]. simpl.
        rewrite run_bind. unfold destroy_at. rewrite run_bind.
        erewrite slot_Ok; [| by rewrite lookup_insert_eq | done].
        by rewrite Htriv. }
      by rewrite Hdes.
  - erewrite bind_Throw; [reflexivity|].
    eapply unwinding_Throw.
    + rewrite (bind_Ok _ _ _ _ _ Hnew).
      erewrite bind_Throw; [reflexivity|].
      by rewrite (try_catch_std_Throw _ _ _ _ _ Hcopy), Hstd.
    + erewrite RawMemory_dtor_Ok; [| by rewrite lookup_insert_eq].
      rewrite delete_insert_eq, delete_id by done.
      unfold post.
      by rewrite live_objects_app, live_objects_cons_Some, !live_objects_raw.
Qed.

End EmplaceBackRelocated.

Section RelocationByMoveFails.
Context {T : Type} (E : element_type T).
Implicit Types (m : gmap positive (list (option T)))
  (o : gmap positive Vector) (s : nat → option exn) (xs : list T).

(** Relocation by a move constructor that may throw, and the move of
    element [k] throws: the new block is cleaned up, the elements before
    [k] stay moved-from. *)
Lemma RelocatedEmplaceBack_move_Throw m o t s l this a xs x k e :
  o !! this = Some (mkVector (mkRawMemory (Some a) (length xs)) (length xs)) →
  m !! a = Some (Some <$> xs) →
  fits (2 * length xs) →
  Vec.relocate_by_move E = true →
  is_nothrow_move_constructible E = false →
  is_trivially_destructible E = true →
  is_std_exception e = true →
  k < length xs →
  (∀ j, j < 2 + k → s (t + j) = None) → s (t + (2 + k)) = Some e →
  Vec.RelocatedEmplaceBack E this x (mkWorld m o t s l)
  = (Throw e,
     mkWorld (<[a := (Some <$> (moved_from E <$> take k xs)) ++ (Some <$> drop k xs)]> m)
             o (t + (3 + k)) s l).
Proof.
  intros Ho Hm Hfit Hrel Hnothrow Htriv Hstd Hk Hs He.
  set (a' := fresh (dom m)).
  assert (m !! a' = None) as Ha' by apply fresh_block_unused.
  assert (a ≠ a') as Hne by by eapply fresh_block_other.
  unfold Vec.RelocatedEmplaceBack.
  rewrite (bind_Ok _ _ _ _ _ (obj_Ok _ _ _ _ _ _ _ Ho)). cbn [size_ data_].
  destruct (decide (length xs = 0)) as [|_]; [lia|].
  rewrite sz_mul_fits by (eapply fits_le; [|exact Hfit]; lia).
  rewrite sz_add_fits by (eapply fits_le; [|exact Hfit]; lia).
  erewrite bind_Ok; cycle 1.
  { apply RawMemory_ctor_Ok; [lia|]. specialize (Hs 0 ltac:(lia)).
    by rewrite Nat.add_0_r in Hs. }
  fold a'. unfold RawMem.GetAddress. cbn [buffer_ capacity_].
  rewrite !ptr_add_Ptr. simpl (0 + _). rewrite Hrel.
  replace (replicate (length xs * 2) None)
    with (replicate (length xs) (@None T) ++ None :: replicate (length xs - 1) None)
    by (rewrite <- replicate_cut; f_equal; lia).
  set (post := Some x :: replicate (length xs - 1) None).
  set (moved := (Some <$> (moved_from E <$> take k xs)) ++ (Some <$> drop k xs)).
  assert (uninitialized_move_n E (Ptr (Some a) 0) (length xs) (Ptr (Some a') 0)
            (mkWorld (<[a' := replicate (length xs) None ++ post]> m) o (S (S t)) s l)
          = (Throw e, mkWorld (<[a := moved]> (<[a' := replicate (length xs) None ++ post]> m))
                              o (t + (3 + k)) s l)) as Hmove.
  { erewrite (uninitialized_move_n_Throw E xs k e _ _ _ _ _ a 0 [] [] a' 0
                [] post (replicate (length xs) None)).
    - simpl. rewrite insert_insert_eq.
      rewrite app_nil_r, drop_replicate, (app_assoc (replicate k None)), <- replicate_add.
      replace (k + (length xs - k)) with (length xs) by lia.
      do 2 f_equal. lia.
    - done.
    - done.
    - rewrite lookup_insert_ne by done. by rewrite app_nil_r.
    - done.
    - by rewrite lookup_insert_eq.
    - done.
    - by rewrite length_replicate.
    - done.
    - intros j Hj. specialize (Hs (2 + j) ltac:(lia)).
      by replace (S (S t) + j) with (t + (2 + j)) by lia.
    - by replace (S (S t) + k) with (t + (2 + k)) by lia. }
  assert (emplace_new (Ptr (Some a') (length xs)) x
            (mkWorld (<[a' := replicate (length xs) None ++
                              None :: replicate (length xs - 1) None]> m) o (S t) s l)
          = (Ok tt, mkWorld (<[a' := replicate (length xs) None ++ post]> m)
                            o (S (S t)) s l)) as Hnew.
  { erewrite emplace_new_Ok with (pre := replicate (length xs) None);
      [| by rewrite lookup_insert_eq | by rewrite length_replicate
       | specialize (Hs 1 ltac:(lia)); by rewrite Nat.add_1_r in Hs].
    by rewrite insert_insert_eq. }
  erewrite bind_Throw; [reflexivity|].
  eapply unwinding_Throw.
  - rewrite (bind_Ok _ _ _ _ _ Hnew).
    erewrite bind_Throw; [reflexivity|].
    rewrite (try_catch_std_Throw _ _ _ _ _ Hmove), Hstd.
    erewrite bind_Ok; [reflexivity|].
    apply (destroy_n_slots E _ (replicate (length xs) None ++ [Some x])
             _ _ _ _ _ a' 0 [] (replicate (length xs - 1) None)).
    + rewrite length_app, length_replicate. done.
    + rewrite lookup_insert_ne by done. rewrite lookup_insert_eq.
      unfold post. by rewrite <- app_assoc.
    + done.
    + by left.
  - erewrite RawMemory_dtor_Ok; [| by rewrite lookup_insert_eq].
    simpl. rewrite <- replicate_add, live_objects_raw. simpl.
    rewrite Nat.add_0_r. do 2 f_equal.
    apply map_eq. intros j.
    destruct (decide (j = a')) as [->|Hj'].
    + rewrite lookup_delete_eq. rewrite lookup_insert_ne by done. by rewrite Ha'.
    + rewrite lookup_delete_ne by done. rewrite lookup_insert_ne by done.
      destruct (decide (j = a)) as [->|Hj]; [by rewrite !lookup_insert_eq|].
      rewrite !lookup_insert_ne by done. done.
Qed.

End RelocationByMoveFails.

(** ** Removing elements *)

Section Removal.
Context {T : Type} (E : element_type T).
Implicit Types (m : gmap positive (list (option T)))
  (o : gmap positive Vector) (s : nat → option exn) (xs vs : list T).

Lemma ptr_diff_Ok b i j (w : world T) :
  j ≤ i → ptr_diff (Ptr b i) (Ptr b j) w = (Ok (i - j), w).
Proof.
  intros H. unfold ptr_diff; simpl.
  destruct (decide (b = b ∧ j ≤ i)) as [_|Hn]; [done|]. destruct Hn. by split.
Qed.

Lemma block_image_drop_last xs x cap :
  length xs < cap →
  (Some <$> xs) ++ None :: replicate (cap - length (xs ++ [x])) None = block_image xs cap.
Proof.
  intros H. rewrite block_image_spare by done.
  rewrite length_app. simpl. do 3 f_equal. lia.
Qed.

Lemma PopBack_Ok m o t s l this a cap xs x :
  o !! this = Some (mkVector (mkRawMemory (Some a) cap) (S (length xs))) →
  m !! a = Some ((Some <$> xs) ++ Some x :: replicate (cap - S (length xs)) None) →
  length xs < cap → fits cap →
  Vec.PopBack E this (mkWorld m o t s l)
  = (Ok tt, mkWorld (<[a := block_image xs cap]> m)
                    (<[this := mkVector (mkRawMemory (Some a) cap) (length xs)]> o) t s l).
Proof.
  intros Ho Hm Hlt Hfit. unfold Vec.PopBack.
  rewrite (bind_Ok _ _ _ _ _ (obj_Ok _ _ _ _ _ _ _ Ho)). cbn [size_ data_].
  rewrite sz_sub_le by first [lia | eapply fits_le; [|exact Hfit]; lia].
  rewrite (bind_Ok _ _ _ _ _ (set_size_Ok _ _ _ _ _ _ _ _ Ho)). cbn [size_ data_].
  erewrite bind_Ok; [| apply obj_Ok; by rewrite lookup_insert_eq]. cbn [size_ data_].
  replace (S (length xs) - 1) with (length xs) by lia.
  erewrite bind_Ok; [| apply RawMemory_at_Ok; simpl; lia]. cbn [buffer_].
  erewrite destroy_at_Ok; [| exact Hm | by rewrite length_fmap | right; by eexists].
  by rewrite <- block_image_spare.
Qed.

Lemma Erase_Ok m o t s l this a cap xs i :
  o !! this = Some (mkVector (mkRawMemory (Some a) cap) (length xs)) →
  m !! a = Some (block_image xs cap) → length xs ≤ cap → fits cap →
  i < length xs →
  (∀ j, t ≤ j → s j = None) →
  ∃ t', t ≤ t' ∧
    Vec.Erase E this (Ptr (Some a) i) (mkWorld m o t s l)
    = (Ok (Ptr (Some a) i),
       mkWorld (<[a := block_image (take i xs ++ drop (S i) xs) cap]> m)
               (<[this := mkVector (mkRawMemory (Some a) cap) (length xs - 1)]> o)
               t' s l).
Proof.
  intros Ho Hm Hle Hfit Hi Hs.
  destruct (lookup_lt_is_Some_2 xs i Hi) as [xi Hxi].
  pose proof (take_drop_middle xs i xi Hxi) as Hsplit.
  assert (length (take i xs) = i) as Hlt by (rewrite length_take; lia).
  assert (length (drop (S i) xs) = length xs - S i) as Hld by by rewrite length_drop.
  set (pre := take i xs) in *. set (ys := drop (S i) xs) in *.
  set (post := replicate (cap - length xs) (@None T)).
  assert (block_image xs cap = (Some <$> pre) ++ Some xi :: (Some <$> ys) ++ post) as Hblk.
  { unfold block_image. rewrite <- Hsplit at 1.
    rewrite fmap_app, fmap_cons, <- app_assoc. done. }
  rewrite Hblk in Hm.
  destruct (move_loop_left E ys m o t s l a i (Some <$> pre) post xi Hm) as [r Hr].
  { by rewrite length_fmap. }
  { intros j Hj. apply Hs. lia. }
  exists (t + length ys). split; [lia|].
  unfold Vec.Erase.
  erewrite bind_Ok; [| by apply end_Ok]. cbn [size_ data_ buffer_].
  destruct (decide (Ptr (Some a) i = Ptr (Some a) (length xs))) as [[=]|_]; [lia|].
  rewrite (bind_Ok _ _ _ _ _ (begin_Ok _ _ _ _ _ _ _ Ho)). cbn [size_ data_ buffer_].
  erewrite bind_Ok; [| apply ptr_diff_Ok; lia].
  rewrite (bind_Ok _ _ _ _ _ (begin_Ok _ _ _ _ _ _ _ Ho)). cbn [size_ data_ buffer_].
  erewrite bind_Ok; [| by apply end_Ok]. cbn [size_ data_ buffer_].
  rewrite (bind_Ok _ _ _ _ _ (begin_Ok _ _ _ _ _ _ _ Ho)). cbn [size_ data_ buffer_].
  rewrite Nat.sub_0_r, !ptr_add_Ptr.
  rewrite sz_add_fits by (eapply fits_le; [|exact Hfit]; lia).
  rewrite !Nat.add_0_l, Nat.add_1_r.
  erewrite bind_Ok; cycle 1.
  { unfold std_move. erewrite bind_Ok; [| apply ptr_diff_Ok; lia].
    rewrite <- Hld. exact Hr. }
  assert (length xs = S (length (pre ++ ys))) as Hn by (rewrite length_app; lia).
  erewrite bind_Ok; cycle 1.
  { apply (PopBack_Ok _ _ _ _ _ this a cap (pre ++ ys) r).
    - by rewrite Ho, Hn.
    - rewrite lookup_insert_eq, fmap_app, <- app_assoc. unfold post. by rewrite Hn.
    - lia.
    - done. }
  rewrite insert_insert_eq.
  erewrite bind_Ok; [| apply begin_Ok; by rewrite lookup_insert_eq].
  rewrite run_ret, ptr_add_Ptr. cbn [size_ data_ buffer_].
  rewrite Hn. simpl. by rewrite Nat.sub_0_r.
Qed.

End Removal.

(** ** Inserting at a position where there is room *)

Section EmplaceUnused.
Context {T : Type} (E : element_type T).
Implicit Types (m : gmap positive (list (option T)))
  (o : gmap positive Vector) (s : nat → option exn) (xs ys pre : list T).

(** Move construction of the last element into the raw slot behind it. *)
Lemma move_construct_next m o t s l a i (bpre bpost : list (option T)) v x0 :
  m !! a = Some (bpre ++ Some v :: x0 :: bpost) → i = length bpre →
  is_nothrow_move_constructible E = true ∨ s t = None →
  move_construct E (Ptr (Some a) (S i)) (Ptr (Some a) i) (mkWorld m o t s l)
  = (Ok tt,
     mkWorld (<[a := bpre ++ Some (moved_from E v) :: Some v :: bpost]> m)
             o (if is_nothrow_move_constructible E then t else S t) s l).
Proof.
  intros Hm Hi Hs. unfold move_construct.
  rewrite (bind_Ok _ _ _ _ _ (load_Ok _ _ _ _ _ _ _ _ _ Hm (lookup_cut _ _ _ _ Hi))).
  assert ((bpre ++ Some v :: x0 :: bpost) !! S i = Some x0) as Hdst.
  { rewrite (cons_middle (Some v)), app_assoc.
    apply lookup_cut. rewrite length_app; simpl. lia. }
  assert (<[S i := Some v]> (bpre ++ Some v :: x0 :: bpost)
          = bpre ++ Some v :: Some v :: bpost) as Hins.
  { rewrite (cons_middle (Some v)), app_assoc.
    rewrite insert_cut by (rewrite length_app; simpl; lia).
    by rewrite <- app_assoc. }
  assert (∀ t',
    (placement_new (Ptr (Some a) (S i)) v ≫= λ _, store (Ptr (Some a) i) (moved_from E v))
      (mkWorld m o t' s l)
    = (Ok tt, mkWorld (<[a := bpre ++ Some (moved_from E v) :: Some v :: bpost]> m)
                      o t' s l)) as Hrest.
  { intros t'.
    rewrite (bind_Ok _ _ _ _ _ (placement_new_Ok _ _ _ _ _ _ _ _ _ _ Hm Hdst)).
    rewrite Hins.
    erewrite store_Ok; [| by rewrite lookup_insert_eq | by apply lookup_cut].
    by rewrite insert_insert_eq, insert_cut. }
  destruct (is_nothrow_move_constructible E).
  - rewrite (bind_Ok _ _ _ _ _ (run_ret _ _)). apply Hrest.
  - destruct Hs as [[=]|Hs].
    rewrite (bind_Ok _ _ _ _ _ (fallible_Ok _ _ _ _ _ Hs)). apply Hrest.
Qed.

Lemma move_assign_local_Ok m o t s l a i (bpre bpost : list (option T)) u v :
  m !! a = Some (bpre ++ Some u :: bpost) → i = length bpre → s t = None →
  move_assign_local (Ptr (Some a) i) v (mkWorld m o t s l)
  = (Ok tt, mkWorld (<[a := bpre ++ Some v :: bpost]> m) o (S t) s l).
Proof.
  intros Hm Hi Hs. unfold move_assign_local.
  rewrite (bind_Ok _ _ _ _ _ (load_Ok _ _ _ _ _ _ _ _ _ Hm (lookup_cut _ _ _ _ Hi))).
  rewrite (bind_Ok _ _ _ _ _ (fallible_Ok _ _ _ _ _ Hs)).
  rewrite (store_Ok _ _ _ _ _ _ _ _ _ _ Hm (lookup_cut _ _ _ _ Hi)).
  by rewrite insert_cut.
Qed.

Lemma UnusedEmplace_Ok m o t s l this a cap pre ys xl x :
  o !! this = Some (mkVector (mkRawMemory (Some a) cap) (length (pre ++ ys ++ [xl]))) →
  m !! a = Some (block_image (pre ++ ys ++ [xl]) cap) →
  length (pre ++ ys ++ [xl]) < cap → fits cap →
  (∀ j, t ≤ j → s j = None) →
  ∃ t', t ≤ t' ∧
    Vec.UnusedEmplace E this (Ptr (Some a) (length pre)) x (mkWorld m o t s l)
    = (Ok (Ptr (Some a) (length pre)),
       mkWorld (<[a := block_image (pre ++ x :: ys ++ [xl]) cap]> m)
               (<[this := mkVector (mkRawMemory (Some a) cap)
                                   (S (length (pre ++ ys ++ [xl])))]> o)
               t' s l).
Proof.
  intros Ho Hm Hlt Hfit Hs.
  set (n := length (pre ++ ys ++ [xl])) in *.
  assert (n = length pre + length ys + 1) as Hn
    by (unfold n; rewrite !length_app; simpl; lia).
  set (post := replicate (cap - S n) (@None T)).
  assert (block_image (pre ++ ys ++ [xl]) cap
          = ((Some <$> pre) ++ (Some <$> ys)) ++ Some xl :: None :: post) as Hblk.
  { rewrite block_image_spare by done. fold n. fold post.
    rewrite !fmap_app, <- !app_assoc. done. }
  rewrite Hblk in Hm.
  set (t1 := if is_nothrow_move_constructible E then S t else S (S t)).
  assert (t ≤ t1) as Ht1 by (unfold t1; destruct (is_nothrow_move_constructible E); lia).
  destruct (move_backward_loop_right E ys
              (<[a := ((Some <$> pre) ++ (Some <$> ys)) ++
                      Some (moved_from E xl) :: Some xl :: post]> m)
              o t1 s l a (length pre) (Some <$> pre) (Some xl :: post) (moved_from E xl))
    as [r Hr].
  { rewrite lookup_insert_eq. by rewrite <- app_assoc. }
  { by rewrite length_fmap. }
  { intros j Hj. apply Hs. lia. }
  exists (S (t1 + length ys)). split; [lia|].
  unfold Vec.UnusedEmplace.
  erewrite bind_Ok; [| apply end_Ok; [exact Ho | simpl; lia]]. cbn [size_ data_ buffer_].
  destruct (decide (Ptr (Some a) (length pre) = Ptr (Some a) n)) as [[=]|_]; [lia|].
  rewrite (bind_Ok _ _ _ _ _ (begin_Ok _ _ _ _ _ _ _ Ho)). cbn [size_ data_ buffer_].
  erewrite bind_Ok; [| apply ptr_diff_Ok; lia]. rewrite Nat.sub_0_r.
  erewrite bind_Ok; cycle 1.
  { apply try_catch_std_Ok.
    unfold emplace_local.
    erewrite bind_Ok; cycle 1.
    { erewrite bind_Ok; [| apply fallible_Ok; apply Hs; lia]. apply run_ret. }
    erewrite bind_Ok; [| apply end_Ok; [exact Ho | simpl; lia]]. cbn [size_ data_ buffer_].
    rewrite (bind_Ok _ _ _ _ _ (obj_Ok _ _ _ _ _ _ _ Ho)). cbn [size_ data_ buffer_].
    rewrite sz_sub_le by first [lia | eapply fits_le; [|exact Hfit]; lia].
    erewrite bind_Ok; [| apply RawMemory_at_Ok; simpl; lia]. cbn [buffer_].
    erewrite bind_Ok; cycle 1.
    { replace n with (S (n - 1)) at 1 by lia.
      eapply move_construct_next; [exact Hm | rewrite length_app, !length_fmap; lia |].
      right. apply Hs. lia. }
    fold t1.
    rewrite (bind_Ok _ _ _ _ _ (begin_Ok _ _ _ _ _ _ _ Ho)). cbn [size_ data_ buffer_].
    erewrite bind_Ok; [| apply end_Ok; [exact Ho | simpl; lia]]. cbn [size_ data_ buffer_].
    erewrite bind_Ok; [| apply ptr_minus_Ok; lia].
    erewrite bind_Ok; [| apply end_Ok; [exact Ho | simpl; lia]]. cbn [size_ data_ buffer_].
    rewrite ptr_add_Ptr, Nat.add_0_l.
    erewrite bind_Ok; cycle 1.
    { unfold std_move_backward.
      erewrite bind_Ok; [| apply ptr_diff_Ok; lia].
      replace (n - 1 - length pre) with (length ys) by lia.
      replace (n - 1) with (length pre + length ys) by lia.
      replace n with (length pre + length ys + 1) by lia.
      exact Hr. }
    rewrite insert_insert_eq.
    rewrite (bind_Ok _ _ _ _ _ (begin_Ok _ _ _ _ _ _ _ Ho)). cbn [size_ data_ buffer_].
    rewrite ptr_add_Ptr, Nat.add_0_l.
    eapply move_assign_local_Ok;
      [by rewrite lookup_insert_eq | by rewrite length_fmap | apply Hs; lia]. }
  rewrite insert_insert_eq.
  rewrite (bind_Ok _ _ _ _ _ (obj_Ok _ _ _ _ _ _ _ Ho)). cbn [size_ data_ buffer_].
  rewrite (bind_Ok _ _ _ _ _ (set_size_Ok _ _ _ _ _ _ _ _ Ho)). cbn [size_ data_ buffer_].
  erewrite bind_Ok; [| apply obj_Ok; by rewrite lookup_insert_eq].
  rewrite RawMemory_plus_Ok by (simpl; lia). cbn [size_ data_ buffer_].
  rewrite sz_add_fits by (eapply fits_le; [|exact Hfit]; lia).
  rewrite Nat.add_1_r.
  do 3 f_equal.
  unfold block_image. rewrite !fmap_app, fmap_cons, !fmap_app, <- !app_assoc. simpl.
  rewrite <- app_assoc. simpl.
  assert (length (pre ++ x :: ys ++ [xl]) = S n) as Hn'.
  { rewrite length_app. simpl. rewrite length_app. simpl. lia. }
  by rewrite Hn'.
Qed.

End EmplaceUnused.

(** ** Inserting at a position of a full vector *)

Section EmplaceRelocated.
Context {T : Type} (E : element_type T).
Implicit Types (m : gmap positive (list (option T)))
  (o : gmap positive Vector) (s : nat → option exn) (xs rest pre : list T).

Lemma RelocatedEmplace_Ok m o t s l this a pre rest x :
  o !! this = Some (mkVector (mkRawMemory (Some a) (length (pre ++ rest)))
                             (length (pre ++ rest))) →
  m !! a = Some (Some <$> (pre ++ rest)) →
  rest ≠ [] →
  fits (2 * length (pre ++ rest)) →
  (∀ j, t ≤ j → s j = None) →
  ∃ t', t ≤ t' ∧
    Vec.RelocatedEmplace E this (Ptr (Some a) (length pre)) x (mkWorld m o t s l)
    = (Ok (Ptr (Some (fresh (dom m))) (length pre)),
       mkWorld (<[fresh (dom m) :=
                    block_image (pre ++ x :: rest) (2 * length (pre ++ rest))]>
                  (delete a m))
               (<[this := mkVector
                            (mkRawMemory (Some (fresh (dom m))) (2 * length (pre ++ rest)))
                            (S (length (pre ++ rest)))]> o)
               t' s l).
Proof.
  intros Ho Hm Hrest Hfit Hs.
  set (n := length (pre ++ rest)) in *.
  assert (n = length pre + length rest) as Hn by (unfold n; by rewrite length_app).
  assert (0 < length rest) as Hr0 by (destruct rest; [done | simpl; lia]).
  set (a' := fresh (dom m)).
  assert (m !! a' = None) as Ha' by apply fresh_block_unused.
  assert (a ≠ a') as Hne by by eapply fresh_block_other.
  set (post := replicate (n - 1) (@None T)).
  rewrite fmap_app in Hm.
  (* first run: the elements before the position *)
  destruct (relocation_Ok E pre
              (<[a' := replicate (length pre) None ++
                       Some x :: replicate (length rest) None ++ post]> m)
              o (S (S t)) s l a 0 [] (Some <$> rest) a' 0 []
              (Some x :: replicate (length rest) None ++ post)
              (replicate (length pre) None))
    as (pre' & t1 & Hlen1 & Ht1 & Hrun1).
  { done. }
  { by rewrite lookup_insert_ne. }
  { done. }
  { by rewrite lookup_insert_eq. }
  { done. }
  { by rewrite length_replicate. }
  { intros j Hj. apply Hs. lia. }
  rewrite insert_insert_eq in Hrun1. simpl in Hrun1.
  (* second run: the elements from the position on *)
  destruct (relocation_Ok E rest
              (<[a := (Some <$> pre') ++ (Some <$> rest)]>
                 (<[a' := (Some <$> pre) ++
                          Some x :: replicate (length rest) None ++ post]> m))
              o t1 s l a (length pre) (Some <$> pre') [] a' (S (length pre))
              ((Some <$> pre) ++ [Some x]) post (replicate (length rest) None))
    as (rest' & t2 & Hlen2 & Ht2 & Hrun2).
  { done. }
  { rewrite lookup_insert_eq. by rewrite app_nil_r. }
  { rewrite length_fmap. lia. }
  { rewrite lookup_insert_ne by done. rewrite lookup_insert_eq. by rewrite <- app_assoc. }
  { rewrite length_app, length_fmap. simpl. lia. }
  { by rewrite length_replicate. }
  { intros j Hj. apply Hs. lia. }
  rewrite insert_pair_again in Hrun2 by done.
  rewrite app_nil_r, <- app_assoc in Hrun2. simpl in Hrun2.
  exists t2. split; [lia|].
  unfold Vec.RelocatedEmplace.
  erewrite bind_Ok; [| by apply end_Ok]. cbn [size_ data_ buffer_].
  destruct (decide (Ptr (Some a) (length pre) = Ptr (Some a) n)) as [[=]|_]; [lia|].
  rewrite (bind_Ok _ _ _ _ _ (begin_Ok _ _ _ _ _ _ _ Ho)). cbn [size_ data_ buffer_].
  erewrite bind_Ok; [| apply ptr_diff_Ok; lia]. rewrite Nat.sub_0_r.
  erewrite bind_Ok; [| by apply end_Ok]. cbn [size_ data_ buffer_].
  erewrite bind_Ok; [| apply ptr_diff_Ok; lia].
  replace (n - length pre) with (length rest) by lia.
  rewrite (bind_Ok _ _ _ _ _ (obj_Ok _ _ _ _ _ _ _ Ho)). cbn [size_ data_ buffer_].
  destruct (decide (n = 0)) as [|_]; [lia|].
  rewrite sz_mul_fits by (eapply fits_le; [|exact Hfit]; lia).
  rewrite !sz_add_fits by (eapply fits_le; [|exact Hfit]; lia).
  erewrite bind_Ok; [| apply RawMemory_ctor_Ok; [lia | apply Hs; lia]].
  fold a'. unfold RawMem.GetAddress. cbn [buffer_ capacity_].
  rewrite !ptr_add_Ptr, !Nat.add_0_l, !Nat.add_1_r.
  replace (replicate (n * 2) None)
    with (replicate (length pre) (@None T) ++
          None :: replicate (length rest) None ++ post).
  2:{ unfold post.
      replace (n * 2) with (length pre + S (length rest + (n - 1))) by lia.
      by rewrite replicate_cut, replicate_add. }
  erewrite bind_Ok; cycle 1.
  { apply unwinding_Ok.
    erewrite bind_Ok; cycle 1.
    { eapply emplace_new_Ok with (pre := replicate (length pre) None);
        [by rewrite lookup_insert_eq | by rewrite length_replicate | apply Hs; lia]. }
    rewrite insert_insert_eq.
    erewrite bind_Ok; cycle 1.
    { apply try_catch_std_Ok.
      destruct (Vec.relocate_by_move E).
      - erewrite bind_Ok; [| exact Hrun1]. exact Hrun2.
      - erewrite bind_Ok; [| exact Hrun1]. exact Hrun2. }
    apply (destroy_n_slots E _ ((Some <$> pre') ++ (Some <$> rest')) _ _ _ _ _ a 0 [] []).
    - rewrite length_app, !length_fmap. lia.
    - by rewrite lookup_insert_eq, app_nil_r.
    - done.
    - right. apply Forall_app. split; apply Forall_fmap, Forall_true; intros v; by eexists. }
  rewrite insert_insert_eq. simpl.
  erewrite bind_Ok; [| by apply set_data_Ok].
  erewrite bind_Ok; [| apply set_size_Ok; by rewrite lookup_insert_eq].
  rewrite insert_insert_eq.
  erewrite bind_Ok; [| apply obj_Ok; by rewrite lookup_insert_eq].
  cbn [size_ data_].
  erewrite bind_Ok; [| apply RawMemory_plus_Ok; simpl; lia].
  erewrite bind_Ok; cycle 1.
  { apply RawMemory_dtor_Ok. by rewrite lookup_insert_eq. }
  rewrite run_ret, app_nil_r, live_objects_raw. simpl.
  rewrite delete_insert_eq, delete_insert_ne by done.
  rewrite Nat.add_0_r.
  replace (n + n) with (n * 2) by lia.
  do 4 f_equal.
  - unfold block_image. rewrite fmap_app, fmap_cons, <- app_assoc. simpl.
    do 3 f_equal. unfold post. f_equal.
    rewrite length_app. simpl. lia.
  - f_equal. lia.
Qed.

End EmplaceRelocated.

(** ** Insertion, whichever branch it takes *)

Section Insertion.
Context {T : Type} (E : element_type T).
Implicit Types (w : world T) (v : Vector) (xs : list T).

Lemma holds_pointee w v xs i x :
  holds w v xs → xs !! i = Some x →
  pointee w (Ptr (buffer_ (data_ v)) i) = Some x.
Proof.
  intros Hh Hx.
  assert (i < length xs) as Hi by by eapply lookup_lt_Some.
  destruct (holds_block w v xs Hh) as (a & Ha & Hm).
  { destruct Hh as (_ & ? & _). lia. }
  unfold pointee. rewrite Ha. simpl. rewrite Hm. simpl.
  by rewrite (block_image_lookup _ _ _ _ Hx).
Qed.

Lemma calm_later (w w' : world T) :
  calm w → schedule w' = schedule w → tick w ≤ tick w' → calm w'.
Proof. intros Hc Hs Ht n Hn. rewrite Hs. apply Hc. lia. Qed.

(** [EmplaceBack] when nothing throws. *)
Lemma EmplaceBack_Ok w this v xs x :
  objs w !! this = Some v → holds w v xs →
  (size_ v = capacity_ (data_ v) → fits (2 * size_ v)) →
  calm w →
  ∃ w' v',
    Vec.EmplaceBack E this x w = (Ok (Ptr (buffer_ (data_ v')) (length xs)), w') ∧
    objs w' !! this = Some v' ∧
    holds w' v' (xs ++ [x]) ∧
    size_ v' = S (size_ v) ∧
    (size_ v = capacity_ (data_ v) → capacity_ (data_ v') = 1 `max` (2 * size_ v)) ∧
    (size_ v < capacity_ (data_ v) → data_ v' = data_ v) ∧
    calm w'.
Proof.
  intros Ho Hh Hfit Hc.
  destruct w as [m o t s l]. cbn [objs] in Ho.
  destruct v as [[buf cap] n].
  destruct Hh as (Hn & Hle & Hfc & Hb). cbn [size_ data_ buffer_ capacity_ mem] in *.
  subst n.
  unfold Vec.EmplaceBack.
  rewrite (bind_Ok _ _ _ _ _ (obj_Ok _ _ _ _ _ _ _ Ho)). cbn [size_ data_].
  unfold Vec.Capacity, RawMem.Capacity. cbn [size_ data_ capacity_].
  destruct (decide (length xs = cap)) as [Heq|Hneq].
  - subst cap. specialize (Hfit eq_refl).
    destruct (RelocatedEmplaceBack_Ok E m o t s l this buf xs x Ho) as (t' & Ht' & Hrun).
    { destruct buf as [a|]; [|done]. destruct Hb as [? Hm]. split; [done|].
      by rewrite Hm, block_image_full. }
    { done. }
    { intros j Hj. by apply Hc. }
    set (cap' := if decide (length xs = 0) then 1 else 2 * length xs) in *.
    assert (cap' = 1 `max` (2 * length xs)) as Hcap'
      by (unfold cap'; destruct (decide (length xs = 0)); lia).
    exists (mkWorld
              (<[fresh (dom m) := block_image (xs ++ [x]) cap']>
                 (match buf with Some a => delete a m | None => m end))
              (<[this := mkVector (mkRawMemory (Some (fresh (dom m))) cap')
                                  (S (length xs))]> o) t' s l),
      (mkVector (mkRawMemory (Some (fresh (dom m))) cap') (S (length xs))).
    cbn [size_ data_ buffer_ capacity_ mem objs].
    split; [exact Hrun|].
    split; [by rewrite lookup_insert_eq|].
    split.
    { unfold holds. cbn [size_ data_ buffer_ capacity_ mem].
      rewrite length_app. simpl length.
      split; [lia|]. split; [lia|]. split.
      - unfold cap'. destruct (decide (length xs = 0)); [by compute | done].
      - split; [lia|]. by rewrite lookup_insert_eq. }
    split; [done|]. split; [done|]. split; [lia|].
    intros j Hj. cbn [tick schedule] in *. apply Hc. cbn [tick]. lia.
  - destruct buf as [a|]; [|lia]. destruct Hb as [Hc0 Hm].
    exists (mkWorld (<[a := block_image (xs ++ [x]) cap]> m)
              (<[this := mkVector (mkRawMemory (Some a) cap) (S (length xs))]> o)
              (S t) s l),
      (mkVector (mkRawMemory (Some a) cap) (S (length xs))).
    cbn [size_ data_ buffer_ capacity_ mem objs].
    split.
    { apply UnusedEmplaceBack_Ok; [exact Ho | exact Hm | lia | done | by apply Hc]. }
    split; [by rewrite lookup_insert_eq|].
    split.
    { unfold holds. cbn [size_ data_ buffer_ capacity_ mem].
      rewrite length_app. simpl length.
      split; [lia|]. split; [lia|]. split; [done|].
      split; [done|]. by rewrite lookup_insert_eq. }
    split; [done|]. split; [lia|]. split; [done|].
    intros j Hj. cbn [tick schedule] in *. apply Hc. cbn [tick]. lia.
Qed.

(** [Emplace] at position [i], [end()] included, when nothing throws. *)
Lemma Emplace_Ok w this v xs x i :
  objs w !! this = Some v → holds w v xs →
  (size_ v = capacity_ (data_ v) → fits (2 * size_ v)) →
  calm w → i ≤ length xs →
  ∃ w' v',
    Vec.Emplace E this (Ptr (buffer_ (data_ v)) i) x w
    = (Ok (Ptr (buffer_ (data_ v')) i), w') ∧
    objs w' !! this = Some v' ∧
    holds w' v' (take i xs ++ x :: drop i xs) ∧
    size_ v' = S (size_ v) ∧
    (size_ v = capacity_ (data_ v) → capacity_ (data_ v') = 1 `max` (2 * size_ v)) ∧
    (size_ v < capacity_ (data_ v) → data_ v' = data_ v) ∧
    calm w'.
Proof.
  intros Ho Hh Hfit Hc Hi.
  destruct w as [m o t s l]. cbn [objs] in Ho.
  destruct v as [[buf cap] n].
  destruct Hh as (Hn & Hle & Hfc & Hb). cbn [size_ data_ buffer_ capacity_ mem] in *.
  subst n.
  assert (length (take i xs ++ x :: drop i xs) = S (length xs)) as Hlen.
  { rewrite length_app, length_take. simpl. rewrite length_drop. lia. }
  unfold Vec.Emplace.
  rewrite (bind_Ok _ _ _ _ _ (obj_Ok _ _ _ _ _ _ _ Ho)). cbn [size_ data_].
  unfold Vec.Capacity, RawMem.Capacity. cbn [size_ data_ capacity_].
  destruct (decide (length xs = cap)) as [Heq|Hneq].
  - subst cap. specialize (Hfit eq_refl).
    set (cap' := if decide (length xs = 0) then 1 else 2 * length xs) in *.
    assert (cap' = 1 `max` (2 * length xs)) as Hcap'
      by (unfold cap'; destruct (decide (length xs = 0)); lia).
    assert (fits cap') as Hfc'
      by (unfold cap'; destruct (decide (length xs = 0)); [by compute | done]).
    destruct (decide (i = length xs)) as [->|Hlt].
    + (* at end(): the same as appending *)
      destruct (RelocatedEmplaceBack_Ok E m o t s l this buf xs x Ho) as (t' & Ht' & Hrun).
      { destruct buf as [a|]; [|done]. destruct Hb as [? Hm]. split; [done|].
        by rewrite Hm, block_image_full. }
      { done. }
      { intros j Hj. by apply Hc. }
      fold cap' in Hrun.
      exists (mkWorld
                (<[fresh (dom m) := block_image (xs ++ [x]) cap']>
                   (match buf with Some a => delete a m | None => m end))
                (<[this := mkVector (mkRawMemory (Some (fresh (dom m))) cap')
                                    (S (length xs))]> o) t' s l),
        (mkVector (mkRawMemory (Some (fresh (dom m))) cap') (S (length xs))).
      cbn [size_ data_ buffer_ capacity_ mem objs].
      rewrite firstn_all, drop_all.
      split.
      { unfold Vec.RelocatedEmplace.
        erewrite bind_Ok; [| by apply end_Ok]. cbn [size_ data_ buffer_].
        destruct (decide (Ptr buf (length xs) = Ptr buf (length xs))) as [_|]; [|done].
        rewrite (bind_Ok _ _ _ _ _ Hrun).
        erewrite bind_Ok; [| apply end_Ok; [by rewrite lookup_insert_eq | simpl; lia]].
        cbn [size_ data_ buffer_].
        rewrite ptr_minus_Ok by lia. simpl. by rewrite Nat.sub_0_r. }
      split; [by rewrite lookup_insert_eq|].
      split.
      { unfold holds. cbn [size_ data_ buffer_ capacity_ mem].
        rewrite length_app. simpl length.
        split; [lia|]. split; [lia|]. split; [done|].
        split; [lia|]. by rewrite lookup_insert_eq. }
      split; [done|]. split; [done|]. split; [lia|].
      intros j Hj. cbn [tick schedule] in *. apply Hc. cbn [tick]. lia.
    + destruct buf as [a|]; [|lia]. destruct Hb as [Hn0 Hm].
      rewrite block_image_full in Hm.
      pose proof (take_drop i xs) as Hsplit.
      assert (length (take i xs) = i) as Hlt' by (rewrite length_take; lia).
      destruct (RelocatedEmplace_Ok E m o t s l this a (take i xs) (drop i xs) x)
        as (t' & Ht' & Hrun).
      { by rewrite Hsplit. }
      { by rewrite Hsplit. }
      { intros Hd. apply (f_equal length) in Hd. rewrite length_drop in Hd.
        simpl in Hd. lia. }
      { by rewrite Hsplit. }
      { intros j Hj. by apply Hc. }
      rewrite Hsplit, Hlt' in Hrun.
      exists (mkWorld
                (<[fresh (dom m) := block_image (take i xs ++ x :: drop i xs)
                                                (2 * length xs)]> (delete a m))
                (<[this := mkVector (mkRawMemory (Some (fresh (dom m))) (2 * length xs))
                                    (S (length xs))]> o) t' s l),
        (mkVector (mkRawMemory (Some (fresh (dom m))) (2 * length xs)) (S (length xs))).
      cbn [size_ data_ buffer_ capacity_ mem objs].
      split; [exact Hrun|].
      split; [by rewrite lookup_insert_eq|].
      split.
      { unfold holds. cbn [size_ data_ buffer_ capacity_ mem].
        rewrite Hlen.
        split; [lia|]. split; [lia|]. split; [done|].
        split; [lia|]. by rewrite lookup_insert_eq. }
      split; [done|]. split; [lia|]. split; [lia|].
      intros j Hj. cbn [tick schedule] in *. apply Hc. cbn [tick]. lia.
  - destruct buf as [a|]; [|lia]. destruct Hb as [Hc0 Hm].
    destruct (decide (i = length xs)) as [->|Hlt].
    + exists (mkWorld (<[a := block_image (xs ++ [x]) cap]> m)
                (<[this := mkVector (mkRawMemory (Some a) cap) (S (length xs))]> o)
                (S t) s l),
        (mkVector (mkRawMemory (Some a) cap) (S (length xs))).
      cbn [size_ data_ buffer_ capacity_ mem objs].
      rewrite firstn_all, drop_all.
      split.
      { unfold Vec.UnusedEmplace.
        erewrite bind_Ok; [| by apply end_Ok]. cbn [size_ data_ buffer_].
        destruct (decide (Ptr (Some a) (length xs) = Ptr (Some a) (length xs)))
          as [_|]; [|done].
        erewrite bind_Ok; cycle 1.
        { apply UnusedEmplaceBack_Ok; [exact Ho | exact Hm | lia | done | by apply Hc]. }
        erewrite bind_Ok; [| apply end_Ok; [by rewrite lookup_insert_eq | simpl; lia]].
        cbn [size_ data_ buffer_].
        rewrite ptr_minus_Ok by lia. simpl. by rewrite Nat.sub_0_r. }
      split; [by rewrite lookup_insert_eq|].
      split.
      { unfold holds. cbn [size_ data_ buffer_ capacity_ mem].
        rewrite length_app. simpl length.
        split; [lia|]. split; [lia|]. split; [done|].
        split; [done|]. by rewrite lookup_insert_eq. }
      split; [done|]. split; [lia|]. split; [done|].
      intros j Hj. cbn [tick schedule] in *. apply Hc. cbn [tick]. lia.
    + pose proof (take_drop i xs) as Hsplit.
      assert (length (take i xs) = i) as Hlt' by (rewrite length_take; lia).
      destruct (drop i xs) as [|d ds _] eqn:Hd using rev_ind.
      { apply (f_equal length) in Hd. rewrite length_drop in Hd. simpl in Hd. lia. }
      destruct (UnusedEmplace_Ok E m o t s l this a cap (take i xs) ds d x)
        as (t' & Ht' & Hrun).
      { by rewrite Hsplit. }
      { by rewrite Hsplit. }
      { rewrite Hsplit. lia. }
      { done. }
      { intros j Hj. by apply Hc. }
      rewrite Hsplit, Hlt' in Hrun.
      exists (mkWorld (<[a := block_image (take i xs ++ x :: ds ++ [d]) cap]> m)
                (<[this := mkVector (mkRawMemory (Some a) cap) (S (length xs))]> o)
                t' s l),
        (mkVector (mkRawMemory (Some a) cap) (S (length xs))).
      cbn [size_ data_ buffer_ capacity_ mem objs].
      split; [exact Hrun|].
      split; [by rewrite lookup_insert_eq|].
      split.
      { unfold holds. cbn [size_ data_ buffer_ capacity_ mem].
        rewrite Hlen.
        split; [lia|]. split; [lia|]. split; [done|].
        split; [done|]. by rewrite lookup_insert_eq. }
      split; [done|]. split; [lia|]. split; [done|].
      intros j Hj. cbn [tick schedule] in *. apply Hc. cbn [tick]. lia.
Qed.

End Insertion.

(** * The claims about insertion and removal *)

Section InsertionClaims.
Context {T : Type} (E : element_type T).
Implicit Types (w : world T) (v : Vector) (xs : list T).

(** C6. A single-element insertion ([EmplaceBack], [PushBack], [Emplace],
    [Insert], at any position from [begin()] to [end()]) into a vector with
    [size == capacity] succeeds, when nothing throws, with a capacity of
    exactly [max(1, 2 * size_before)]; into a vector with [size < capacity]
    it leaves the block and the capacity as they were. The doubled size is
    assumed to fit [size_t]. *)
Theorem insertion_growth_policy w this v xs x i :
  objs w !! this = Some v → holds w v xs →
  (size_ v = capacity_ (data_ v) → fits (2 * size_ v)) →
  calm w → i ≤ length xs →
  (∃ r w' v', Vec.EmplaceBack E this x w = (Ok r, w') ∧
              objs w' !! this = Some v' ∧ growth_policy v v') ∧
  (∃ w' v', Vec.PushBack E this x w = (Ok tt, w') ∧
            objs w' !! this = Some v' ∧ growth_policy v v') ∧
  (∃ r w' v', Vec.Emplace E this (Ptr (buffer_ (data_ v)) i) x w = (Ok r, w') ∧
              objs w' !! this = Some v' ∧ growth_policy v v') ∧
  (∃ r w' v', Vec.Insert E this (Ptr (buffer_ (data_ v)) i) x w = (Ok r, w') ∧
              objs w' !! this = Some v' ∧ growth_policy v v').
Proof.
  intros Ho Hh Hfit Hc Hi.
  destruct (EmplaceBack_Ok E w this v xs x Ho Hh Hfit Hc)
    as (w1 & v1 & Hrun1 & Ho1 & _ & _ & Hg1 & Hk1 & _).
  destruct (Emplace_Ok E w this v xs x i Ho Hh Hfit Hc Hi)
    as (w2 & v2 & Hrun2 & Ho2 & _ & _ & Hg2 & Hk2 & _).
  assert (growth_policy v v1) as G1 by (split; [exact Hg1 | exact Hk1]).
  assert (growth_policy v v2) as G2 by (split; [exact Hg2 | exact Hk2]).
  split; [by eexists _, w1, v1|].
  split.
  { exists w1, v1. split; [|done]. unfold Vec.PushBack. by rewrite (bind_Ok _ _ _ _ _ Hrun1). }
  split; by eexists _, w2, v2.
Qed.

(** C10. After a successful [EmplaceBack] the reference returned is the
    element at index [Size() - 1], which holds the value appended
    ([PushBack] appends the same way and returns nothing); after a
    successful [Emplace] or [Insert] at position [i] (from [begin()] to
    [end()]) the iterator returned is [begin() + i] of the vector as it
    now is, and the element there is the one inserted. This holds whether
    the vector had room or had to relocate. *)
Theorem insertion_returns_the_new_element w this v xs x i :
  objs w !! this = Some v → holds w v xs →
  (size_ v = capacity_ (data_ v) → fits (2 * size_ v)) →
  calm w → i ≤ length xs →
  (∃ r w' v', Vec.EmplaceBack E this x w = (Ok r, w') ∧
              objs w' !! this = Some v' ∧
              r = Ptr (buffer_ (data_ v')) (Vec.Size v' - 1) ∧
              pointee w' r = Some x ∧
              elements w' v' = Some (xs ++ [x])) ∧
  (∃ w' v', Vec.PushBack E this x w = (Ok tt, w') ∧
            objs w' !! this = Some v' ∧
            pointee w' (Ptr (buffer_ (data_ v')) (Vec.Size v' - 1)) = Some x ∧
            elements w' v' = Some (xs ++ [x])) ∧
  (∃ r w' v', Vec.Emplace E this (Ptr (buffer_ (data_ v)) i) x w = (Ok r, w') ∧
              objs w' !! this = Some v' ∧
              r = Ptr (buffer_ (data_ v')) i ∧
              pointee w' r = Some x ∧
              elements w' v' = Some (take i xs ++ x :: drop i xs)) ∧
  (∃ r w' v', Vec.Insert E this (Ptr (buffer_ (data_ v)) i) x w = (Ok r, w') ∧
              objs w' !! this = Some v' ∧
              r = Ptr (buffer_ (data_ v')) i ∧
              pointee w' r = Some x ∧
              elements w' v' = Some (take i xs ++ x :: drop i xs)).
Proof.
  intros Ho Hh Hfit Hc Hi.
  destruct (EmplaceBack_Ok E w this v xs x Ho Hh Hfit Hc)
    as (w1 & v1 & Hrun1 & Ho1 & Hh1 & Hs1 & _).
  destruct (Emplace_Ok E w this v xs x i Ho Hh Hfit Hc Hi)
    as (w2 & v2 & Hrun2 & Ho2 & Hh2 & Hs2 & _).
  assert (Vec.Size v1 - 1 = length xs) as Hlast.
  { unfold Vec.Size. rewrite Hs1. destruct Hh as [-> _]. lia. }
  assert (pointee w1 (Ptr (buffer_ (data_ v1)) (length xs)) = Some x) as Hp1.
  { apply (holds_pointee w1 v1 (xs ++ [x])); [done|].
    by apply list_lookup_middle. }
  assert (pointee w2 (Ptr (buffer_ (data_ v2)) i) = Some x) as Hp2.
  { apply (holds_pointee w2 v2 (take i xs ++ x :: drop i xs)); [done|].
    apply list_lookup_middle. rewrite length_take. lia. }
  split.
  { eexists _, w1, v1. split; [exact Hrun1|]. rewrite Hlast.
    repeat split; try done. by apply holds_elements. }
  split.
  { exists w1, v1. split.
    { unfold Vec.PushBack. by rewrite (bind_Ok _ _ _ _ _ Hrun1). }
    rewrite Hlast. repeat split; try done. by apply holds_elements. }
  split.
  { eexists _, w2, v2. split; [exact Hrun2|].
    repeat split; try done. by apply holds_elements. }
  { eexists _, w2, v2. split; [exact Hrun2|].
    repeat split; try done. by apply holds_elements. }
Qed.

(** C9. With [size < capacity], [EmplaceBack] constructs the value in
    slot [size] of the vector's own block and the size is one more
    afterwards; when the element constructor throws, the exception leaves
    the function with the vector's size, capacity and elements (and the
    whole heap) as they were. *)
Theorem EmplaceBack_with_room w this v xs x :
  objs w !! this = Some v → holds w v xs →
  size_ v < capacity_ (data_ v) →
  (schedule w (tick w) = None →
   ∃ w', Vec.EmplaceBack E this x w = (Ok (Ptr (buffer_ (data_ v)) (size_ v)), w') ∧
         pointee w' (Ptr (buffer_ (data_ v)) (size_ v)) = Some x ∧
         objs w' !! this = Some (mkVector (data_ v) (S (size_ v))) ∧
         elements w' (mkVector (data_ v) (S (size_ v))) = Some (xs ++ [x])) ∧
  (∀ e, schedule w (tick w) = Some e →
   ∃ w', Vec.EmplaceBack E this x w = (Throw e, w') ∧
         objs w' = objs w ∧ mem w' = mem w ∧ elements w' v = Some xs).
Proof.
  intros Ho Hh Hlt.
  pose proof Hh as (Hn & Hle & Hfc & Hb).
  destruct w as [m o t s l]. destruct v as [[buf cap] n].
  cbn [size_ data_ buffer_ capacity_ mem objs tick schedule] in *. subst n.
  destruct buf as [a|]; [|lia]. destruct Hb as [_ Hm].
  assert (Vec.EmplaceBack E this x (mkWorld m o t s l)
          = Vec.UnusedEmplaceBack this x (mkWorld m o t s l)) as Hdis.
  { unfold Vec.EmplaceBack.
    rewrite (bind_Ok _ _ _ _ _ (obj_Ok _ _ _ _ _ _ _ Ho)).
    unfold Vec.Capacity, RawMem.Capacity. cbn [size_ data_ capacity_].
    destruct (decide (length xs = cap)); [lia | done]. }
  split.
  - intros Hs. eexists. split.
    { rewrite Hdis. by apply UnusedEmplaceBack_Ok. }
    assert (holds (mkWorld (<[a := block_image (xs ++ [x]) cap]> m)
              (<[this := mkVector (mkRawMemory (Some a) cap) (S (length xs))]> o)
              (S t) s l)
              (mkVector (mkRawMemory (Some a) cap) (S (length xs))) (xs ++ [x])) as Hh'.
    { unfold holds. cbn [size_ data_ buffer_ capacity_ mem].
      rewrite length_app. simpl length.
      split; [lia|]. split; [lia|]. split; [done|].
      split; [lia|]. by rewrite lookup_insert_eq. }
    split.
    { apply (holds_pointee _ _ _ _ _ Hh'). by apply list_lookup_middle. }
    cbn [objs]. split; [by rewrite lookup_insert_eq|].
    by apply holds_elements.
  - intros e He. eexists. split.
    { rewrite Hdis. eapply UnusedEmplaceBack_Throw; [exact Ho | simpl; lia | done]. }
    cbn [objs mem]. repeat split.
    apply holds_elements. unfold holds. cbn [size_ data_ buffer_ capacity_ mem].
    repeat split; try done. lia.
Qed.

(** C8. [Erase] at a valid position [i] of a vector of size [n >= 1],
    when no move assignment throws, leaves a vector of size [n - 1] in the
    same block: the elements before [i] are as they were, those after [i]
    are one slot to the left in the same order. The iterator returned is
    [begin() + i]: it refers to the element that followed the erased one,
    and it is [end()] when the erased element was the last. *)
Theorem Erase_shifts_left w this v xs i :
  objs w !! this = Some v → holds w v xs → i < length xs → calm w →
  ∃ w' v',
    Vec.Erase E this (Ptr (buffer_ (data_ v)) i) w = (Ok (Ptr (buffer_ (data_ v')) i), w') ∧
    objs w' !! this = Some v' ∧
    data_ v' = data_ v ∧
    Vec.Size v' = length xs - 1 ∧
    elements w' v' = Some (take i xs ++ drop (S i) xs) ∧
    (∀ j, j < i → (take i xs ++ drop (S i) xs) !! j = xs !! j) ∧
    (∀ j, i ≤ j → (take i xs ++ drop (S i) xs) !! j = xs !! S j) ∧
    pointee w' (Ptr (buffer_ (data_ v')) i) = xs !! S i ∧
    (S i = length xs → Vec.end_ this w' = (Ok (Ptr (buffer_ (data_ v')) i), w')).
Proof.
  intros Ho Hh Hi Hc.
  pose proof Hh as (Hn & Hle & Hfc & Hb).
  destruct w as [m o t s l]. destruct v as [[buf cap] n].
  cbn [size_ data_ buffer_ capacity_ mem objs tick schedule] in *. subst n.
  destruct buf as [a|]; [|lia]. destruct Hb as [_ Hm].
  destruct (Erase_Ok E m o t s l this a cap xs i Ho Hm Hle Hfc Hi) as (t' & Ht' & Hrun).
  { intros j Hj. by apply Hc. }
  set (ys := take i xs ++ drop (S i) xs) in *.
  assert (length ys = length xs - 1) as Hlen.
  { unfold ys. rewrite length_app, length_take, length_drop. lia. }
  assert (∀ j, j < i → ys !! j = xs !! j) as Hbefore.
  { intros j Hj. unfold ys. rewrite lookup_app_l by (rewrite length_take; lia).
    by rewrite lookup_take_lt. }
  assert (∀ j, i ≤ j → ys !! j = xs !! S j) as Hafter.
  { intros j Hj. unfold ys. rewrite lookup_app_r by (rewrite length_take; lia).
    rewrite length_take, lookup_drop. f_equal. lia. }
  exists (mkWorld (<[a := block_image ys cap]> m)
            (<[this := mkVector (mkRawMemory (Some a) cap) (length xs - 1)]> o) t' s l),
    (mkVector (mkRawMemory (Some a) cap) (length xs - 1)).
  cbn [size_ data_ buffer_ capacity_ mem objs].
  assert (holds (mkWorld (<[a := block_image ys cap]> m)
            (<[this := mkVector (mkRawMemory (Some a) cap) (length xs - 1)]> o) t' s l)
            (mkVector (mkRawMemory (Some a) cap) (length xs - 1)) ys) as Hh'.
  { unfold holds. cbn [size_ data_ buffer_ capacity_ mem].
    split; [lia|]. split; [lia|]. split; [done|].
    split; [lia|]. by rewrite lookup_insert_eq. }
  split; [exact Hrun|].
  split; [by rewrite lookup_insert_eq|].
  split; [done|]. split; [done|].
  split; [by apply holds_elements|].
  split; [exact Hbefore|]. split; [exact Hafter|].
  split.
  - rewrite <- (Hafter i) by lia.
    unfold pointee. simpl. rewrite lookup_insert_eq. simpl.
    destruct (ys !! i) as [y|] eqn:Hy.
    + by rewrite (block_image_lookup _ _ _ _ Hy).
    + apply lookup_ge_None in Hy. unfold block_image.
      rewrite lookup_app_r by (rewrite length_fmap; lia).
      rewrite length_fmap. rewrite lookup_replicate_2 by lia. done.
  - intros Hlast. erewrite end_Ok; [| by rewrite lookup_insert_eq | simpl; lia].
    cbn [size_ data_ buffer_]. do 3 f_equal. lia.
Qed.

End InsertionClaims.

(** * The claim about a relocation that fails *)

Section RelocationFailure.
Context {T : Type} (E : element_type T).
Implicit Types (w : world T) (v : Vector) (xs : list T).

(** C2, as the code has it. The vector is full, the relocation of an
    element can throw ([T]'s move constructor is not [noexcept]) and [T] is
    trivially destructible; allocation and the construction of the new
    element succeed and the relocation of element [k] (from 0) throws an
    exception derived from [std::exception]. Then the exception leaves
    [EmplaceBack], the new block holds no object when it is released, and
    the vector keeps its buffer, size and capacity. When the elements are
    relocated by copy ([T] is copy-constructible) the elements and the whole
    heap are as before the call; when they are relocated by move ([T] is
    move-only) the elements before [k] are left moved-from and every other
    block is as before. *)
Theorem EmplaceBack_failed_relocation w this v xs x k e :
  objs w !! this = Some v → holds w v xs →
  size_ v = capacity_ (data_ v) → fits (2 * size_ v) →
  is_nothrow_move_constructible E = false →
  is_trivially_destructible E = true →
  is_std_exception e = true →
  k < length xs →
  throws_after w (2 + k) e →
  ∃ w', Vec.EmplaceBack E this x w = (Throw e, w') ∧
        objs w' = objs w ∧ leaked w' = leaked w ∧
        if Vec.relocate_by_move E
        then elements w' v = Some ((moved_from E <$> take k xs) ++ drop k xs) ∧
             ∀ b, buffer_ (data_ v) ≠ Some b → mem w' !! b = mem w !! b
        else elements w' v = Some xs ∧ mem w' = mem w.
Proof.
  intros Ho Hh Hfull Hfit Hnothrow Htriv Hstd Hk [Hs He].
  pose proof Hh as (Hn & Hle & Hfc & Hb).
  destruct w as [m o t s l]. destruct v as [[buf cap] n].
  cbn [size_ data_ buffer_ capacity_ mem objs tick schedule leaked] in *.
  subst n. subst cap.
  destruct buf as [a|]; [|lia]. destruct Hb as [_ Hm].
  rewrite block_image_full in Hm.
  assert (∀ r, Vec.RelocatedEmplaceBack E this x (mkWorld m o t s l) = r →
               Vec.EmplaceBack E this x (mkWorld m o t s l) = r) as Hcall.
  { intros r <-. unfold Vec.EmplaceBack.
    rewrite (bind_Ok _ _ _ _ _ (obj_Ok _ _ _ _ _ _ _ Ho)).
    unfold Vec.Capacity, RawMem.Capacity. cbn [size_ data_ capacity_].
    by destruct (decide (length xs = length xs)). }
  destruct (Vec.relocate_by_move E) eqn:Hrel.
  - set (moved := (moved_from E <$> take k xs) ++ drop k xs).
    exists (mkWorld (<[a := Some <$> moved]> m) o (t + (3 + k)) s l).
    cbn [mem objs leaked]. split; [|repeat split].
    + apply Hcall. unfold moved. rewrite fmap_app.
      by apply RelocatedEmplaceBack_move_Throw.
    + assert (length moved = length xs) as Hlen.
      { unfold moved. rewrite length_app, length_fmap, length_take, length_drop. lia. }
      apply holds_elements. unfold holds.
      cbn [size_ data_ buffer_ capacity_ mem].
      repeat split; try done; try lia.
      rewrite lookup_insert_eq, <- Hlen. by rewrite block_image_full.
    + intros b Hb. rewrite lookup_insert_ne; [done|]. by intros ->.
  - exists (mkWorld m o (t + (3 + k)) s l).
    cbn [mem objs leaked]. split; [|repeat split].
    + apply Hcall.
      rewrite (RelocatedEmplaceBack_copy_Throw E m o t s l this a xs x k e)
        by done.
      by rewrite Hstd, Htriv.
    + apply holds_elements. unfold holds. cbn [size_ data_ buffer_ capacity_ mem].
      repeat split; try done; try lia. by rewrite block_image_full.
Qed.

End RelocationFailure.

(** C2 as stated fails for a move-only element type whose move constructor
    throws: the vector [5; 6] is full, the second move throws, and the first
    element is left moved-from. *)
Lemma EmplaceBack_failed_relocation_by_move :
  let w := Sample.one_vector [5; 6] (Sample.only_at 3 (std_exception 0)) in
  let v := mkVector (mkRawMemory (Some 1%positive) 2) 2 in
  objs w !! 1%positive = Some v ∧
  Vec.Size v = Vec.Capacity v ∧
  elements w v = Some [5; 6] ∧
  ∃ w', Vec.EmplaceBack Sample.MoveOnly 1%positive 7 w = (Throw (std_exception 0), w') ∧
        objs w' !! 1%positive = Some v ∧
        elements w' v = Some [0; 6].
Proof.
  intros w v. split; [reflexivity|]. split; [reflexivity|]. split; [reflexivity|].
  eexists. split; [vm_compute; reflexivity|]. split; reflexivity.
Qed.

(** ** Copies, swaps and the end of a vector *)

Section CopySwapDestroy.
Context {T : Type} (E : element_type T).
Implicit Types (m : gmap positive (list (option T)))
  (o : gmap positive Vector) (s : nat → option exn) (xs ys : list T).

Lemma del_obj_Ok m o t s l this :
  Vec.del_obj this (mkWorld m o t s l) = (Ok tt, mkWorld m (delete this o) t s l).
Proof. reflexivity. Qed.

(** The copy constructor on a non-empty source. *)
Lemma ctor_copy_Ok m o t s l this other ar capr ys :
  o !! other = Some (mkVector (mkRawMemory (Some ar) capr) (length ys)) →
  o !! this = None →
  m !! ar = Some (block_image ys capr) →
  length ys ≠ 0 →
  (∀ j, j < 1 + length ys → s (t + j) = None) →
  Vec.ctor_copy E this other (mkWorld m o t s l)
  = (Ok tt,
     mkWorld (<[fresh (dom m) := Some <$> ys]> m)
             (<[this := mkVector (mkRawMemory (Some (fresh (dom m))) (length ys))
                                 (length ys)]> o)
             (t + (1 + length ys)) s l).
Proof.
  intros Hoo Hot Hm Hn Hs.
  set (a' := fresh (dom m)).
  assert (m !! a' = None) as Ha' by apply fresh_block_unused.
  assert (ar ≠ a') as Hne by by eapply fresh_block_other.
  assert (other ≠ this) as Hno by (intros ->; by rewrite Hot in Hoo).
  unfold Vec.ctor_copy.
  rewrite (bind_Ok _ _ _ _ _ (obj_Ok _ _ _ _ _ _ _ Hoo)).
  unfold Vec.Size. cbn [size_ data_].
  erewrite bind_Ok; cycle 1.
  { apply RawMemory_ctor_Ok; [done|]. specialize (Hs 0 ltac:(lia)).
    by rewrite Nat.add_0_r in Hs. }
  fold a'.
  rewrite (bind_Ok _ _ _ _ _ (new_obj_Ok _ _ _ _ _ _ _ Hot)).
  apply unwinding_Ok.
  erewrite bind_Ok; [| apply obj_Ok; by rewrite lookup_insert_eq].
  erewrite bind_Ok; [| apply obj_Ok; by rewrite lookup_insert_ne].
  unfold RawMem.GetAddress. cbn [size_ data_ buffer_].
  erewrite (uninitialized_copy_n_Ok E ys _ _ _ _ _ ar 0 _ a' 0 [] []
              (replicate (length ys) None)).
  - rewrite insert_insert_eq, app_nil_r. simpl. do 3 f_equal. lia.
  - done.
  - by rewrite lookup_insert_ne.
  - intros j v Hj. rewrite Nat.add_0_l. by apply block_image_lookup.
  - by rewrite lookup_insert_eq, app_nil_r.
  - done.
  - by rewrite length_replicate.
  - intros j Hj. specialize (Hs (S j) ltac:(lia)).
    by replace (S t + j) with (t + S j) by lia.
Qed.

(** The copy of element [k] throws: nothing is left of the new vector. *)
Lemma ctor_copy_Throw m o t s l this other ar capr ys k e :
  o !! other = Some (mkVector (mkRawMemory (Some ar) capr) (length ys)) →
  o !! this = None →
  m !! ar = Some (block_image ys capr) →
  k < length ys →
  (∀ j, j < 1 + k → s (t + j) = None) → s (t + (1 + k)) = Some e →
  Vec.ctor_copy E this other (mkWorld m o t s l)
  = (Throw e, mkWorld m o (t + (2 + k)) s l).
Proof.
  intros Hoo Hot Hm Hk Hs He.
  set (a' := fresh (dom m)).
  assert (m !! a' = None) as Ha' by apply fresh_block_unused.
  assert (ar ≠ a') as Hne by by eapply fresh_block_other.
  assert (other ≠ this) as Hno by (intros ->; by rewrite Hot in Hoo).
  unfold Vec.ctor_copy.
  rewrite (bind_Ok _ _ _ _ _ (obj_Ok _ _ _ _ _ _ _ Hoo)).
  unfold Vec.Size. cbn [size_ data_].
  erewrite bind_Ok; cycle 1.
  { apply RawMemory_ctor_Ok; [lia|]. specialize (Hs 0 ltac:(lia)).
    by rewrite Nat.add_0_r in Hs. }
  fold a'.
  rewrite (bind_Ok _ _ _ _ _ (new_obj_Ok _ _ _ _ _ _ _ Hot)).
  eapply unwinding_Throw.
  - erewrite bind_Ok; [| apply obj_Ok; by rewrite lookup_insert_eq].
    erewrite bind_Ok; [| apply obj_Ok; by rewrite lookup_insert_ne].
    unfold RawMem.GetAddress. cbn [size_ data_ buffer_].
    apply (uninitialized_copy_n_Throw E ys k e _ _ _ _ _ ar 0 (block_image ys capr) a' 0
             [] [] (replicate (length ys) None)).
    + done.
    + by rewrite lookup_insert_ne.
    + intros j v Hj. rewrite Nat.add_0_l. by apply block_image_lookup.
    + by rewrite lookup_insert_eq, app_nil_r.
    + done.
    + by rewrite length_replicate.
    + done.
    + intros j Hj. specialize (Hs (S j) ltac:(lia)).
      by replace (S t + j) with (t + S j) by lia.
    + by replace (S t + k) with (t + (1 + k)) by lia.
  - unfold Vec.destroy_members.
    erewrite bind_Ok; [| apply obj_Ok; by rewrite lookup_insert_eq].
    rewrite (bind_Ok _ _ _ _ _ (del_obj_Ok _ _ _ _ _ _)). cbn [data_].
    erewrite RawMemory_dtor_Ok; [| by rewrite lookup_insert_eq].
    rewrite insert_insert_eq, !delete_insert_eq, !delete_id by done.
    rewrite app_nil_r. simpl.
    rewrite drop_replicate, <- replicate_add, live_objects_raw. simpl.
    rewrite Nat.add_0_r. do 2 f_equal. lia.
Qed.

Lemma Swap_Ok m o t s l this other vt vo :
  this ≠ other → o !! this = Some vt → o !! other = Some vo →
  Vec.Swap this other (mkWorld m o t s l)
  = (Ok tt, mkWorld m (<[other := vt]> (<[this := vo]> o)) t s l).
Proof.
  intros Hne Ht Ho. unfold Vec.Swap.
  rewrite (bind_Ok _ _ _ _ _ (obj_Ok _ _ _ _ _ _ _ Ht)).
  rewrite (bind_Ok _ _ _ _ _ (obj_Ok _ _ _ _ _ _ _ Ho)).
  destruct (decide (this = other)); [done|].
  destruct vt as [[bt ct] nt], vo as [[bo co] no].
  unfold RawMem.Swap. cbn [get_this get_rhs set_this set_rhs buffer_ capacity_ data_ size_].
  rewrite (bind_Ok _ _ _ _ _ (set_data_Ok _ _ _ _ _ _ _ _ Ht)).
  erewrite bind_Ok; [| apply set_data_Ok; by rewrite lookup_insert_ne].
  erewrite bind_Ok; [| apply obj_Ok; rewrite lookup_insert_ne by done;
                       by rewrite lookup_insert_eq].
  erewrite bind_Ok; [| apply obj_Ok; by rewrite lookup_insert_eq].
  erewrite bind_Ok; [| apply set_size_Ok; rewrite lookup_insert_ne by done;
                       by rewrite lookup_insert_eq].
  erewrite set_size_Ok; [| rewrite lookup_insert_ne by done; by rewrite lookup_insert_eq].
  cbn [data_ size_].
  do 2 f_equal.
  apply insert_pair_again. by intros ->.
Qed.

(** The destructor of a vector holding [xs]. *)
Lemma dtor_Ok m o t s l this buf cap xs :
  o !! this = Some (mkVector (mkRawMemory buf cap) (length xs)) →
  length xs ≤ cap →
  match buf with
  | Some a => m !! a = Some (block_image xs cap)
  | None => xs = []
  end →
  Vec.dtor E this (mkWorld m o t s l)
  = (Ok tt, mkWorld (match buf with Some a => delete a m | None => m end)
                    (delete this o) t s l).
Proof.
  intros Ho Hle Hb. unfold Vec.dtor.
  rewrite (bind_Ok _ _ _ _ _ (obj_Ok _ _ _ _ _ _ _ Ho)).
  unfold RawMem.GetAddress. cbn [size_ data_ buffer_].
  destruct buf as [a|].
  - destruct (decide (Ptr (Some a) 0 ≠ nullptr)) as [_|Hn]; [|by destruct Hn].
    erewrite bind_Ok; cycle 1.
    { apply (destroy_n_slots E _ (Some <$> xs) _ _ _ _ _ a 0 []
               (replicate (cap - length xs) None)).
      - by rewrite length_fmap.
      - exact Hb.
      - done.
      - right. apply Forall_fmap, Forall_true. intros v. by eexists. }
    unfold Vec.destroy_members.
    rewrite (bind_Ok _ _ _ _ _ (obj_Ok _ _ _ _ _ _ _ Ho)).
    rewrite (bind_Ok _ _ _ _ _ (del_obj_Ok _ _ _ _ _ _)). cbn [data_].
    erewrite RawMemory_dtor_Ok; [| by rewrite lookup_insert_eq].
    rewrite delete_insert_eq. simpl.
    rewrite <- replicate_add, live_objects_raw. simpl. by rewrite Nat.add_0_r.
  - destruct (decide (Ptr None 0 ≠ nullptr)) as [Hn|_]; [by destruct Hn|].
    rewrite (bind_Ok _ _ _ _ _ (run_ret _ _)).
    unfold Vec.destroy_members.
    rewrite (bind_Ok _ _ _ _ _ (obj_Ok _ _ _ _ _ _ _ Ho)).
    by rewrite (bind_Ok _ _ _ _ _ (del_obj_Ok _ _ _ _ _ _)).
Qed.

End CopySwapDestroy.

(** ** Copy assignment *)

Section CopyAssignment.
Context {T : Type} (E : element_type T).
Implicit Types (m : gmap positive (list (option T)))
  (o : gmap positive Vector) (s : nat → option exn) (xs ys us vs : list T).

Lemma copy_assign_Ok m o t s l sa si sblk v a i (bpre bpost : list (option T)) u :
  m !! sa = Some sblk → sblk !! si = Some (Some v) →
  m !! a = Some (bpre ++ Some u :: bpost) → i = length bpre → s t = None →
  copy_assign (Ptr (Some a) i) (Ptr (Some sa) si) (mkWorld m o t s l)
  = (Ok tt, mkWorld (<[a := bpre ++ Some v :: bpost]> m) o (S t) s l).
Proof.
  intros Hsm Hsb Hm Hi Hs. unfold copy_assign.
  rewrite (bind_Ok _ _ _ _ _ (load_Ok _ _ _ _ _ _ _ _ _ Hsm Hsb)).
  rewrite (bind_Ok _ _ _ _ _ (load_Ok _ _ _ _ _ _ _ _ _ Hm (lookup_cut _ _ _ _ Hi))).
  rewrite (bind_Ok _ _ _ _ _ (fallible_Ok _ _ _ _ _ Hs)).
  rewrite (store_Ok _ _ _ _ _ _ _ _ _ _ Hm (lookup_cut _ _ _ _ Hi)).
  by rewrite insert_cut.
Qed.

(** The loop of per-element assignments over the common prefix. *)
Lemma assign_loop_Ok us : ∀ vs m o t s l this rhs a capt nt ar capr nr sblk i bpre bpost,
  o !! this = Some (mkVector (mkRawMemory (Some a) capt) nt) →
  o !! rhs = Some (mkVector (mkRawMemory (Some ar) capr) nr) →
  ar ≠ a →
  m !! ar = Some sblk →
  (∀ j v, vs !! j = Some v → sblk !! (i + j) = Some (Some v)) →
  m !! a = Some (bpre ++ (Some <$> us) ++ bpost) → i = length bpre →
  length vs = length us →
  i + length us ≤ capt → i + length us ≤ nr → nr ≤ capr → fits capt →
  (∀ j, j < length us → s (t + j) = None) →
  Vec.assign_loop this rhs i (length us) (mkWorld m o t s l)
  = (Ok tt, mkWorld (<[a := bpre ++ (Some <$> vs) ++ bpost]> m) o (t + length us) s l).
Proof.
  induction us as [|u us IH];
    intros vs m o t s l this rhs a capt nt ar capr nr sblk i bpre bpost
           Hot Hor Hne Hsm Hsrc Hm Hi Hlen Hct Hnr Hcr Hfit Hs.
  - destruct vs; [|done]. simpl. rewrite run_ret, Nat.add_0_r. by rewrite insert_id.
  - destruct vs as [|v vs]; [done|]. simpl in Hlen, Hct, Hnr.
    rewrite !fmap_cons in *. cbn [length Vec.assign_loop].
    rewrite (bind_Ok _ _ _ _ _ (obj_Ok _ _ _ _ _ _ _ Hot)). cbn [data_].
    erewrite bind_Ok; [| apply RawMemory_at_Ok; simpl; lia].
    erewrite bind_Ok; cycle 1.
    { unfold Vec.at_. rewrite (bind_Ok _ _ _ _ _ (obj_Ok _ _ _ _ _ _ _ Hor)).
      cbn [size_ data_]. destruct (decide (i < nr)); [|lia].
      apply RawMemory_at_Ok. simpl. lia. }
    cbn [buffer_].
    erewrite bind_Ok; cycle 1.
    { eapply copy_assign_Ok; [exact Hsm | | exact Hm | exact Hi |].
      - specialize (Hsrc 0 v eq_refl). by rewrite Nat.add_0_r in Hsrc.
      - specialize (Hs 0 ltac:(simpl; lia)). by rewrite Nat.add_0_r in Hs. }
    rewrite sz_add_fits by (eapply fits_le; [|exact Hfit]; lia).
    erewrite (IH vs _ o (S t) s l this rhs a capt nt ar capr nr sblk (i + 1)
                (bpre ++ [Some v]) bpost);
      [| done | done | done | by rewrite lookup_insert_ne | | | | | | | | |].
    + rewrite insert_insert_eq, <- app_assoc. simpl. do 2 f_equal. lia.
    + intros j v' Hj. specialize (Hsrc (S j) v' Hj).
      by replace (i + 1 + j) with (i + S j) by lia.
    + rewrite lookup_insert_eq. by rewrite <- app_assoc.
    + rewrite length_app. simpl. lia.
    + lia.
    + lia.
    + lia.
    + done.
    + done.
    + intros j Hj. specialize (Hs (S j) ltac:(simpl; lia)).
      by replace (S t + j) with (t + S j) by lia.
Qed.

Lemma fresh_ref_unused o : o !! fresh (dom o) = None.
Proof. apply not_elem_of_dom. apply is_fresh. Qed.

Lemma local_storage_Ok m o t s l :
  Vec.local_storage (mkWorld m o t s l) = (Ok (fresh (dom o)), mkWorld m o t s l).
Proof. reflexivity. Qed.

(** The source is larger than the destination's capacity: copy and swap. *)
Lemma assign_copy_realloc_Ok (w : world T) this rhs vt vr xs ys :
  this ≠ rhs →
  objs w !! this = Some vt → objs w !! rhs = Some vr →
  holds w vt xs → holds w vr ys →
  buffer_ (data_ vt) ≠ buffer_ (data_ vr) →
  capacity_ (data_ vt) < size_ vr →
  calm w →
  ∃ w' vt',
    Vec.assign_copy E this rhs w = (Ok tt, w') ∧
    objs w' !! this = Some vt' ∧ objs w' !! rhs = Some vr ∧
    holds w' vt' ys ∧ holds w' vr ys ∧
    size_ vt' = size_ vr ∧ capacity_ (data_ vt') = size_ vr ∧
    tick w' = tick w + 1 + size_ vr ∧
    leaked w' = leaked w ∧
    (∀ a, buffer_ (data_ vt) = Some a → mem w' !! a = None) ∧
    (∀ b, Some b ≠ buffer_ (data_ vt) → Some b ≠ buffer_ (data_ vt') →
          mem w' !! b = mem w !! b) ∧
    ∃ a', buffer_ (data_ vt') = Some a' ∧ mem w !! a' = None.
Proof.
  intros Hne Hot Hor Hht Hhr Hbuf Hcap Hc.
  pose proof Hht as (Hnt & Hlet & Hfct & Hbt).
  pose proof Hhr as (Hnr & Hler & Hfcr & Hbr).
  destruct w as [m o t s l]. destruct vt as [[buft capt] nt], vr as [[bufr capr] nr].
  cbn [size_ data_ buffer_ capacity_ mem objs tick schedule] in *. subst nt nr.
  destruct bufr as [ar|]; [|lia]. destruct Hbr as [_ Hmr].
  set (temp := fresh (dom o)).
  assert (o !! temp = None) as Htemp by apply fresh_ref_unused.
  assert (this ≠ temp) as Hnt by (intros Heq; by rewrite <- Heq, Hot in Htemp).
  assert (rhs ≠ temp) as Hnr by (intros Heq; by rewrite <- Heq, Hor in Htemp).
  set (a' := fresh (dom m)).
  assert (m !! a' = None) as Ha' by apply fresh_block_unused.
  assert (ar ≠ a') as Hnea by by eapply fresh_block_other.
  set (vnew := mkVector (mkRawMemory (Some a') (length ys)) (length ys)).
  set (vold := mkVector (mkRawMemory buft capt) (length xs)).
  set (m' := <[a' := Some <$> ys]> (match buft with Some a => delete a m | None => m end)).
  exists (mkWorld m' (<[this := vnew]> o) (t + (1 + length ys)) s l), vnew.
  cbn [size_ data_ buffer_ capacity_ mem objs leaked].
  assert (m' !! ar = Some (block_image ys capr)) as Hmr'.
  { unfold m'. rewrite lookup_insert_ne by done.
    destruct buft as [a|]; [|done]. rewrite lookup_delete_ne; [done|]. congruence. }
  split.
  { unfold Vec.assign_copy. destruct (decide (this ≠ rhs)); [|done].
    rewrite (bind_Ok _ _ _ _ _ (obj_Ok _ _ _ _ _ _ _ Hot)).
    rewrite (bind_Ok _ _ _ _ _ (obj_Ok _ _ _ _ _ _ _ Hor)).
    unfold RawMem.Capacity. cbn [size_ data_ capacity_].
    destruct (decide (capt < length ys)); [|lia].
    erewrite bind_Ok; cycle 1.
    { rewrite (bind_Ok _ _ _ _ _ (local_storage_Ok _ _ _ _ _)). fold temp.
      erewrite bind_Ok; cycle 1.
      { eapply ctor_copy_Ok; [exact Hor | exact Htemp | exact Hmr | lia |].
        intros j Hj. apply Hc. simpl. lia. }
      fold a'. fold vnew.
      erewrite bind_Ok; cycle 1.
      { apply Swap_Ok; [done | by rewrite lookup_insert_ne | by rewrite lookup_insert_eq]. }
      fold vold.
      eapply (dtor_Ok E _ _ _ _ _ temp buft capt xs).
      - by rewrite lookup_insert_eq.
      - done.
      - destruct buft as [a|].
        + destruct Hbt as [_ Hmt]. rewrite lookup_insert_ne; [done|].
          intros <-. by rewrite Ha' in Hmt.
        + destruct xs; [done | simpl in *; lia]. }
    erewrite bind_Ok; cycle 1.
    { apply obj_Ok. rewrite lookup_delete_ne by done.
      rewrite lookup_insert_ne by done. rewrite lookup_insert_ne by done.
      by rewrite lookup_insert_ne. }
    erewrite set_size_Ok; cycle 1.
    { rewrite lookup_delete_ne by done. rewrite lookup_insert_ne by done.
      by rewrite lookup_insert_eq. }
    cbn [size_ data_]. f_equal. f_equal.
    - unfold m'. destruct buft as [a|]; [|done].
      destruct Hbt as [_ Hmt].
      rewrite delete_insert_ne; [done|]. intros <-. by rewrite Ha' in Hmt.
    - apply map_eq. intros r.
      destruct (decide (r = this)) as [->|Hr1]; [by rewrite !lookup_insert_eq|].
      rewrite !(lookup_insert_ne _ this) by done.
      destruct (decide (r = temp)) as [->|Hr2].
      + by rewrite lookup_delete_eq, Htemp.
      + rewrite lookup_delete_ne by done.
        by rewrite !lookup_insert_ne by done. }
  split; [by rewrite lookup_insert_eq|].
  split; [by rewrite lookup_insert_ne|].
  split.
  { unfold holds, vnew. cbn [size_ data_ buffer_ capacity_ mem].
    split; [done|]. split; [done|]. split; [by eapply fits_le|].
    split; [lia|]. unfold m'. by rewrite lookup_insert_eq, block_image_full. }
  split.
  { unfold holds. cbn [size_ data_ buffer_ capacity_ mem].
    split; [done|]. split; [done|]. split; [done|]. split; [lia|]. done. }
  split; [done|]. split; [done|]. split; [cbn [tick]; lia|]. split; [done|].
  split; [|split; [|by exists a']].
  - intros a ->. destruct Hbt as [_ Hmt]. unfold m'.
    rewrite lookup_insert_ne; [by rewrite lookup_delete_eq|].
    intros <-. by rewrite Ha' in Hmt.
  - intros b Hb1 Hb2. unfold m'.
    rewrite lookup_insert_ne by (intros <-; by apply Hb2).
    destruct buft as [a|]; [|done].
    rewrite lookup_delete_ne; [done|]. intros <-. by apply Hb1.
Qed.

(** Copy and swap, and the copy of element [k] throws: nothing changes. *)
Lemma assign_copy_realloc_Throw (w : world T) this rhs vt vr xs ys k e :
  this ≠ rhs →
  objs w !! this = Some vt → objs w !! rhs = Some vr →
  holds w vt xs → holds w vr ys →
  capacity_ (data_ vt) < size_ vr →
  k < length ys →
  throws_after w (1 + k) e →
  ∃ w', Vec.assign_copy E this rhs w = (Throw e, w') ∧
        objs w' = objs w ∧ mem w' = mem w ∧ leaked w' = leaked w.
Proof.
  intros Hne Hot Hor Hht Hhr Hcap Hk [Hs He].
  pose proof Hhr as (Hnr & Hler & Hfcr & Hbr).
  destruct w as [m o t s l]. destruct vt as [[buft capt] nt], vr as [[bufr capr] nr].
  cbn [size_ data_ buffer_ capacity_ mem objs tick schedule] in *. subst nr.
  destruct bufr as [ar|]; [|lia]. destruct Hbr as [_ Hmr].
  exists (mkWorld m o (t + (2 + k)) s l). split; [|done].
  unfold Vec.assign_copy. destruct (decide (this ≠ rhs)); [|done].
  rewrite (bind_Ok _ _ _ _ _ (obj_Ok _ _ _ _ _ _ _ Hot)).
  rewrite (bind_Ok _ _ _ _ _ (obj_Ok _ _ _ _ _ _ _ Hor)).
  unfold RawMem.Capacity. cbn [size_ data_ capacity_].
  destruct (decide (capt < length ys)); [|lia].
  erewrite bind_Throw; [reflexivity|].
  rewrite (bind_Ok _ _ _ _ _ (local_storage_Ok _ _ _ _ _)).
  erewrite bind_Throw; [reflexivity|].
  eapply ctor_copy_Throw; [exact Hor | apply fresh_ref_unused | exact Hmr | done | done | done].
Qed.

(** The destination's capacity suffices: assignment in place. *)
Lemma assign_copy_inplace_Ok (w : world T) this rhs vt vr xs ys :
  this ≠ rhs →
  objs w !! this = Some vt → objs w !! rhs = Some vr →
  holds w vt xs → holds w vr ys →
  (buffer_ (data_ vt) = buffer_ (data_ vr) → buffer_ (data_ vt) = None) →
  size_ vr ≤ capacity_ (data_ vt) →
  calm w →
  ∃ w',
    Vec.assign_copy E this rhs w = (Ok tt, w') ∧
    objs w' !! this = Some (mkVector (data_ vt) (size_ vr)) ∧
    objs w' !! rhs = Some vr ∧
    holds w' (mkVector (data_ vt) (size_ vr)) ys ∧ holds w' vr ys ∧
    tick w' = tick w + size_ vr ∧
    leaked w' = leaked w ∧
    (∀ b, Some b ≠ buffer_ (data_ vt) → mem w' !! b = mem w !! b).
Proof.
  intros Hne Hot Hor Hht Hhr Hbuf Hcap Hc.
  pose proof Hht as (Hnt & Hlet & Hfct & Hbt).
  pose proof Hhr as (Hnr & Hler & Hfcr & Hbr).
  destruct w as [m o t s l]. destruct vt as [[buft capt] nt], vr as [[bufr capr] nr].
  cbn [size_ data_ buffer_ capacity_ mem objs tick schedule] in *. subst nt nr.
  set (k := length xs `min` length ys).
  set (t1 := t + k).
  set (t2 := if decide (length xs < length ys) then t1 + (length ys - length xs) else t1).
  set (m' := match buft with
             | Some a => <[a := block_image ys capt]> m
             | None => m
             end).
  exists (mkWorld m' (<[this := mkVector (mkRawMemory buft capt) (length ys)]> o) t2 s l).
  cbn [size_ data_ buffer_ capacity_ mem objs].
  assert (match bufr with
          | Some ar => m' !! ar = Some (block_image ys capr)
          | None => True
          end) as Hmr'.
  { destruct bufr as [ar|]; [|done]. destruct Hbr as [_ Hmr]. unfold m'.
    destruct buft as [a|]; [|done].
    rewrite lookup_insert_ne; [done|]. intros ->. by specialize (Hbuf eq_refl). }
  split.
  2:{ split; [by rewrite lookup_insert_eq|].
      split; [by rewrite lookup_insert_ne|].
      split.
      - unfold holds. cbn [size_ data_ buffer_ capacity_ mem].
        split; [done|]. split; [done|]. split; [done|].
        destruct buft as [a|].
        + destruct Hbt as [? _]. split; [done|]. unfold m'. by rewrite lookup_insert_eq.
        + by destruct Hbt.
      - split.
        + unfold holds. cbn [size_ data_ buffer_ capacity_ mem].
          split; [done|]. split; [done|]. split; [done|].
          destruct bufr as [ar|]; [|done]. by destruct Hbr.
        + split; [|split; [done|]].
          * cbn [tick]. unfold t2, t1, k.
            destruct (decide (length xs < length ys)); lia.
          * intros b Hb. unfold m'. destruct buft as [a|]; [|done].
            rewrite lookup_insert_ne; [done|]. intros <-. by apply Hb. }
  unfold Vec.assign_copy. destruct (decide (this ≠ rhs)); [|done].
  rewrite (bind_Ok _ _ _ _ _ (obj_Ok _ _ _ _ _ _ _ Hot)).
  rewrite (bind_Ok _ _ _ _ _ (obj_Ok _ _ _ _ _ _ _ Hor)).
  unfold RawMem.Capacity. cbn [size_ data_ capacity_].
  destruct (decide (capt < length ys)); [lia|].
  fold k.
  (* the loop over the common prefix *)
  set (m1 := match buft with
             | Some a => <[a := block_image (take k ys ++ drop k xs) capt]> m
             | None => m
             end).
  assert (length (take k ys ++ drop k xs) = length xs) as Hlen1.
  { rewrite length_app, length_take, length_drop. unfold k. lia. }
  assert (Vec.assign_loop this rhs 0 k (mkWorld m o t s l)
          = (Ok tt, mkWorld m1 o t1 s l)) as Hloop.
  { destruct (decide (k = 0)) as [Hk0|Hk0].
    - rewrite Hk0. simpl. unfold t1, m1. rewrite Hk0, Nat.add_0_r. simpl.
      rewrite drop_0. destruct buft as [a|]; [|done].
      destruct Hbt as [_ Hmt]. by rewrite insert_id.
    - destruct buft as [a|]; [|unfold k in *; lia]. destruct Hbt as [_ Hmt].
      destruct bufr as [ar|]; [|unfold k in *; lia]. destruct Hbr as [_ Hmr].
      assert (ar ≠ a) as Hna by (intros ->; by specialize (Hbuf eq_refl)).
      assert (length (take k xs) = k) as Hlk by (rewrite length_take; unfold k; lia).
      rewrite <- Hlk at 1.
      erewrite (assign_loop_Ok (take k xs) (take k ys) m o t s l this rhs a capt
                  (length xs) ar capr (length ys) (block_image ys capr) 0 []
                  ((Some <$> drop k xs) ++ replicate (capt - length xs) None)).
      + unfold m1, t1. rewrite Hlk. do 3 f_equal.
        unfold block_image. rewrite Hlen1, fmap_app, <- app_assoc. done.
      + done.
      + done.
      + done.
      + done.
      + intros j v Hj. rewrite Nat.add_0_l. apply block_image_lookup.
        apply lookup_take_Some in Hj. by destruct Hj.
      + rewrite Hmt. unfold block_image. simpl.
        rewrite app_assoc, <- fmap_app, take_drop. done.
      + done.
      + rewrite !length_take. unfold k. lia.
      + rewrite Hlk. unfold k. lia.
      + rewrite Hlk. unfold k. lia.
      + done.
      + done.
      + intros j Hj. apply Hc. simpl. lia. }
  assert (∀ (mm : gmap positive (list (option T))) tt',
            (Vec.obj rhs ≫= λ r, Vec.set_size this (size_ r)) (mkWorld mm o tt' s l)
                    = (Ok tt, mkWorld mm (<[this := mkVector (mkRawMemory buft capt)
                                                            (length ys)]> o) tt' s l))
    as Hfin.
  { intros mm tt'. erewrite bind_Ok; [| by apply obj_Ok].
    erewrite set_size_Ok; [|done]. done. }
  destruct (decide (length ys < length xs)) as [Hlt|Hge];
    [| destruct (decide (length xs < length ys)) as [Hlt|Heq]].
  - (* the destination is longer: its tail is destroyed *)
    destruct buft as [a|]; [|lia]. destruct Hbt as [_ Hmt].
    assert (k = length ys) as Hk by (unfold k; lia).
    erewrite bind_Ok; cycle 1.
    { rewrite (bind_Ok _ _ _ _ _ Hloop).
      erewrite bind_Ok; [| apply RawMemory_plus_Ok; simpl; lia]. cbn [buffer_].
      rewrite sz_sub_le by first [lia | eapply fits_le; [|exact Hfct]; lia].
      apply (destroy_n_slots E _ (Some <$> drop k xs) _ _ _ _ _ a (length ys)
               (Some <$> take k ys) (replicate (capt - length xs) None)).
      + rewrite length_fmap, length_drop. lia.
      + unfold m1. rewrite lookup_insert_eq. unfold block_image.
        by rewrite Hlen1, fmap_app, <- app_assoc.
      + rewrite length_fmap, length_take. lia.
      + right. apply Forall_fmap, Forall_true. intros v. by eexists. }
    rewrite Hfin. unfold m', m1, t2, t1.
    destruct (decide (length xs < length ys)); [lia|].
    rewrite insert_insert_eq.
    replace ((Some <$> take k ys) ++ replicate (length xs - length ys) None ++
             replicate (capt - length xs) None) with (block_image ys capt); [done|].
    unfold block_image. rewrite Hk, firstn_all, <- replicate_add.
    do 2 f_equal. lia.
  - (* the source is longer: its extra elements are copied into raw slots *)
    destruct buft as [a|]; [|lia]. destruct Hbt as [_ Hmt].
    destruct bufr as [ar|]; [|lia]. destruct Hbr as [_ Hmr].
    assert (ar ≠ a) as Hna by (intros ->; by specialize (Hbuf eq_refl)).
    assert (k = length xs) as Hk by (unfold k; lia).
    assert (length (drop k ys) = length ys - length xs) as Hld
      by (rewrite length_drop; lia).
    erewrite bind_Ok; cycle 1.
    { rewrite (bind_Ok _ _ _ _ _ Hloop).
      erewrite bind_Ok; [| apply RawMemory_plus_Ok; simpl; lia].
      erewrite bind_Ok; [| apply RawMemory_plus_Ok; simpl; lia]. cbn [buffer_].
      rewrite sz_sub_le by first [lia | eapply fits_le; [|exact Hfcr]; lia].
      rewrite <- Hld.
      apply (uninitialized_copy_n_Ok E (drop k ys) _ _ _ _ _ ar (length xs)
               (block_image ys capr) a (length xs) (Some <$> take k ys)
               (replicate (capt - length ys) None)
               (replicate (length ys - length xs) None)).
      * done.
      * unfold m1. by rewrite lookup_insert_ne.
      * intros j v Hj. apply block_image_lookup. rewrite lookup_drop in Hj.
        by rewrite <- Hk.
      * unfold m1. rewrite lookup_insert_eq. unfold block_image.
        rewrite Hlen1, fmap_app, <- app_assoc.
        rewrite Hk, drop_all. simpl.
        rewrite <- replicate_add. do 3 f_equal. lia.
      * rewrite length_fmap, length_take. lia.
      * rewrite length_replicate. lia.
      * intros j Hj. apply Hc. simpl. unfold t1. lia. }
    rewrite Hfin. unfold m', m1, t2, t1.
    destruct (decide (length xs < length ys)); [|lia].
    rewrite insert_insert_eq, length_drop.
    replace ((Some <$> take k ys) ++ (Some <$> drop k ys) ++
             replicate (capt - length ys) None) with (block_image ys capt).
    2:{ unfold block_image. by rewrite app_assoc, <- fmap_app, take_drop. }
    by rewrite Hk.
  - assert (k = length ys) as Hk by (unfold k; lia).
    erewrite bind_Ok; cycle 1.
    { rewrite (bind_Ok _ _ _ _ _ Hloop). apply run_ret. }
    rewrite Hfin. unfold m', m1, t2, t1.
    destruct (decide (length xs < length ys)); [lia|].
    destruct buft as [a|]; [|done].
    rewrite Hk, firstn_all, drop_ge by lia. by rewrite app_nil_r.
Qed.

End CopyAssignment.

(** * The claim about copy assignment *)

Section CopyAssignmentClaim.
Context {T : Type} (E : element_type T).
Implicit Types (w : world T) (xs ys : list T).

(** C7. Copy assignment between two different vectors that own different
    blocks. When the source's size exceeds the destination's capacity, a
    copy of the source is built in a new block and swapped in: if nothing
    throws the destination ends with the source's size and elements in
    that new block, whose capacity is the source's size, after one
    allocation and one copy construction per element; the block it had is
    released with its elements destroyed, every other block is untouched
    and no object is leaked. If the copy of element [k] throws, the
    exception leaves the assignment with every object, the whole heap and
    the leaked objects as before. When the capacity suffices and nothing
    throws, the destination keeps its block and capacity and ends with the
    source's size and elements, after one assignment or copy construction
    per element of the source and no allocation: its block holds the
    source's elements followed by raw slots only, so the elements a longer
    destination had beyond the source's size are destroyed, none of them
    is leaked, and every other block is untouched. The source is unchanged
    in every case. *)
Theorem copy_assignment w this rhs vt vr xs ys :
  this ≠ rhs →
  objs w !! this = Some vt → objs w !! rhs = Some vr →
  holds w vt xs → holds w vr ys →
  (buffer_ (data_ vt) = buffer_ (data_ vr) → buffer_ (data_ vt) = None) →
  (Vec.Capacity vt < Vec.Size vr →
     (calm w →
      ∃ w' vt',
        Vec.assign_copy E this rhs w = (Ok tt, w') ∧
        tick w' = tick w + 1 + Vec.Size vr ∧
        objs w' !! this = Some vt' ∧
        buffer_ (data_ vt') ≠ buffer_ (data_ vt) ∧
        Vec.Size vt' = Vec.Size vr ∧ elements w' vt' = Some ys ∧
        objs w' !! rhs = Some vr ∧ elements w' vr = Some ys ∧
        holds w' vt' ys ∧ holds w' vr ys ∧
        Vec.Capacity vt' = Vec.Size vr ∧
        (∀ a, buffer_ (data_ vt) = Some a → mem w' !! a = None) ∧
        (∀ b, Some b ≠ buffer_ (data_ vt) → Some b ≠ buffer_ (data_ vt') →
              mem w' !! b = mem w !! b) ∧
        leaked w' = leaked w) ∧
     (∀ k e, k < length ys → throws_after w (1 + k) e →
      ∃ w', Vec.assign_copy E this rhs w = (Throw e, w') ∧
            objs w' = objs w ∧ mem w' = mem w ∧ leaked w' = leaked w)) ∧
  (Vec.Size vr ≤ Vec.Capacity vt → calm w →
     ∃ w' vt',
       Vec.assign_copy E this rhs w = (Ok tt, w') ∧
       tick w' = tick w + Vec.Size vr ∧
       objs w' !! this = Some vt' ∧
       Vec.Data vt' = Vec.Data vt ∧
       Vec.Size vt' = Vec.Size vr ∧ elements w' vt' = Some ys ∧
       objs w' !! rhs = Some vr ∧ elements w' vr = Some ys ∧
       holds w' vt' ys ∧ holds w' vr ys ∧
       (∀ a, buffer_ (data_ vt) = Some a →
             mem w' !! a = Some ((Some <$> ys)
                                 ++ replicate (Vec.Capacity vt - length ys) None)) ∧
       (∀ b, Some b ≠ buffer_ (data_ vt) → mem w' !! b = mem w !! b) ∧
       leaked w' = leaked w).
Proof.
  intros Hne Hot Hor Hht Hhr Hbuf.
  unfold Vec.Capacity, Vec.Size, Vec.Data, RawMem.Capacity.
  split; [intros Hcap; split|].
  - intros Hc.
    assert (buffer_ (data_ vt) ≠ buffer_ (data_ vr)) as Hdiff.
    { intros Heq. pose proof (Hbuf Heq) as Hnone.
      destruct Hhr as (Hnr & Hler & _ & Hbr). rewrite <- Heq, Hnone in Hbr.
      lia. }
    destruct (assign_copy_realloc_Ok E w this rhs vt vr xs ys
                Hne Hot Hor Hht Hhr Hdiff Hcap Hc)
      as (w' & vt' & Hrun & Hot' & Hor' & Hht' & Hhr' & Hsz & Hcp & Htick
          & Hleak & Hfreed & Hrest & a' & Ha' & Hfresh).
    exists w', vt'. split; [done|]. split; [done|]. split; [done|].
    split.
    { (* the block is one that was not allocated before *)
      intros Heq. destruct Hht as (_ & _ & _ & Hb).
      rewrite <- Heq, Ha' in Hb. destruct Hb as [_ Hm]. by rewrite Hfresh in Hm. }
    split; [done|]. split; [by apply holds_elements|].
    split; [done|]. split; [by apply holds_elements|].
    done.
  - intros k e Hk Hthrow.
    by apply (assign_copy_realloc_Throw E w this rhs vt vr xs ys k e).
  - intros Hcap Hc.
    destruct (assign_copy_inplace_Ok E w this rhs vt vr xs ys
                Hne Hot Hor Hht Hhr Hbuf Hcap Hc)
      as (w' & Hrun & Hot' & Hor' & Hht' & Hhr' & Htick & Hleak & Hrest).
    exists w', (mkVector (data_ vt) (size_ vr)).
    split; [done|]. split; [done|]. split; [done|]. split; [done|]. split; [done|].
    split; [by apply holds_elements|].
    split; [done|]. split; [by apply holds_elements|].
    split; [done|]. split; [done|]. split; [|done].
    intros a Ha. destruct Hht' as (_ & _ & _ & Hb).
    cbn [size_ data_] in Hb. rewrite Ha in Hb. by destruct Hb.
Qed.

End CopyAssignmentClaim.

(** * Moving a vector *)

Section Moves.
Context {T : Type} (E : element_type T).
Implicit Types (w : world T) (xs ys : list T).

Lemma holds_null_iff_empty w v xs : holds w v xs → null_iff_empty (data_ v).
Proof.
  intros (_ & _ & _ & Hb). unfold null_iff_empty.
  destruct (buffer_ (data_ v)); [destruct Hb|]; split; intros; done.
Qed.

Lemma holds_size_within_capacity w v xs : holds w v xs → size_within_capacity v = true.
Proof.
  intros (Hn & Hle & _). unfold size_within_capacity, Vec.Size, Vec.Capacity, RawMem.Capacity.
  apply andb_true_iff. split; [by apply Nat.leb_le; lia | apply Nat.leb_le; lia].
Qed.

(** Move construction: the new vector is the source as it was, block and
    size; the source is left with no block and size 0. *)
Lemma ctor_move_Ok w this other vo ys :
  objs w !! other = Some vo → objs w !! this = None → holds w vo ys →
  ∃ w',
    Vec.ctor_move this other w = (Ok tt, w') ∧
    mem w' = mem w ∧
    objs w' !! this = Some vo ∧ elements w' vo = Some ys ∧
    objs w' !! other = Some (mkVector RawMem.default 0).
Proof.
  intros Hoo Hot Hh.
  assert (other ≠ this) as Hne by (intros ->; by rewrite Hot in Hoo).
  pose proof (holds_elements _ _ _ Hh) as Hel.
  pose proof (RawMemory_move_ctor_spec _ (holds_null_iff_empty _ _ _ Hh)) as Hmv.
  destruct w as [m o t s l]. cbn [objs mem] in *.
  exists (mkWorld m (<[other := mkVector RawMem.default 0]> (<[this := vo]> o)) t s l).
  cbn [objs mem].
  split.
  { unfold Vec.ctor_move.
    rewrite (bind_Ok _ _ _ _ _ (obj_Ok _ _ _ _ _ _ _ Hoo)). rewrite Hmv.
    rewrite (bind_Ok _ _ _ _ _ (set_data_Ok _ _ _ _ _ _ _ _ Hoo)).
    erewrite bind_Ok; [| apply obj_Ok; by rewrite lookup_insert_eq]. cbn [size_ data_].
    erewrite bind_Ok; [| apply new_obj_Ok; by rewrite lookup_insert_ne].
    erewrite set_size_Ok;
      [| rewrite lookup_insert_ne by done; by rewrite lookup_insert_eq].
    cbn [size_ data_]. do 2 f_equal.
    rewrite (insert_insert_ne _ this other) by done.
    rewrite insert_insert_eq. by destruct vo. }
  split; [done|].
  split; [rewrite lookup_insert_ne by done; by rewrite lookup_insert_eq|].
  split; [exact Hel|]. by rewrite lookup_insert_eq.
Qed.

(** Move assignment: what the code does with the two objects. The block
    moves only when addresses and capacities both differ, and the source's
    [size_] is never written. *)
Lemma assign_move_Ok w this rhs vt vr :
  this ≠ rhs → objs w !! this = Some vt → objs w !! rhs = Some vr →
  Vec.assign_move this rhs w
  = (Ok tt,
     with_objs
       (λ o, <[this := mkVector (get_this (RawMem.move_assign
                                             (Distinct (data_ vt) (data_ vr))))
                                (size_ vr)]>
               (<[rhs := mkVector (get_rhs (RawMem.move_assign
                                              (Distinct (data_ vt) (data_ vr))))
                                  (size_ vr)]> o)) w).
Proof.
  intros Hne Hot Hor. destruct w as [m o t s l]. cbn [objs] in *.
  unfold Vec.assign_move. destruct (decide (this ≠ rhs)); [|done].
  rewrite (bind_Ok _ _ _ _ _ (obj_Ok _ _ _ _ _ _ _ Hot)).
  rewrite (bind_Ok _ _ _ _ _ (obj_Ok _ _ _ _ _ _ _ Hor)).
  rewrite (bind_Ok _ _ _ _ _ (set_data_Ok _ _ _ _ _ _ _ _ Hot)).
  erewrite bind_Ok; [| apply set_data_Ok; by rewrite lookup_insert_ne].
  erewrite bind_Ok; [| apply obj_Ok; by rewrite lookup_insert_eq].
  erewrite set_size_Ok; [| rewrite lookup_insert_ne by done; by rewrite lookup_insert_eq].
  unfold with_objs. cbn [size_ data_ mem objs tick schedule leaked].
  do 2 f_equal.
  rewrite (insert_insert_ne _ this rhs) by done.
  rewrite insert_insert_eq.
  by rewrite (insert_insert_ne _ rhs this) by done.
Qed.

(** Non-self move assignment never resets the source's size. *)
Lemma assign_move_source_size w this rhs vt vr :
  this ≠ rhs → objs w !! this = Some vt → objs w !! rhs = Some vr →
  ∃ w' vr', Vec.assign_move this rhs w = (Ok tt, w') ∧
            objs w' !! rhs = Some vr' ∧ Vec.Size vr' = Vec.Size vr.
Proof.
  intros Hne Hot Hor. eexists _, _.
  split; [by apply assign_move_Ok|].
  destruct w as [m o t s l]. cbn [with_objs objs].
  rewrite lookup_insert_ne by done. by rewrite lookup_insert_eq.
Qed.

End Moves.

(** C4, where the code departs from it. [dst] holds [7], [src] holds
    [1; 2; 3]; after [dst = std::move(src)] the destination has the source's
    block, size and elements, but the source, now without a block, still
    reports size 3: [operator=] does not reset [rhs.size_] as the move
    constructor does. *)
Theorem move_assignment_keeps_source_size :
  let w := Sample.two_vectors [7] [1; 2; 3] 0 Sample.never in
  let dst := mkVector (mkRawMemory (Some 2%positive) 3) 3 in
  let src := mkVector (mkRawMemory None 0) 3 in
  ∃ w', Vec.assign_move 1%positive 2%positive w = (Ok tt, w') ∧
        objs w' !! 1%positive = Some dst ∧ elements w' dst = Some [1; 2; 3] ∧
        objs w' !! 2%positive = Some src ∧ Vec.Size src = 3.
Proof.
  intros w dst src. eexists. split; [vm_compute; reflexivity|].
  repeat split; reflexivity.
Qed.

(** C4 again: between two vectors of the same capacity the block does not
    move at all, and the destination keeps its own elements. *)
Lemma move_assignment_same_capacity :
  let w := Sample.two_vectors [7; 8; 9] [1; 2; 3] 0 Sample.never in
  let dst := mkVector (mkRawMemory (Some 1%positive) 3) 3 in
  ∃ w', Vec.assign_move 1%positive 2%positive w = (Ok tt, w') ∧
        objs w' !! 1%positive = Some dst ∧ elements w' dst = Some [7; 8; 9].
Proof.
  intros w dst. eexists. split; [vm_compute; reflexivity|].
  repeat split; reflexivity.
Qed.

(** C5, where the code departs from it. Both vectors satisfy
    [Size() <= Capacity()] before [dst = std::move(src)]; afterwards the
    source has size 3 and capacity 0. *)
Theorem move_assignment_breaks_the_invariant :
  let w := Sample.two_vectors [7] [1; 2; 3] 0 Sample.never in
  (∀ v, v ∈ (map_to_list (objs w)).*2 → size_within_capacity v = true) ∧
  ∃ w' src, Vec.assign_move 1%positive 2%positive w = (Ok tt, w') ∧
            objs w' !! 2%positive = Some src ∧
            Vec.Size src = 3 ∧ Vec.Capacity src = 0 ∧
            size_within_capacity src = false.
Proof.
  intros w. split.
  - intros v Hv. vm_compute in Hv.
    apply list_elem_of_In in Hv. simpl in Hv.
    destruct Hv as [<-|[<-|[]]]; reflexivity.
  - eexists _, _. split; [vm_compute; reflexivity|].
    repeat split; reflexivity.
Qed.

(** * Construction and capacity *)

Section ConstructionAndCapacity.
Context {T : Type} (E : element_type T).
Implicit Types (m : gmap positive (list (option T)))
  (o : gmap positive Vector) (s : nat → option exn) (xs ys : list T)
  (pre post olds : list (option T)).

Lemma uninitialized_value_construct_n_Ok olds : ∀ m o t s l a i pre post,
  m !! a = Some (pre ++ olds ++ post) → i = length pre →
  (∀ j, j < length olds → s (t + j) = None) →
  uninitialized_value_construct_n E (Ptr (Some a) i) (length olds) (mkWorld m o t s l)
  = (Ok tt,
     mkWorld (<[a := pre ++ replicate (length olds) (Some (value_initialized E)) ++ post]> m)
             o (t + length olds) s l).
Proof.
  induction olds as [|x olds IH]; intros m o t s l a i pre post Hm Hi Hs.
  - simpl. rewrite run_ret, Nat.add_0_r. by rewrite insert_id.
  - cbn [length uninitialized_value_construct_n].
    simpl in Hm.
    erewrite bind_Ok; cycle 1.
    { eapply value_construct_Ok; [exact Hm | exact Hi |].
      specialize (Hs 0 ltac:(simpl; lia)). by rewrite Nat.add_0_r in Hs. }
    rewrite ptr_add_Ptr.
    erewrite try_catch_all_Ok; [reflexivity|].
    rewrite (IH _ o (S t) s l a (i + 1) (pre ++ [Some (value_initialized E)]) post).
    + rewrite insert_insert_eq, <- app_assoc. simpl. do 2 f_equal. lia.
    + rewrite lookup_insert_eq. by rewrite <- app_assoc.
    + rewrite length_app. simpl. lia.
    + intros j Hj. specialize (Hs (S j) ltac:(simpl; lia)).
      by replace (S t + j) with (t + S j) by lia.
Qed.

(** [Vector()] *)
Lemma ctor_default_Ok (w : world T) this :
  objs w !! this = None →
  ∃ w', Vec.ctor_default this w = (Ok tt, w') ∧
        objs w' !! this = Some (mkVector RawMem.default 0) ∧
        holds w' (mkVector RawMem.default 0) [].
Proof.
  intros Ho. destruct w as [m o t s l]. cbn [objs] in Ho.
  exists (mkWorld m (<[this := mkVector RawMem.default 0]> o) t s l).
  cbn [objs]. split; [by apply new_obj_Ok|]. split; [by rewrite lookup_insert_eq|].
  by repeat split.
Qed.

(** [Vector(size)]: [size] value-initialised elements in a block of
    exactly that many slots. *)
Lemma ctor_sized_Ok (w : world T) this size :
  objs w !! this = None → fits size → calm w →
  ∃ w' v, Vec.ctor_sized E this size w = (Ok tt, w') ∧
          objs w' !! this = Some v ∧
          Vec.Size v = size ∧ Vec.Capacity v = size ∧
          holds w' v (replicate size (value_initialized E)).
Proof.
  intros Ho Hfit Hc. destruct w as [m o t s l]. cbn [objs] in Ho.
  destruct (decide (size = 0)) as [->|Hn].
  - exists (mkWorld m (<[this := mkVector (mkRawMemory None 0) 0]> o) t s l),
      (mkVector (mkRawMemory None 0) 0).
    cbn [objs]. split.
    { unfold Vec.ctor_sized. rewrite (bind_Ok _ _ _ _ _ (RawMemory_ctor_zero _)).
      rewrite (bind_Ok _ _ _ _ _ (new_obj_Ok _ _ _ _ _ _ _ Ho)).
      apply unwinding_Ok.
      erewrite bind_Ok; [| apply obj_Ok; by rewrite lookup_insert_eq]. done. }
    split; [by rewrite lookup_insert_eq|]. by repeat split.
  - set (a' := fresh (dom m)).
    set (v := mkVector (mkRawMemory (Some a') size) size).
    exists (mkWorld (<[a' := replicate size (Some (value_initialized E))]> m)
              (<[this := v]> o) (S t + size) s l), v.
    cbn [objs]. split.
    { unfold Vec.ctor_sized.
      erewrite bind_Ok; [| apply RawMemory_ctor_Ok; [done | by apply Hc]].
      fold a'. fold v.
      rewrite (bind_Ok _ _ _ _ _ (new_obj_Ok _ _ _ _ _ _ _ Ho)).
      apply unwinding_Ok.
      erewrite bind_Ok; [| apply obj_Ok; by rewrite lookup_insert_eq].
      unfold RawMem.GetAddress, v. cbn [size_ data_ buffer_].
      pose proof (uninitialized_value_construct_n_Ok (replicate size None)
                    (<[a' := replicate size None]> m) (<[this := v]> o) (S t) s l a' 0 [] [])
        as Hfill.
      rewrite length_replicate, insert_insert_eq in Hfill.
      simpl in Hfill. rewrite !app_nil_r in Hfill.
      apply Hfill; [by rewrite lookup_insert_eq | done |].
      intros j Hj. apply Hc. simpl. lia. }
    split; [by rewrite lookup_insert_eq|].
    split; [done|]. split; [done|].
    unfold holds, v. cbn [size_ data_ buffer_ capacity_ mem].
    rewrite length_replicate. split; [done|]. split; [done|]. split; [done|].
    split; [done|]. rewrite lookup_insert_eq. f_equal.
    unfold block_image. rewrite length_replicate, Nat.sub_diag, app_nil_r.
    by rewrite fmap_replicate.
Qed.

(** [Reserve]: the elements are the same, in a block of the capacity asked
    for when that is more than the vector has. *)
Lemma Reserve_Ok (w : world T) this v xs new_capacity :
  objs w !! this = Some v → holds w v xs → fits new_capacity → calm w →
  ∃ w' v', Vec.Reserve E this new_capacity w = (Ok tt, w') ∧
           objs w' !! this = Some v' ∧ holds w' v' xs ∧
           Vec.Size v' = Vec.Size v ∧
           Vec.Capacity v' = Vec.Capacity v `max` new_capacity ∧
           calm w'.
Proof.
  intros Ho Hh Hfit Hc.
  pose proof Hh as (Hn & Hle & Hfc & Hb).
  destruct w as [m o t s l]. destruct v as [[buf cap] n].
  cbn [size_ data_ buffer_ capacity_ mem objs tick schedule] in *. subst n.
  unfold Vec.Size, Vec.Capacity, RawMem.Capacity. cbn [size_ data_ capacity_].
  destruct (decide (new_capacity ≤ cap)) as [Hsmall|Hbig].
  - exists (mkWorld m o t s l), (mkVector (mkRawMemory buf cap) (length xs)).
    cbn [objs size_ data_ capacity_]. split.
    { unfold Vec.Reserve. rewrite (bind_Ok _ _ _ _ _ (obj_Ok _ _ _ _ _ _ _ Ho)).
      unfold RawMem.Capacity. cbn [data_ capacity_].
      by destruct (decide (new_capacity ≤ cap)). }
    split; [done|]. split; [done|]. split; [done|]. split; [cbn; lia | done].
  - set (a' := fresh (dom m)).
    assert (m !! a' = None) as Ha' by apply fresh_block_unused.
    set (v' := mkVector (mkRawMemory (Some a') new_capacity) (length xs)).
    set (m' := <[a' := block_image xs new_capacity]>
                 (match buf with Some a => delete a m | None => m end)).
    assert (∃ t', t ≤ t' ∧
              Vec.Reserve E this new_capacity (mkWorld m o t s l)
              = (Ok tt, mkWorld m' (<[this := v']> o) t' s l)) as (t' & Ht' & Hrun).
    { destruct buf as [a|].
      - destruct Hb as [Hc0 Hm].
        assert (a ≠ a') as Hne by by eapply fresh_block_other.
        destruct (relocation_Ok E xs (<[a' := replicate new_capacity None]> m)
                    o (S t) s l a 0 [] (replicate (cap - length xs) None) a' 0 []
                    (replicate (new_capacity - length xs) None)
                    (replicate (length xs) None))
          as (xs' & t' & Hlen' & Ht' & Hrel).
        { done. }
        { by rewrite lookup_insert_ne. }
        { done. }
        { rewrite lookup_insert_eq. simpl. rewrite <- replicate_add. do 2 f_equal. lia. }
        { done. }
        { by rewrite length_replicate. }
        { intros j Hj. apply Hc. simpl. lia. }
        exists t'. split; [lia|].
        unfold Vec.Reserve. rewrite (bind_Ok _ _ _ _ _ (obj_Ok _ _ _ _ _ _ _ Ho)).
        unfold RawMem.Capacity, RawMem.GetAddress. cbn [size_ data_ capacity_ buffer_].
        destruct (decide (new_capacity ≤ cap)); [lia|].
        erewrite bind_Ok; [| apply RawMemory_ctor_Ok; [lia | by apply Hc]].
        fold a'. cbn [buffer_].
        rewrite insert_insert_eq in Hrel. simpl in Hrel.
        erewrite bind_Ok; cycle 1.
        { apply unwinding_Ok.
          erewrite bind_Ok; [| exact Hrel].
          apply (destroy_n_slots E _ (Some <$> xs') _ _ _ _ _ a 0 []
                   (replicate (cap - length xs) None)).
          - by rewrite length_fmap.
          - by rewrite lookup_insert_eq.
          - done.
          - right. apply Forall_fmap, Forall_true. intros x. by eexists. }
        rewrite insert_insert_eq.
        unfold RawMem.Swap.
        cbn [get_this get_rhs set_this set_rhs buffer_ capacity_ data_ size_].
        rewrite (bind_Ok _ _ _ _ _ (set_data_Ok _ _ _ _ _ _ _ _ Ho)).
        erewrite RawMemory_dtor_Ok; [| by rewrite lookup_insert_eq].
        simpl. rewrite <- replicate_add, live_objects_raw. simpl.
        rewrite delete_insert_eq, delete_insert_ne by done.
        by rewrite Nat.add_0_r.
      - subst cap. destruct xs; [|simpl in Hle; lia].
        exists (S t). split; [lia|].
        unfold Vec.Reserve. rewrite (bind_Ok _ _ _ _ _ (obj_Ok _ _ _ _ _ _ _ Ho)).
        unfold RawMem.Capacity, RawMem.GetAddress. cbn [size_ data_ capacity_ buffer_].
        destruct (decide (new_capacity ≤ 0)); [lia|].
        erewrite bind_Ok; [| apply RawMemory_ctor_Ok; [lia | by apply Hc]].
        fold a'. cbn [buffer_ length].
        erewrite bind_Ok; cycle 1.
        { apply unwinding_Ok. destruct (Vec.relocate_by_move E); reflexivity. }
        unfold RawMem.Swap.
        cbn [get_this get_rhs set_this set_rhs buffer_ capacity_ data_ size_].
        rewrite (bind_Ok _ _ _ _ _ (set_data_Ok _ _ _ _ _ _ _ _ Ho)).
        rewrite RawMemory_dtor_null. unfold m', v', block_image. simpl.
        by rewrite Nat.sub_0_r. }
    exists (mkWorld m' (<[this := v']> o) t' s l), v'.
    cbn [objs]. split; [exact Hrun|]. split; [by rewrite lookup_insert_eq|].
    split.
    { unfold holds, v'. cbn [size_ data_ buffer_ capacity_ mem].
      split; [done|]. split; [lia|]. split; [done|]. split; [lia|].
      unfold m'. by rewrite lookup_insert_eq. }
    split; [done|]. split; [cbn; lia|].
    intros j Hj. cbn [tick schedule] in *. apply Hc. cbn [tick]. lia.
Qed.

(** [Resize]: the first [new_size] elements, then value-initialised ones. *)
Lemma Resize_Ok (w : world T) this v xs new_size :
  objs w !! this = Some v → holds w v xs → fits new_size → calm w →
  ∃ w' v', Vec.Resize E this new_size w = (Ok tt, w') ∧
           objs w' !! this = Some v' ∧
           holds w' v' (take new_size xs ++
                        replicate (new_size - length xs) (value_initialized E)) ∧
           Vec.Size v' = new_size.
Proof.
  intros Ho Hh Hfit Hc.
  destruct (decide (new_size < length xs)) as [Hshrink|Hgrow].
  - (* fewer elements: the tail is destroyed *)
    pose proof Hh as (Hn & Hle & Hfc & Hb).
    destruct w as [m o t s l]. destruct v as [[buf cap] n].
    cbn [size_ data_ buffer_ capacity_ mem objs tick schedule] in *. subst n.
    destruct buf as [a|]; [|lia]. destruct Hb as [_ Hm].
    replace (new_size - length xs) with 0 by lia. simpl. rewrite app_nil_r.
    exists (mkWorld (<[a := block_image (take new_size xs) cap]> m)
              (<[this := mkVector (mkRawMemory (Some a) cap) new_size]> o) t s l),
      (mkVector (mkRawMemory (Some a) cap) new_size).
    cbn [objs]. split.
    { unfold Vec.Resize. rewrite (bind_Ok _ _ _ _ _ (obj_Ok _ _ _ _ _ _ _ Ho)).
      cbn [size_ data_]. destruct (decide (new_size < length xs)); [|lia].
      erewrite bind_Ok; cycle 1.
      { erewrite bind_Ok; [| apply RawMemory_plus_Ok; simpl; lia]. cbn [buffer_].
        rewrite sz_sub_le by first [lia | eapply fits_le; [|exact Hfc]; lia].
        apply (destroy_n_slots E _ (Some <$> drop new_size xs) _ _ _ _ _ a new_size
                 (Some <$> take new_size xs) (replicate (cap - length xs) None)).
        - rewrite length_fmap, length_drop. lia.
        - rewrite Hm. unfold block_image.
          by rewrite app_assoc, <- fmap_app, take_drop.
        - rewrite length_fmap, length_take. lia.
        - right. apply Forall_fmap, Forall_true. intros x. by eexists. }
      erewrite set_size_Ok; [|done]. cbn [data_].
      do 3 f_equal. unfold block_image.
      rewrite length_take, <- replicate_add. do 2 f_equal. lia. }
    split; [by rewrite lookup_insert_eq|].
    split; [|done].
    unfold holds. cbn [size_ data_ buffer_ capacity_ mem].
    rewrite length_take. split; [lia|]. split; [lia|]. split; [done|].
    split; [lia|]. by rewrite lookup_insert_eq.
  - (* as many or more: room is made, then the new slots are filled *)
    rewrite take_ge by lia.
    assert (size_ v = length xs) as Hsz by by destruct Hh.
    assert (∃ w1 v1, (if decide (Vec.Capacity v < new_size)
                      then Vec.Reserve E this new_size else mret tt) w = (Ok tt, w1) ∧
                     objs w1 !! this = Some v1 ∧ holds w1 v1 xs ∧
                     new_size ≤ capacity_ (data_ v1) ∧ calm w1)
      as (w1 & v1 & Hrun1 & Ho1 & Hh1 & Hcap1 & Hc1).
    { destruct (decide (Vec.Capacity v < new_size)) as [Hlt|Hge].
      - destruct (Reserve_Ok w this v xs new_size Ho Hh Hfit Hc)
          as (w1 & v1 & Hr & Ho1 & Hh1 & _ & Hcap & Hc1).
        exists w1, v1. split; [done|]. split; [done|]. split; [done|]. split; [|done].
        unfold Vec.Capacity, RawMem.Capacity in Hcap. lia.
      - exists w, v. split; [done|]. split; [done|]. split; [done|]. split; [|done].
        unfold Vec.Capacity, RawMem.Capacity in Hge. lia. }
    pose proof Hh1 as (Hn & Hle & Hfc & Hb).
    destruct w1 as [m o t s l]. destruct v1 as [[buf cap] n].
    cbn [size_ data_ buffer_ capacity_ mem objs tick schedule] in *. subst n.
    set (k := new_size - length xs).
    set (ys := xs ++ replicate k (value_initialized E)).
    assert (length ys = new_size) as Hlen
      by (unfold ys, k; rewrite length_app, length_replicate; lia).
    assert (Vec.obj this w = (Ok v, w)) as Hobj.
    { unfold Vec.obj. destruct w as [m0 o0 t0 s0 l0]. cbn [objs] in *. by rewrite Ho. }
    destruct buf as [a|].
    + destruct Hb as [Hc0 Hm].
      set (v' := mkVector (mkRawMemory (Some a) cap) new_size).
      exists (mkWorld (<[a := block_image ys cap]> m) (<[this := v']> o) (t + k) s l), v'.
      cbn [objs]. split.
      { unfold Vec.Resize. rewrite (bind_Ok _ _ _ _ _ Hobj).
        rewrite Hsz. destruct (decide (new_size < length xs)); [lia|].
        erewrite bind_Ok; cycle 1.
        { rewrite (bind_Ok _ _ _ _ _ Hrun1).
          rewrite (bind_Ok _ _ _ _ _ (obj_Ok _ _ _ _ _ _ _ Ho1)). cbn [size_ data_].
          erewrite bind_Ok; [| apply RawMemory_plus_Ok; simpl; lia]. cbn [buffer_].
          rewrite sz_sub_le by first [lia | done].
          fold k.
          pose proof (uninitialized_value_construct_n_Ok (replicate k None)
                        m o t s l a (length xs) (Some <$> xs)
                        (replicate (cap - new_size) None)) as Hfill.
          rewrite length_replicate in Hfill. apply Hfill.
          - rewrite Hm. unfold block_image. rewrite <- replicate_add.
            do 3 f_equal. unfold k. lia.
          - by rewrite length_fmap.
          - intros j Hj. by apply Hc1; simpl; lia. }
        erewrite set_size_Ok; [|done]. cbn [data_]. do 3 f_equal.
        unfold block_image, ys. rewrite fmap_app, fmap_replicate, <- app_assoc.
        fold ys. rewrite Hlen. done. }
      split; [by rewrite lookup_insert_eq|].
      split; [|done].
      unfold holds, v'. cbn [size_ data_ buffer_ capacity_ mem].
      split; [done|]. split; [lia|]. split; [done|].
      split; [done|]. by rewrite lookup_insert_eq.
    + assert (k = 0) as Hk by (unfold k; lia).
      set (v' := mkVector (mkRawMemory None cap) new_size).
      exists (mkWorld m (<[this := v']> o) t s l), v'.
      cbn [objs]. split.
      { unfold Vec.Resize. rewrite (bind_Ok _ _ _ _ _ Hobj).
        rewrite Hsz. destruct (decide (new_size < length xs)); [lia|].
        erewrite bind_Ok; cycle 1.
        { rewrite (bind_Ok _ _ _ _ _ Hrun1).
          rewrite (bind_Ok _ _ _ _ _ (obj_Ok _ _ _ _ _ _ _ Ho1)). cbn [size_ data_].
          erewrite bind_Ok; [| apply RawMemory_plus_Ok; simpl; lia]. cbn [buffer_].
          rewrite sz_sub_le by first [lia | done].
          fold k. rewrite Hk. apply run_ret. }
        erewrite set_size_Ok; [|done]. done. }
      split; [by rewrite lookup_insert_eq|].
      split; [|done].
      unfold holds, v'. cbn [size_ data_ buffer_ capacity_ mem].
      split; [done|]. split; [lia|]. split; [done|]. done.
Qed.

(** [PopBack] on a non-empty vector. *)
Lemma PopBack_holds (w : world T) this v xs x :
  objs w !! this = Some v → holds w v (xs ++ [x]) →
  ∃ w', Vec.PopBack E this w = (Ok tt, w') ∧
        objs w' !! this = Some (mkVector (data_ v) (length xs)) ∧
        holds w' (mkVector (data_ v) (length xs)) xs.
Proof.
  intros Ho Hh. pose proof Hh as (Hn & Hle & Hfc & Hb).
  destruct w as [m o t s l]. destruct v as [[buf cap] n].
  rewrite length_app in *. simpl in Hn, Hle.
  cbn [size_ data_ buffer_ capacity_ mem objs tick schedule] in *. subst n.
  destruct buf as [a|]; [|lia]. destruct Hb as [_ Hm].
  exists (mkWorld (<[a := block_image xs cap]> m)
            (<[this := mkVector (mkRawMemory (Some a) cap) (length xs)]> o) t s l).
  cbn [objs]. split.
  { apply (PopBack_Ok E _ _ _ _ _ this a cap xs x).
    - rewrite Ho. by rewrite Nat.add_1_r.
    - rewrite Hm. by rewrite block_image_snoc.
    - lia.
    - done. }
  split; [by rewrite lookup_insert_eq|].
  unfold holds. cbn [size_ data_ buffer_ capacity_ mem].
  split; [done|]. split; [lia|]. split; [done|]. split; [lia|].
  by rewrite lookup_insert_eq.
Qed.

(** [Swap] exchanges the two vectors, blocks and sizes. *)
Lemma Swap_holds (w : world T) this other vt vo xs ys :
  this ≠ other → objs w !! this = Some vt → objs w !! other = Some vo →
  holds w vt xs → holds w vo ys →
  ∃ w', Vec.Swap this other w = (Ok tt, w') ∧
        objs w' !! this = Some vo ∧ objs w' !! other = Some vt ∧
        holds w' vo ys ∧ holds w' vt xs.
Proof.
  intros Hne Hot Hoo Hht Hho. destruct w as [m o t s l]. cbn [objs] in *.
  exists (mkWorld m (<[other := vt]> (<[this := vo]> o)) t s l).
  cbn [objs]. split; [by apply Swap_Ok|].
  split; [rewrite lookup_insert_ne by done; by rewrite lookup_insert_eq|].
  split; [by rewrite lookup_insert_eq|]. done.
Qed.

(** The copy constructor: a new block of exactly [other.Size()] slots. *)
Lemma ctor_copy_holds (w : world T) this other vo ys :
  objs w !! other = Some vo → objs w !! this = None → holds w vo ys → calm w →
  ∃ w' v, Vec.ctor_copy E this other w = (Ok tt, w') ∧
          objs w' !! this = Some v ∧ holds w' v ys ∧
          Vec.Capacity v = length ys ∧
          objs w' !! other = Some vo ∧ holds w' vo ys.
Proof.
  intros Hoo Hot Hh Hc. pose proof Hh as (Hn & Hle & Hfc & Hb).
  assert (other ≠ this) as Hne by (intros ->; by rewrite Hot in Hoo).
  destruct w as [m o t s l]. destruct vo as [[buf cap] n].
  cbn [size_ data_ buffer_ capacity_ mem objs tick schedule] in *. subst n.
  destruct (decide (length ys = 0)) as [Hz|Hnz].
  - destruct ys; [|done].
    exists (mkWorld m (<[this := mkVector (mkRawMemory None 0) 0]> o) t s l),
      (mkVector (mkRawMemory None 0) 0).
    cbn [objs]. split.
    { unfold Vec.ctor_copy. rewrite (bind_Ok _ _ _ _ _ (obj_Ok _ _ _ _ _ _ _ Hoo)).
      unfold Vec.Size. cbn [size_ length].
      rewrite (bind_Ok _ _ _ _ _ (RawMemory_ctor_zero _)).
      rewrite (bind_Ok _ _ _ _ _ (new_obj_Ok _ _ _ _ _ _ _ Hot)).
      apply unwinding_Ok.
      erewrite bind_Ok; [| apply obj_Ok; by rewrite lookup_insert_eq].
      erewrite bind_Ok; [| apply obj_Ok; by rewrite lookup_insert_ne]. done. }
    split; [by rewrite lookup_insert_eq|]. split; [by repeat split|].
    split; [done|]. split; [by rewrite lookup_insert_ne|]. done.
  - destruct buf as [a|]; [|lia]. destruct Hb as [Hc0 Hm].
    set (a' := fresh (dom m)).
    assert (a ≠ a') as Hna by by eapply fresh_block_other.
    set (v := mkVector (mkRawMemory (Some a') (length ys)) (length ys)).
    exists (mkWorld (<[a' := Some <$> ys]> m) (<[this := v]> o) (t + (1 + length ys)) s l), v.
    cbn [objs]. split.
    { eapply ctor_copy_Ok; [exact Hoo | exact Hot | exact Hm | done |].
      intros j Hj. apply Hc. simpl. lia. }
    split; [by rewrite lookup_insert_eq|].
    split.
    { unfold holds, v. cbn [size_ data_ buffer_ capacity_ mem].
      split; [done|]. split; [done|]. split; [by eapply fits_le|].
      split; [done|]. by rewrite lookup_insert_eq, block_image_full. }
    split; [done|]. split; [by rewrite lookup_insert_ne|].
    unfold holds. cbn [size_ data_ buffer_ capacity_ mem].
    split; [done|]. split; [done|]. split; [done|]. split; [done|].
    by rewrite lookup_insert_ne.
Qed.

End ConstructionAndCapacity.

(** * The theorems at concrete vectors *)

Ltac concrete_holds :=
  unfold holds, fits; cbn;
  repeat match goal with
         | |- _ ∧ _ => split
         | |- _ ≠ _ => discriminate
         | |- _ = _ => reflexivity
         | |- (_ < _)%Z => reflexivity
         | |- _ ≤ _ => lia
         end.

Ltac concrete_calm := intros ? ?; reflexivity.

(** C2 at the vector [1; 2; 3] of a copyable type, the copy of element 1
    throwing. *)
Lemma EmplaceBack_failed_relocation_witness :
  let w := Sample.one_vector [1; 2; 3] (Sample.only_at 3 (std_exception 0)) in
  let v := mkVector (mkRawMemory (Some 1%positive) 3) 3 in
  ∃ w', Vec.EmplaceBack Sample.Copyable 1%positive 9 w = (Throw (std_exception 0), w') ∧
        objs w' = objs w ∧ leaked w' = leaked w ∧
        elements w' v = Some [1; 2; 3] ∧ mem w' = mem w.
Proof.
  intros w v.
  apply (EmplaceBack_failed_relocation Sample.Copyable w 1%positive v [1; 2; 3] 9 1
           (std_exception 0)).
  - reflexivity.
  - concrete_holds.
  - reflexivity.
  - unfold fits. reflexivity.
  - reflexivity.
  - reflexivity.
  - reflexivity.
  - simpl. lia.
  - split.
    + intros j Hj. unfold w, Sample.one_vector, Sample.only_at. simpl.
      destruct (decide (j = 3)); [lia | reflexivity].
    + reflexivity.
Defined.

(** C6 at the full vector [1; 2; 3], inserting at position 1. *)
Lemma insertion_growth_policy_witness :
  let w := Sample.one_vector [1; 2; 3] Sample.never in
  let v := mkVector (mkRawMemory (Some 1%positive) 3) 3 in
  (∃ r w' v', Vec.EmplaceBack Sample.Int 1%positive 9 w = (Ok r, w') ∧
              objs w' !! 1%positive = Some v' ∧ growth_policy v v') ∧
  (∃ w' v', Vec.PushBack Sample.Int 1%positive 9 w = (Ok tt, w') ∧
            objs w' !! 1%positive = Some v' ∧ growth_policy v v') ∧
  (∃ r w' v', Vec.Emplace Sample.Int 1%positive (Ptr (Some 1%positive) 1) 9 w = (Ok r, w') ∧
              objs w' !! 1%positive = Some v' ∧ growth_policy v v') ∧
  (∃ r w' v', Vec.Insert Sample.Int 1%positive (Ptr (Some 1%positive) 1) 9 w = (Ok r, w') ∧
              objs w' !! 1%positive = Some v' ∧ growth_policy v v').
Proof.
  intros w v.
  apply (insertion_growth_policy Sample.Int w 1%positive v [1; 2; 3] 9 1).
  - reflexivity.
  - concrete_holds.
  - intros _. unfold fits. reflexivity.
  - concrete_calm.
  - simpl. lia.
Defined.

(** C10 at the vector [1; 2; 3] with one spare slot, inserting at position 1. *)
Lemma insertion_returns_the_new_element_witness :
  let w := Sample.roomy_vector [1; 2; 3] 1 Sample.never in
  ∃ r w' v', Vec.Emplace Sample.Int 1%positive (Ptr (Some 1%positive) 1) 9 w = (Ok r, w') ∧
             objs w' !! 1%positive = Some v' ∧
             r = Ptr (buffer_ (data_ v')) 1 ∧
             pointee w' r = Some 9 ∧
             elements w' v' = Some [1; 9; 2; 3].
Proof.
  intros w.
  apply (insertion_returns_the_new_element Sample.Int w 1%positive
           (mkVector (mkRawMemory (Some 1%positive) 4) 3) [1; 2; 3] 9 1).
  - reflexivity.
  - concrete_holds.
  - simpl. lia.
  - concrete_calm.
  - simpl. lia.
Defined.

(** C9 at the vector [1; 2] with one spare slot, the constructor throwing. *)
Lemma EmplaceBack_with_room_witness :
  let w := Sample.roomy_vector [1; 2] 1 (Sample.only_at 0 (std_exception 7)) in
  let v := mkVector (mkRawMemory (Some 1%positive) 3) 2 in
  ∃ w', Vec.EmplaceBack Sample.Int 1%positive 9 w = (Throw (std_exception 7), w') ∧
        objs w' = objs w ∧ mem w' = mem w ∧ elements w' v = Some [1; 2].
Proof.
  intros w v.
  apply (EmplaceBack_with_room Sample.Int w 1%positive v [1; 2] 9).
  - reflexivity.
  - concrete_holds.
  - simpl. lia.
  - reflexivity.
Defined.

(** C8 at the vector [1; 2; 3], erasing position 1. *)
Lemma Erase_shifts_left_witness :
  let w := Sample.one_vector [1; 2; 3] Sample.never in
  ∃ w' v',
    Vec.Erase Sample.Int 1%positive (Ptr (Some 1%positive) 1) w
    = (Ok (Ptr (buffer_ (data_ v')) 1), w') ∧
    objs w' !! 1%positive = Some v' ∧
    Vec.Size v' = 2 ∧
    elements w' v' = Some [1; 3] ∧
    pointee w' (Ptr (buffer_ (data_ v')) 1) = Some 3.
Proof.
  intros w.
  destruct (Erase_shifts_left Sample.Int w 1%positive
              (mkVector (mkRawMemory (Some 1%positive) 3) 3) [1; 2; 3] 1)
    as (w' & v' & Hrun & Ho & _ & Hs & He & _ & _ & Hp & _).
  - reflexivity.
  - concrete_holds.
  - simpl. lia.
  - concrete_calm.
  - exists w', v'. repeat split; assumption.
Defined.

(** C7 at a destination [7; 8; 9] and a source [1; 2]: the assignment is
    in place and the element [9] beyond the source's size is destroyed. *)
Lemma copy_assignment_witness :
  let w := Sample.two_vectors [7; 8; 9] [1; 2] 0 Sample.never in
  let src := mkVector (mkRawMemory (Some 2%positive) 2) 2 in
  ∃ w' dst,
    Vec.assign_copy Sample.Int 1%positive 2%positive w = (Ok tt, w') ∧
    objs w' !! 1%positive = Some dst ∧
    Vec.Size dst = 2 ∧ elements w' dst = Some [1; 2] ∧
    objs w' !! 2%positive = Some src ∧ elements w' src = Some [1; 2] ∧
    mem w' !! 1%positive = Some [Some 1; Some 2; None] ∧
    leaked w' = leaked w.
Proof.
  intros w src.
  destruct (copy_assignment Sample.Int w 1%positive 2%positive
              (mkVector (mkRawMemory (Some 1%positive) 3) 3) src [7; 8; 9] [1; 2])
    as [_ Hfit].
  - discriminate.
  - reflexivity.
  - reflexivity.
  - concrete_holds.
  - concrete_holds.
  - discriminate.
  - destruct Hfit
      as (w' & dst & Hrun & _ & Ho & _ & Hs & He & Hor & Her & _ & _ & Hblk & _ & Hleak).
    + unfold Vec.Capacity, Vec.Size, RawMem.Capacity; simpl; lia.
    + concrete_calm.
    + exists w', dst. split; [exact Hrun|]. split; [exact Ho|]. split; [exact Hs|].
      split; [exact He|]. split; [exact Hor|]. split; [exact Her|].
      split; [|exact Hleak]. exact (Hblk 1%positive eq_refl).
Defined.

(** * Construction, destruction and exchange of vectors *)

Section Construction.
Context {T : Type} (E : element_type T).
Implicit Types (m : gmap positive (list (option T)))
  (o : gmap positive Vector) (s : nat → option exn) (xs ys : list T)
  (pre post olds : list (option T)).

(** The [k]-th value construction throws: the [k] objects made are
    destroyed again. *)
Lemma uninitialized_value_construct_n_Throw olds : ∀ k e m o t s l a i pre post,
  m !! a = Some (pre ++ olds ++ post) → i = length pre →
  k < length olds →
  (∀ j, j < k → s (t + j) = None) → s (t + k) = Some e →
  uninitialized_value_construct_n E (Ptr (Some a) i) (length olds) (mkWorld m o t s l)
  = (Throw e,
     mkWorld (<[a := pre ++ replicate k None ++ drop k olds ++ post]> m) o (t + S k) s l).
Proof.
  induction olds as [|x olds IH]; intros k e m o t s l a i pre post Hm Hi Hk Hs He;
    simpl in *; [lia|].
  destruct k as [|k].
  - rewrite Nat.add_0_r in He. unfold value_construct.
    erewrite bind_Throw; cycle 1.
    { erewrite bind_Throw; [reflexivity|]. by apply fallible_Throw. }
    simpl. rewrite insert_id by done. do 2 f_equal. lia.
  - assert (s t = None) as Hs0.
    { specialize (Hs 0 ltac:(lia)). by rewrite Nat.add_0_r in Hs. }
    rewrite (bind_Ok _ _ _ _ _ (value_construct_Ok E _ _ _ _ _ _ _ _ _ _ Hm Hi Hs0)).
    rewrite !ptr_add_Ptr.
    erewrite try_catch_all_Throw; cycle 1.
    { apply (IH k e _ _ _ _ _ a (i + 1) (pre ++ [Some (value_initialized E)]) post).
      + rewrite lookup_insert_eq. by rewrite <- app_assoc.
      + rewrite length_app; simpl. lia.
      + lia.
      + intros j Hj. specialize (Hs (S j) ltac:(lia)).
        by replace (S t + j) with (t + S j) by lia.
      + by replace (S t + k) with (t + S k) by lia. }
    rewrite insert_insert_eq, <- app_assoc. simpl.
    erewrite bind_Ok; cycle 1.
    { eapply (destroy_at_Ok E _ _ _ _ _ a i pre _ (Some (value_initialized E))).
      - by rewrite lookup_insert_eq.
      - done.
      - right. by eexists. }
    rewrite insert_insert_eq. unfold throw. do 2 f_equal. f_equal. lia.
Qed.




End Construction.

Section ConstructionProperties.
Context {T : Type} (E : element_type T).
Implicit Types (w : world T) (v : Vector) (xs ys : list T).



(** X3. The copy constructor, when nothing throws, makes a vector with the
    elements of [other] in a new block of exactly [other.Size()] slots,
    whatever the capacity of [other]; [other], its block and every other
    block are untouched. *)
Theorem copy_construction w this other vo ys :
  objs w !! other = Some vo → objs w !! this = None → holds w vo ys → calm w →
  ∃ w' v, Vec.ctor_copy E this other w = (Ok tt, w') ∧
          objs w' = <[this := v]> (objs w) ∧
          holds w' v ys ∧ Vec.Capacity v = length ys ∧
          holds w' vo ys ∧
          (ys ≠ [] → buffer_ (data_ v) ≠ buffer_ (data_ vo)) ∧
          (∀ b blk, mem w !! b = Some blk → mem w' !! b = Some blk) ∧
          leaked w' = leaked w.
Proof.
  intros Hoo Hot Hh Hc. pose proof Hh as (Hn & Hle & Hfc & Hb).
  assert (other ≠ this) as Hne by (intros ->; by rewrite Hot in Hoo).
  destruct w as [m o t s l]. destruct vo as [[buf cap] n].
  cbn [size_ data_ buffer_ capacity_ mem objs tick schedule leaked] in *. subst n.
  destruct (decide (length ys = 0)) as [Hz|Hnz].
  - destruct ys; [|done].
    exists (mkWorld m (<[this := mkVector (mkRawMemory None 0) 0]> o) t s l),
      (mkVector (mkRawMemory None 0) 0).
    cbn [objs mem leaked]. split.
    { unfold Vec.ctor_copy. rewrite (bind_Ok _ _ _ _ _ (obj_Ok _ _ _ _ _ _ _ Hoo)).
      unfold Vec.Size. cbn [size_ length].
      rewrite (bind_Ok _ _ _ _ _ (RawMemory_ctor_zero _)).
      rewrite (bind_Ok _ _ _ _ _ (new_obj_Ok _ _ _ _ _ _ _ Hot)).
      apply unwinding_Ok.
      erewrite bind_Ok; [| apply obj_Ok; by rewrite lookup_insert_eq].
      erewrite bind_Ok; [| apply obj_Ok; by rewrite lookup_insert_ne]. done. }
    by repeat split.
  - destruct buf as [a|]; [|lia]. destruct Hb as [Hc0 Hm].
    set (a' := fresh (dom m)).
    assert (a ≠ a') as Hna by by eapply fresh_block_other.
    set (v := mkVector (mkRawMemory (Some a') (length ys)) (length ys)).
    exists (mkWorld (<[a' := Some <$> ys]> m) (<[this := v]> o) (t + (1 + length ys)) s l), v.
    cbn [objs mem leaked]. split.
    { eapply ctor_copy_Ok; [exact Hoo | exact Hot | exact Hm | done |].
      intros j Hj. apply Hc. simpl. lia. }
    split; [done|]. split.
    { unfold holds, v. cbn [size_ data_ buffer_ capacity_ mem].
      split; [done|]. split; [done|]. split; [by eapply fits_le|].
      split; [done|]. by rewrite lookup_insert_eq, block_image_full. }
    split; [done|]. split.
    { unfold holds. cbn [size_ data_ buffer_ capacity_ mem].
      split; [done|]. split; [done|]. split; [done|]. split; [done|].
      by rewrite lookup_insert_ne. }
    split; [intros _; unfold v; cbn; congruence|]. split; [|done].
    intros b blk Hb. rewrite lookup_insert_ne; [done|].
    intros <-. unfold a' in Hb. by rewrite fresh_block_unused in Hb.
Qed.

(** X4. When the copy constructor fails, nothing is left behind: if the
    allocation fails ([k = 0]) [std::bad_alloc] leaves it, if the copy of
    element [k - 1] throws, that exception does; the copies already made
    are destroyed, the block is released, no object is created and the
    heap is as before. *)
Theorem copy_construction_fails w this other vo ys k e :
  objs w !! other = Some vo → objs w !! this = None → holds w vo ys →
  k ≤ length ys → ys ≠ [] → throws_after w k e →
  ∃ w', Vec.ctor_copy E this other w
        = (Throw (if decide (k = 0) then bad_alloc else e), w') ∧
        objs w' = objs w ∧ mem w' = mem w ∧ leaked w' = leaked w.
Proof.
  intros Hoo Hot Hh Hk Hys [Hs He]. pose proof Hh as (Hn & Hle & Hfc & Hb).
  destruct w as [m o t s l]. destruct vo as [[buf cap] n].
  cbn [size_ data_ buffer_ capacity_ mem objs tick schedule leaked] in *. subst n.
  assert (length ys ≠ 0) as Hnz by (by destruct ys).
  destruct buf as [a|]; [|lia]. destruct Hb as [Hc0 Hm].
  destruct k as [|k].
  - exists (mkWorld m o (S t) s l). split; [|done].
    rewrite Nat.add_0_r in He. simpl. unfold Vec.ctor_copy.
    rewrite (bind_Ok _ _ _ _ _ (obj_Ok _ _ _ _ _ _ _ Hoo)).
    unfold Vec.Size. cbn [size_].
    erewrite bind_Throw; [reflexivity|]. by eapply RawMemory_ctor_Throw.
  - exists (mkWorld m o (t + (2 + k)) s l). split; [|done].
    simpl. eapply ctor_copy_Throw; [exact Hoo | exact Hot | exact Hm | lia | done | done].
Qed.

End ConstructionProperties.

Section CopiesAndMoves.
Context {T : Type} (E : element_type T).
Implicit Types (w : world T) (v : Vector) (xs ys : list T)
  (m : gmap positive (list (option T))).

(** X5. A copy does not compare equal to its original: after
    [Vector copy(other)] the two vectors have the same elements, yet
    [copy == other] is true only when [other] has no storage at all
    (capacity 0), and [copy != other] is false as well. *)
Theorem copy_compares_unequal w this other vo ys :
  objs w !! other = Some vo → objs w !! this = None → holds w vo ys → calm w →
  ∃ w' v, Vec.ctor_copy E this other w = (Ok tt, w') ∧
          objs w' !! this = Some v ∧
          elements w' v = Some ys ∧ elements w' vo = Some ys ∧
          Vec.neq v vo = false ∧
          (Vec.eq v vo = true ↔ Vec.Capacity vo = 0).
Proof.
  intros Hoo Hot Hh Hc. pose proof Hh as (Hn & Hle & Hfc & Hb).
  assert (other ≠ this) as Hne by (intros ->; by rewrite Hot in Hoo).
  destruct w as [m o t s l]. destruct vo as [[buf cap] n].
  cbn [size_ data_ buffer_ capacity_ mem objs tick schedule leaked] in *. subst n.
  unfold Vec.neq, Vec.eq, RawMem.neq, RawMem.eq, Vec.Capacity, Vec.Size, Vec.Data,
    RawMem.Capacity, RawMem.GetAddress, ptr_eqb.
  destruct (decide (length ys = 0)) as [Hz|Hnz].
  - destruct ys; [|done].
    exists (mkWorld m (<[this := mkVector (mkRawMemory None 0) 0]> o) t s l),
      (mkVector (mkRawMemory None 0) 0).
    cbn [objs mem size_ data_ buffer_ capacity_ length]. split.
    { unfold Vec.ctor_copy. rewrite (bind_Ok _ _ _ _ _ (obj_Ok _ _ _ _ _ _ _ Hoo)).
      unfold Vec.Size. cbn [size_ length].
      rewrite (bind_Ok _ _ _ _ _ (RawMemory_ctor_zero _)).
      rewrite (bind_Ok _ _ _ _ _ (new_obj_Ok _ _ _ _ _ _ _ Hot)).
      apply unwinding_Ok.
      erewrite bind_Ok; [| apply obj_Ok; by rewrite lookup_insert_eq].
      erewrite bind_Ok; [| apply obj_Ok; by rewrite lookup_insert_ne]. done. }
    split; [by rewrite lookup_insert_eq|]. split; [done|].
    split; [by apply (holds_elements (mkWorld m o t s l))|].
    split; [by rewrite andb_false_r|].
    destruct buf as [a|].
    + destruct Hb as [Hc0 _]. split; [|done].
      rewrite andb_true_r, andb_true_iff, bool_decide_eq_true. intros [_ ?]. done.
    + subst cap. done.
  - destruct buf as [a|]; [|lia]. destruct Hb as [Hc0 Hm].
    set (a' := fresh (dom m)).
    assert (a ≠ a') as Hna by by eapply fresh_block_other.
    set (v := mkVector (mkRawMemory (Some a') (length ys)) (length ys)).
    exists (mkWorld (<[a' := Some <$> ys]> m) (<[this := v]> o) (t + (1 + length ys)) s l), v.
    cbn [objs mem size_ data_ buffer_ capacity_]. split.
    { eapply ctor_copy_Ok; [exact Hoo | exact Hot | exact Hm | done |].
      intros j Hj. apply Hc. simpl. lia. }
    split; [by rewrite lookup_insert_eq|]. split.
    { apply holds_elements. unfold holds, v. cbn [size_ data_ buffer_ capacity_ mem].
      split; [done|]. split; [done|]. split; [by eapply fits_le|].
      split; [done|]. by rewrite lookup_insert_eq, block_image_full. }
    split.
    { apply holds_elements. unfold holds. cbn [size_ data_ buffer_ capacity_ mem].
      split; [done|]. split; [done|]. split; [done|]. split; [done|].
      by rewrite lookup_insert_ne. }
    rewrite Nat.eqb_refl, andb_false_r, andb_true_r.
    split; [done|]. split; [|done].
    rewrite andb_true_iff, bool_decide_eq_true. unfold v. cbn [data_ buffer_].
    intros [_ ?]. congruence.
Qed.

(** X6. The move constructor hands the block over: the new vector has the
    buffer, capacity and size of [other], hence its elements; [other] is
    left with a null buffer, capacity 0 and size 0. No element is touched,
    nothing is allocated and nothing can throw. *)
Theorem move_construction w this other vo ys :
  objs w !! other = Some vo → objs w !! this = None → holds w vo ys →
  ∃ w', Vec.ctor_move this other w = (Ok tt, w') ∧
        objs w' = <[other := mkVector RawMem.default 0]> (<[this := vo]> (objs w)) ∧
        mem w' = mem w ∧ tick w' = tick w ∧ leaked w' = leaked w ∧
        holds w' vo ys ∧ holds w' (mkVector RawMem.default 0) [].
Proof.
  intros Hoo Hot Hh.
  assert (other ≠ this) as Hne by (intros ->; by rewrite Hot in Hoo).
  pose proof (RawMemory_move_ctor_spec _ (holds_null_iff_empty _ _ _ Hh)) as Hmv.
  destruct w as [m o t s l]. cbn [objs mem tick leaked] in *.
  exists (mkWorld m (<[other := mkVector RawMem.default 0]> (<[this := vo]> o)) t s l).
  cbn [objs mem tick leaked].
  split.
  { unfold Vec.ctor_move.
    rewrite (bind_Ok _ _ _ _ _ (obj_Ok _ _ _ _ _ _ _ Hoo)). rewrite Hmv.
    rewrite (bind_Ok _ _ _ _ _ (set_data_Ok _ _ _ _ _ _ _ _ Hoo)).
    erewrite bind_Ok; [| apply obj_Ok; by rewrite lookup_insert_eq]. cbn [size_ data_].
    erewrite bind_Ok; [| apply new_obj_Ok; by rewrite lookup_insert_ne].
    erewrite set_size_Ok;
      [| rewrite lookup_insert_ne by done; by rewrite lookup_insert_eq].
    cbn [size_ data_]. do 2 f_equal.
    rewrite (insert_insert_ne _ this other) by done.
    rewrite insert_insert_eq. by destruct vo. }
  split; [done|]. split; [done|]. split; [done|]. split; [done|].
  split; [exact Hh|]. by repeat split.
Qed.

(** [Swap] of a vector with itself. *)
Lemma Swap_self m o t s l this vt :
  o !! this = Some vt →
  Vec.Swap this this (mkWorld m o t s l) = (Ok tt, mkWorld m o t s l).
Proof.
  intros Ho. unfold Vec.Swap.
  rewrite (bind_Ok _ _ _ _ _ (obj_Ok _ _ _ _ _ _ _ Ho)).
  rewrite (bind_Ok _ _ _ _ _ (obj_Ok _ _ _ _ _ _ _ Ho)).
  destruct (decide (this = this)) as [_|]; [|done].
  unfold RawMem.Swap. cbn [get_this get_rhs set_this set_rhs buffer_ capacity_].
  assert (<[this := vt]> o = o) as Hid by by apply insert_id.
  assert (mkVector (mkRawMemory (buffer_ (data_ vt)) (capacity_ (data_ vt))) (size_ vt) = vt)
    as Hvt by by destruct vt as [[? ?] ?].
  rewrite (bind_Ok _ _ _ _ _ (set_data_Ok _ _ _ _ _ _ _ _ Ho)). rewrite Hvt, Hid.
  rewrite (bind_Ok _ _ _ _ _ (set_data_Ok _ _ _ _ _ _ _ _ Ho)). rewrite Hvt, Hid.
  rewrite (bind_Ok _ _ _ _ _ (obj_Ok _ _ _ _ _ _ _ Ho)).
  rewrite (bind_Ok _ _ _ _ _ (obj_Ok _ _ _ _ _ _ _ Ho)).
  assert (mkVector (data_ vt) (size_ vt) = vt) as Hvt' by by destruct vt.
  rewrite (bind_Ok _ _ _ _ _ (set_size_Ok _ _ _ _ _ _ _ _ Ho)). rewrite Hvt', Hid.
  rewrite (set_size_Ok _ _ _ _ _ _ _ _ Ho). by rewrite Hvt', Hid.
Qed.

(** X7. [Swap] exchanges the two vectors, buffer, capacity and size,
    without touching an element, allocating or throwing; the heap is the
    same, so each vector now has the elements of the other. Swapping a
    vector with itself changes nothing. *)
Theorem Swap_exchanges w this other vt vo xs ys :
  objs w !! this = Some vt → objs w !! other = Some vo →
  holds w vt xs → holds w vo ys →
  ∃ w', Vec.Swap this other w = (Ok tt, w') ∧
        objs w' = <[other := vt]> (<[this := vo]> (objs w)) ∧
        objs w' !! this = Some vo ∧ objs w' !! other = Some vt ∧
        holds w' vo ys ∧ holds w' vt xs ∧
        mem w' = mem w ∧ tick w' = tick w ∧ leaked w' = leaked w.
Proof.
  intros Hot Hoo Hht Hho. destruct w as [m o t s l]. cbn [objs mem tick leaked] in *.
  destruct (decide (this = other)) as [<-|Hne].
  - assert (vo = vt) as -> by congruence.
    exists (mkWorld m o t s l). cbn [objs mem tick leaked].
    split; [by eapply Swap_self|].
    split; [by rewrite insert_insert_eq, insert_id|]. done.
  - exists (mkWorld m (<[other := vt]> (<[this := vo]> o)) t s l).
    cbn [objs mem tick leaked]. split; [by apply Swap_Ok|]. split; [done|].
    split; [rewrite lookup_insert_ne by done; by rewrite lookup_insert_eq|].
    split; [by rewrite lookup_insert_eq|]. done.
Qed.

(** X8. [Swap] is symmetric and undoes itself: [a.Swap(b)] and [b.Swap(a)]
    end in the same state, and two swaps in a row leave everything as it
    was. *)
Theorem Swap_twice w this other vt vo :
  objs w !! this = Some vt → objs w !! other = Some vo →
  Vec.Swap this other w = Vec.Swap other this w ∧
  (Vec.Swap this other;; Vec.Swap this other) w = (Ok tt, w).
Proof.
  intros Hot Hoo. destruct w as [m o t s l]. cbn [objs] in *.
  destruct (decide (this = other)) as [<-|Hne].
  - split; [done|].
    rewrite (bind_Ok _ _ _ _ _ (Swap_self _ _ _ _ _ _ _ Hot)). by eapply Swap_self.
  - split.
    + rewrite (Swap_Ok _ _ _ _ _ _ _ _ _ Hne Hot Hoo).
      rewrite (Swap_Ok _ _ _ _ _ other this _ _ (not_eq_sym Hne) Hoo Hot).
      do 2 f_equal. by apply insert_insert_ne.
    + rewrite (bind_Ok _ _ _ _ _ (Swap_Ok _ _ _ _ _ _ _ _ _ Hne Hot Hoo)).
      erewrite Swap_Ok;
        [| done | rewrite lookup_insert_ne by done; by rewrite lookup_insert_eq
         | by rewrite lookup_insert_eq].
      do 2 f_equal. apply map_eq. intros j.
      destruct (decide (j = other)) as [->|]; [by rewrite lookup_insert_eq|].
      rewrite lookup_insert_ne by done.
      destruct (decide (j = this)) as [->|]; [by rewrite lookup_insert_eq|].
      by rewrite !lookup_insert_ne by done.
Qed.

End CopiesAndMoves.

Section Lifetime.
Context {T : Type} (E : element_type T).
Implicit Types (w : world T) (v : Vector) (xs ys : list T)
  (m : gmap positive (list (option T))) (o : gmap positive Vector)
  (s : nat → option exn).

(** X9. The destructor destroys the elements, releases the block and ends
    the object: the vector's block is no longer allocated, every other
    block is as before, and no object is leaked. A vector without storage
    is destroyed without touching the heap. *)
Theorem destructor_releases_everything w this v xs :
  objs w !! this = Some v → holds w v xs →
  ∃ w', Vec.dtor E this w = (Ok tt, w') ∧
        objs w' = delete this (objs w) ∧
        mem w' = match buffer_ (data_ v) with
                 | Some a => delete a (mem w)
                 | None => mem w
                 end ∧
        tick w' = tick w ∧ leaked w' = leaked w.
Proof.
  intros Ho Hh. pose proof Hh as (Hn & Hle & Hfc & Hb).
  destruct w as [m o t s l]. destruct v as [[buf cap] n].
  cbn [size_ data_ buffer_ capacity_ mem objs tick leaked] in *. subst n.
  eexists. split.
  - eapply (dtor_Ok E _ _ _ _ _ this buf cap xs); [exact Ho | exact Hle |].
    destruct buf as [a|]; [by destruct Hb|].
    subst cap. by destruct xs; [|simpl in Hle; lia].
  - done.
Qed.

(** X10. A copy that is made and destroyed again leaves no trace:
    [{ Vector temp(other); }] ends with the objects, the heap and the count
    of leaked objects as they were. *)
Theorem copy_then_destroy w this other vo ys :
  objs w !! other = Some vo → objs w !! this = None → holds w vo ys → calm w →
  ∃ w', (Vec.ctor_copy E this other;; Vec.dtor E this) w = (Ok tt, w') ∧
        objs w' = objs w ∧ mem w' = mem w ∧ leaked w' = leaked w.
Proof.
  intros Hoo Hot Hh Hc. pose proof Hh as (Hn & Hle & Hfc & Hb).
  assert (other ≠ this) as Hne by (intros ->; by rewrite Hot in Hoo).
  destruct w as [m o t s l]. destruct vo as [[buf cap] n].
  cbn [size_ data_ buffer_ capacity_ mem objs tick schedule leaked] in *. subst n.
  destruct (decide (length ys = 0)) as [Hz|Hnz].
  - destruct ys; [|done].
    exists (mkWorld m o t s l). split; [|done].
    erewrite bind_Ok; cycle 1.
    { unfold Vec.ctor_copy. rewrite (bind_Ok _ _ _ _ _ (obj_Ok _ _ _ _ _ _ _ Hoo)).
      unfold Vec.Size. cbn [size_ length].
      rewrite (bind_Ok _ _ _ _ _ (RawMemory_ctor_zero _)).
      rewrite (bind_Ok _ _ _ _ _ (new_obj_Ok _ _ _ _ _ _ _ Hot)).
      apply unwinding_Ok.
      erewrite bind_Ok; [| apply obj_Ok; by rewrite lookup_insert_eq].
      erewrite bind_Ok; [| apply obj_Ok; by rewrite lookup_insert_ne]. done. }
    erewrite (dtor_Ok E _ _ _ _ _ this None 0 []);
      [| by rewrite lookup_insert_eq | done | done].
    by rewrite delete_insert_eq, delete_id.
  - destruct buf as [a|]; [|lia]. destruct Hb as [Hc0 Hm].
    set (a' := fresh (dom m)).
    assert (m !! a' = None) as Ha' by apply fresh_block_unused.
    exists (mkWorld m o (t + (1 + length ys)) s l). split; [|done].
    erewrite bind_Ok; cycle 1.
    { eapply ctor_copy_Ok; [exact Hoo | exact Hot | exact Hm | done |].
      intros j Hj. apply Hc. simpl. lia. }
    fold a'.
    erewrite (dtor_Ok E _ _ _ _ _ this (Some a') (length ys) ys);
      [| by rewrite lookup_insert_eq | done
       | by rewrite lookup_insert_eq, block_image_full].
    by rewrite !delete_insert_eq, !delete_id.
Qed.


End Lifetime.

Section Reserving.
Context {T : Type} (E : element_type T).
Implicit Types (w : world T) (v : Vector) (xs ys : list T)
  (m : gmap positive (list (option T))) (o : gmap positive Vector)
  (s : nat → option exn).





End Reserving.

Section Resizing.
Context {T : Type} (E : element_type T).
Implicit Types (w : world T) (v : Vector) (xs ys : list T)
  (m : gmap positive (list (option T))) (o : gmap positive Vector)
  (s : nat → option exn).


End Resizing.

Section AccessAndRemoval.
Context {T : Type} (E : element_type T).
Implicit Types (w : world T) (v : Vector) (xs ys : list T)
  (m : gmap positive (list (option T))) (o : gmap positive Vector)
  (s : nat → option exn).

(** [0 - 1] in [size_t] *)
Lemma sz_sub_wraps : sz_sub 0 1 = Z.to_nat (2 ^ SIZE_WIDTH - 1).
Proof. reflexivity. Qed.

(** [PopBack] on an empty vector, step by step. *)
Lemma PopBack_empty_run m o t s l this d :
  o !! this = Some (mkVector d 0) → fits (capacity_ d) →
  Vec.PopBack E this (mkWorld m o t s l)
  = (Undefined,
     mkWorld m (<[this := mkVector d (Z.to_nat (2 ^ SIZE_WIDTH - 1))]> o) t s l).
Proof.
  intros Ho Hfc. unfold Vec.PopBack.
  rewrite (bind_Ok _ _ _ _ _ (obj_Ok _ _ _ _ _ _ _ Ho)). cbn [size_ data_].
  rewrite (bind_Ok _ _ _ _ _ (set_size_Ok _ _ _ _ _ _ _ _ Ho)). cbn [data_].
  erewrite bind_Ok; [| apply obj_Ok; by rewrite lookup_insert_eq].
  cbn [size_ data_]. rewrite sz_sub_wraps.
  unfold RawMem.at_.
  destruct (decide (Z.to_nat (2 ^ SIZE_WIDTH - 1) < capacity_ d)) as [Hlt|_]; [|done].
  unfold fits, SIZE_WIDTH in *. lia.
Qed.

(** X14. [PopBack] on an empty vector does not return: [--size_] wraps
    around to the largest [size_t], which is stored in the vector, and the
    subscript [data_[size_]] then fails the assertion of [RawMemory] (it is
    out of bounds whatever the capacity). *)
Theorem PopBack_on_empty w this v :
  objs w !! this = Some v → holds w v [] →
  ∃ w', Vec.PopBack E this w = (Undefined, w') ∧
        objs w' !! this = Some (mkVector (data_ v) (Z.to_nat (2 ^ SIZE_WIDTH - 1))) ∧
        mem w' = mem w.
Proof.
  intros Ho (Hn & _ & Hfc & _). destruct w as [m o t s l]. destruct v as [d n].
  cbn [size_ data_ mem objs length] in *. subst n.
  exists (mkWorld m (<[this := mkVector d (Z.to_nat (2 ^ SIZE_WIDTH - 1))]> o) t s l).
  cbn [objs mem]. split; [by apply PopBack_empty_run|].
  by rewrite lookup_insert_eq.
Qed.

(** X15. [PushBack] followed by [PopBack] gives the elements back. When
    the vector had room it is the same vector again, same block, size and
    capacity; when it was full it keeps the larger block the insertion
    moved it to. *)
Theorem PushBack_then_PopBack w this v xs x :
  objs w !! this = Some v → holds w v xs →
  (size_ v = capacity_ (data_ v) → fits (2 * size_ v)) →
  calm w →
  ∃ w' v', (Vec.PushBack E this x;; Vec.PopBack E this) w = (Ok tt, w') ∧
           objs w' !! this = Some v' ∧ holds w' v' xs ∧
           (Vec.Size v < Vec.Capacity v → v' = v) ∧
           (Vec.Size v = Vec.Capacity v → Vec.Capacity v' = 1 `max` (2 * Vec.Size v)).
Proof.
  intros Ho Hh Hfit Hc.
  destruct (EmplaceBack_Ok E w this v xs x Ho Hh Hfit Hc)
    as (w1 & v1 & Hrun1 & Ho1 & Hh1 & Hs1 & Hfull & Hroom & _).
  destruct (PopBack_holds E w1 this v1 xs x Ho1 Hh1) as (w' & Hrun2 & Ho' & Hh').
  exists w', (mkVector (data_ v1) (length xs)).
  split.
  { unfold Vec.PushBack.
    rewrite run_bind, run_bind, Hrun1. cbn. exact Hrun2. }
  split; [exact Ho'|]. split; [exact Hh'|].
  unfold Vec.Size, Vec.Capacity, RawMem.Capacity. cbn [data_ size_].
  split.
  - intros Hlt. rewrite (Hroom Hlt). destruct Hh as [Hn _]. rewrite <- Hn. by destruct v.
  - exact Hfull.
Qed.

(** X16. The subscript [v[i]] is a reference to element [i] when
    [i < Size()] and fails its assertion for every other index, also one
    that is within the capacity. *)
Theorem subscript_bounds w this v xs i :
  objs w !! this = Some v → holds w v xs →
  Vec.at_ this i w = (if decide (i < length xs)
                      then Ok (Ptr (buffer_ (data_ v)) i) else Undefined, w) ∧
  (i < length xs → pointee w (Ptr (buffer_ (data_ v)) i) = xs !! i).
Proof.
  intros Ho Hh. pose proof Hh as (Hn & Hle & _ & _). split.
  - destruct w as [m o t s l]. cbn [objs] in Ho. unfold Vec.at_.
    rewrite (bind_Ok _ _ _ _ _ (obj_Ok _ _ _ _ _ _ _ Ho)). rewrite Hn.
    destruct (decide (i < length xs)) as [Hi|Hi]; [|done].
    apply RawMemory_at_Ok. lia.
  - intros Hi. destruct (lookup_lt_is_Some_2 xs i Hi) as [x Hx].
    rewrite Hx. by eapply holds_pointee.
Qed.

(** X17. [begin()] and [end()] delimit the elements: [end() - begin()] is
    [Size()], [begin() + i] refers to element [i] for every [i < Size()],
    and the two are the same pointer exactly when the vector is empty. *)
Theorem begin_end_range w this v xs :
  objs w !! this = Some v → holds w v xs →
  ∃ b e, Vec.begin_ this w = (Ok b, w) ∧ Vec.end_ this w = (Ok e, w) ∧
         ptr_diff e b w = (Ok (Vec.Size v), w) ∧
         (∀ i, i < Vec.Size v → pointee w (ptr_add b i) = xs !! i) ∧
         (b = e ↔ xs = []).
Proof.
  intros Ho Hh. pose proof Hh as (Hn & Hle & _ & _).
  exists (Ptr (buffer_ (data_ v)) 0), (Ptr (buffer_ (data_ v)) (size_ v)).
  destruct w as [m o t s l]. cbn [objs] in Ho.
  split; [by apply begin_Ok|]. split; [apply end_Ok; [done | lia]|].
  split.
  { unfold ptr_diff. cbn [block index].
    destruct (decide (buffer_ (data_ v) = buffer_ (data_ v) ∧ 0 ≤ size_ v)) as [_|Hn'].
    - unfold Vec.Size. by rewrite Nat.sub_0_r.
    - destruct Hn'. split; [done | lia]. }
  split.
  { unfold Vec.Size. intros i Hi. rewrite ptr_add_Ptr. simpl.
    destruct (lookup_lt_is_Some_2 xs i ltac:(lia)) as [x Hx].
    rewrite Hx. by eapply holds_pointee. }
  rewrite Hn. split.
  - intros Heq. injection Heq as Heq. by destruct xs.
  - by intros ->.
Qed.

End AccessAndRemoval.

Section ErasingAtTheEnd.
Context {T : Type} (E : element_type T).
Implicit Types (w : world T) (v : Vector) (xs ys : list T)
  (m : gmap positive (list (option T))) (o : gmap positive Vector)
  (s : nat → option exn).

(** X18. [Erase(end())] does not reject its argument: it removes the last
    element. With two elements or more it returns [end() - 1] of the
    shorter vector, a pointer to the new last element; with one element
    the vector becomes empty and [end() - 1] steps before the block, which
    is undefined; on an empty vector it is [PopBack] on an empty vector. *)
Theorem Erase_at_end w this v ys :
  objs w !! this = Some v → holds w v ys →
  ∃ w', Vec.Erase E this (Ptr (buffer_ (data_ v)) (length ys)) w
        = (if decide (2 ≤ length ys)
           then Ok (Ptr (buffer_ (data_ v)) (length ys - 2)) else Undefined, w') ∧
        (ys ≠ [] →
         objs w' !! this = Some (mkVector (data_ v) (length ys - 1)) ∧
         holds w' (mkVector (data_ v) (length ys - 1)) (take (length ys - 1) ys)).
Proof.
  intros Ho Hh. pose proof Hh as (Hn & Hle & Hfc & Hb).
  assert (Vec.end_ this w = (Ok (Ptr (buffer_ (data_ v)) (length ys)), w)) as Hend.
  { destruct w as [m o t s l]. rewrite <- Hn. apply end_Ok; [done | lia]. }
  destruct ys as [|y ys _] using rev_ind.
  - destruct w as [m o t s l]. destruct v as [d n].
    cbn [size_ data_ mem objs length] in *. subst n.
    eexists. split; [|done].
    unfold Vec.Erase. rewrite (bind_Ok _ _ _ _ _ Hend).
    destruct (decide (Ptr (buffer_ d) 0 = Ptr (buffer_ d) 0)) as [_|]; [|done].
    erewrite run_bind, PopBack_empty_run; [|done | done]. cbn [decide]. reflexivity.
  - destruct (PopBack_holds E w this v ys y Ho Hh) as (w1 & Hrun & Ho1 & Hh1).
    rewrite length_app in *. cbn [length] in *.
    replace (length ys + 1 - 1) with (length ys) by lia.
    replace (length ys + 1 - 2) with (length ys - 1) by lia.
    rewrite take_app_length.
    exists w1. split; [|done].
    unfold Vec.Erase. rewrite (bind_Ok _ _ _ _ _ Hend).
    destruct (decide (Ptr (buffer_ (data_ v)) (length ys + 1)
                      = Ptr (buffer_ (data_ v)) (length ys + 1))) as [_|]; [|done].
    rewrite (bind_Ok _ _ _ _ _ Hrun).
    erewrite bind_Ok; cycle 1.
    { destruct w1 as [m1 o1 t1 s1 l1]. cbn [objs] in Ho1.
      apply (end_Ok _ _ _ _ _ _ _ Ho1). cbn [size_ data_]. lia. }
    cbn [size_ data_]. unfold ptr_minus. cbn [index block].
    destruct (decide (1 ≤ length ys)), (decide (2 ≤ length ys + 1)); try lia; done.
Qed.

(** Putting an element in at [i] and taking the element at [i] out. *)
Lemma take_drop_insert_delete {X} (l : list X) (x : X) i :
  i ≤ length l →
  take i (take i l ++ x :: drop i l) ++ drop (S i) (take i l ++ x :: drop i l) = l.
Proof.
  intros Hi.
  assert (length (take i l) = i) as Hlen by (rewrite length_take; lia).
  rewrite take_app_length' by done.
  rewrite cons_middle, app_assoc.
  rewrite drop_app_length'; [apply take_drop|].
  rewrite length_app. simpl. lia.
Qed.

(** X19. [Erase] undoes [Emplace]: erasing at the iterator an insertion
    returned gives the elements back, in both branches of the insertion.
    The vector keeps the block the insertion left it with, and the
    iterator returned is again the position [i] in that block. *)
Theorem Emplace_then_Erase w this v xs x i :
  objs w !! this = Some v → holds w v xs →
  (size_ v = capacity_ (data_ v) → fits (2 * size_ v)) →
  calm w → i ≤ length xs →
  ∃ w' v',
    (it ← Vec.Emplace E this (Ptr (buffer_ (data_ v)) i) x; Vec.Erase E this it) w
    = (Ok (Ptr (buffer_ (data_ v')) i), w') ∧
    objs w' !! this = Some v' ∧ holds w' v' xs ∧
    (Vec.Size v < Vec.Capacity v → v' = v).
Proof.
  intros Ho Hh Hfit Hc Hi.
  destruct (Emplace_Ok E w this v xs x i Ho Hh Hfit Hc Hi)
    as (w1 & v1 & Hrun1 & Ho1 & Hh1 & _ & _ & Hroom & Hc1).
  set (zs := take i xs ++ x :: drop i xs) in *.
  assert (length zs = S (length xs)) as Hlen.
  { unfold zs. rewrite length_app, length_take. simpl. rewrite length_drop. lia. }
  pose proof Hh1 as (Hn & Hle & Hfc & Hb).
  destruct w1 as [m o t s l]. destruct v1 as [[buf cap] n].
  cbn [size_ data_ buffer_ capacity_ mem objs tick schedule] in *. subst n.
  destruct buf as [a|]; [|lia]. destruct Hb as [_ Hm].
  destruct (Erase_Ok E m o t s l this a cap zs i) as (t' & _ & Hrun2);
    [exact Ho1 | exact Hm | exact Hle | exact Hfc | lia | exact Hc1 |].
  rewrite Hlen in Hrun2. cbn [Nat.sub] in Hrun2. rewrite Nat.sub_0_r in Hrun2.
  unfold zs in Hrun2. rewrite take_drop_insert_delete in Hrun2 by done.
  eexists _, (mkVector (mkRawMemory (Some a) cap) (length xs)).
  split; [by rewrite (bind_Ok _ _ _ _ _ Hrun1)|].
  cbn [objs]. split; [by rewrite lookup_insert_eq|]. split.
  { unfold holds. cbn [size_ data_ buffer_ capacity_ mem].
    split; [done|]. split; [lia|]. split; [done|]. split; [lia|].
    by rewrite lookup_insert_eq. }
  unfold Vec.Size, Vec.Capacity, RawMem.Capacity. intros Hlt.
  specialize (Hroom Hlt). destruct Hh as [Hsz _]. destruct v as [d n].
  cbn [size_ data_] in *. by subst.
Qed.

End ErasingAtTheEnd.

Section FailedInsertion.
Context {T : Type} (E : element_type T).
Implicit Types (w : world T) (v : Vector) (xs ys : list T)
  (m : gmap positive (list (option T))) (o : gmap positive Vector)
  (s : nat → option exn).

(** The allocation of the larger block fails. *)
Lemma RelocatedEmplaceBack_bad_alloc m o t s l this v x e :
  o !! this = Some v → fits (2 * size_ v) → s t = Some e →
  Vec.RelocatedEmplaceBack E this x (mkWorld m o t s l)
  = (Throw bad_alloc, mkWorld m o (S t) s l).
Proof.
  intros Ho Hfit Hs. unfold Vec.RelocatedEmplaceBack.
  rewrite (bind_Ok _ _ _ _ _ (obj_Ok _ _ _ _ _ _ _ Ho)).
  erewrite bind_Throw; [reflexivity|].
  eapply RawMemory_ctor_Throw; [|done].
  destruct (decide (size_ v = 0)); [done|].
  rewrite sz_mul_fits by (eapply fits_le; [|exact Hfit]; lia). lia.
Qed.

(** The constructor of the new element throws, in the larger block. *)
Lemma RelocatedEmplaceBack_new_element_Throw m o t s l this v x e :
  o !! this = Some v → fits (2 * size_ v) → s t = None → s (S t) = Some e →
  Vec.RelocatedEmplaceBack E this x (mkWorld m o t s l)
  = (Throw e, mkWorld m o (S (S t)) s l).
Proof.
  intros Ho Hfit Hs He.
  assert (m !! fresh (dom m) = None) as Ha' by apply fresh_block_unused.
  unfold Vec.RelocatedEmplaceBack.
  rewrite (bind_Ok _ _ _ _ _ (obj_Ok _ _ _ _ _ _ _ Ho)).
  set (n := if decide (size_ v = 0) then 1 else sz_mul (size_ v) 2).
  assert (n ≠ 0) as Hn.
  { unfold n. destruct (decide (size_ v = 0)); [done|].
    rewrite sz_mul_fits by (eapply fits_le; [|exact Hfit]; lia). lia. }
  erewrite bind_Ok; [| by apply RawMemory_ctor_Ok].
  erewrite bind_Throw; [reflexivity|].
  eapply unwinding_Throw.
  - erewrite bind_Throw; [reflexivity|]. by apply emplace_new_Throw.
  - erewrite RawMemory_dtor_Ok; [| by rewrite lookup_insert_eq].
    rewrite delete_insert_eq, delete_id by done.
    by rewrite live_objects_raw, Nat.add_0_r.
Qed.

(** X20. A full [EmplaceBack] that fails before it relocates anything
    changes nothing: when the allocation of the larger block fails
    ([k = 0], [std::bad_alloc]) or the constructor of the new element throws
    ([k = 1]), for every element type and every exception, the new block
    is released and the vector, its elements and the heap are as before. *)
Theorem EmplaceBack_fails_before_relocation w this v xs x k e :
  objs w !! this = Some v → holds w v xs →
  size_ v = capacity_ (data_ v) → fits (2 * size_ v) →
  k < 2 → throws_after w k e →
  ∃ w', Vec.EmplaceBack E this x w
        = (Throw (if decide (k = 0) then bad_alloc else e), w') ∧
        objs w' = objs w ∧ mem w' = mem w ∧ leaked w' = leaked w ∧
        holds w' v xs.
Proof.
  intros Ho Hh Hfull Hfit Hk [Hs He].
  destruct w as [m o t s l]. cbn [objs mem leaked tick schedule] in *.
  assert (∀ r, Vec.RelocatedEmplaceBack E this x (mkWorld m o t s l) = r →
               Vec.EmplaceBack E this x (mkWorld m o t s l) = r) as Hcall.
  { intros r <-. unfold Vec.EmplaceBack.
    rewrite (bind_Ok _ _ _ _ _ (obj_Ok _ _ _ _ _ _ _ Ho)).
    unfold Vec.Capacity, RawMem.Capacity.
    by destruct (decide (size_ v = capacity_ (data_ v))). }
  destruct k as [|[|k]]; [| |lia].
  - exists (mkWorld m o (S t) s l). split; [|done].
    rewrite Nat.add_0_r in He. apply Hcall. simpl.
    eapply RelocatedEmplaceBack_bad_alloc; [exact Ho | exact Hfit | exact He].
  - exists (mkWorld m o (S (S t)) s l). split; [|done].
    apply Hcall. simpl.
    eapply RelocatedEmplaceBack_new_element_Throw; [exact Ho | exact Hfit | |].
    + specialize (Hs 0 ltac:(lia)). by rewrite Nat.add_0_r in Hs.
    + by rewrite Nat.add_1_r in He.
Qed.

(** What the two theorems below share: a full vector relocated by copy
    whose copy of element [k] throws. *)
Lemma EmplaceBack_copy_Throw w this v xs x k e :
  objs w !! this = Some v → holds w v xs →
  size_ v = capacity_ (data_ v) → fits (2 * size_ v) →
  Vec.relocate_by_move E = false →
  k < length xs → throws_after w (2 + k) e →
  ∃ m o t s l,
    w = mkWorld m o t s l ∧
    Vec.EmplaceBack E this x w
    = if is_std_exception e then
        if is_trivially_destructible E
        then (Throw e, mkWorld m o (t + (3 + k)) s l)
        else (Undefined,
              mkWorld (<[fresh (dom m) := replicate (length xs) None ++
                                          Some x :: replicate (length xs - 1) None]> m)
                      o (t + (3 + k)) s l)
      else (Throw e, mkWorld m o (t + (3 + k)) s (l + 1)).
Proof.
  intros Ho Hh Hfull Hfit Hrel Hk [Hs He].
  pose proof Hh as (Hn & Hle & Hfc & Hb).
  destruct w as [m o t s l]. destruct v as [[buf cap] n].
  cbn [size_ data_ buffer_ capacity_ mem objs tick schedule leaked] in *.
  subst n. subst cap.
  destruct buf as [a|]; [|lia]. destruct Hb as [_ Hm].
  rewrite block_image_full in Hm.
  exists m, o, t, s, l. split; [done|].
  unfold Vec.EmplaceBack.
  rewrite (bind_Ok _ _ _ _ _ (obj_Ok _ _ _ _ _ _ _ Ho)).
  unfold Vec.Capacity, RawMem.Capacity. cbn [size_ data_ capacity_].
  destruct (decide (length xs = length xs)) as [_|]; [|done].
  by apply (RelocatedEmplaceBack_copy_Throw E m o t s l this a xs x k e).
Qed.

(** X21. The handler of the relocation in [EmplaceBack] catches
    [std::exception] only. When the copy of an element throws anything
    else, the exception passes by the handler: the vector and the heap are
    as before, but the new element, already constructed in the new block,
    is never destroyed; the block is released with it inside. *)
Theorem EmplaceBack_foreign_exception_leaks w this v xs x k e :
  objs w !! this = Some v → holds w v xs →
  size_ v = capacity_ (data_ v) → fits (2 * size_ v) →
  Vec.relocate_by_move E = false →
  is_std_exception e = false →
  k < length xs → throws_after w (2 + k) e →
  ∃ w', Vec.EmplaceBack E this x w = (Throw e, w') ∧
        objs w' = objs w ∧ mem w' = mem w ∧
        leaked w' = leaked w + 1.
Proof.
  intros Ho Hh Hfull Hfit Hrel Hstd Hk Hth.
  destruct (EmplaceBack_copy_Throw w this v xs x k e)
    as (m & o & t & s & l & -> & Hrun); try done.
  rewrite Hstd in Hrun. by eexists.
Qed.

(** X22. For an element type with a destructor of its own, the handler of
    the relocation in [EmplaceBack] runs into undefined behaviour: when a
    copy throws, [uninitialized_copy_n] has already destroyed the copies it
    made, and the handler's [destroy_n] over [size_ + 1] slots then
    destroys slots that hold no object. *)
Theorem EmplaceBack_handler_destroys_raw_slots w this v xs x k e :
  objs w !! this = Some v → holds w v xs →
  size_ v = capacity_ (data_ v) → fits (2 * size_ v) →
  Vec.relocate_by_move E = false →
  is_trivially_destructible E = false →
  is_std_exception e = true →
  k < length xs → throws_after w (2 + k) e →
  ∃ w', Vec.EmplaceBack E this x w = (Undefined, w').
Proof.
  intros Ho Hh Hfull Hfit Hrel Htriv Hstd Hk Hth.
  destruct (EmplaceBack_copy_Throw w this v xs x k e)
    as (m & o & t & s & l & -> & Hrun); try done.
  rewrite Hstd, Htriv in Hrun. by eexists.
Qed.

End FailedInsertion.

Section HandlersAndOwnership.
Context {T : Type} (E : element_type T).
Implicit Types (w : world T) (v : Vector) (xs ys : list T)
  (m : gmap positive (list (option T))) (o : gmap positive Vector)
  (s : nat → option exn).

(** X23. [Emplace] before the end of a vector with room, when the
    constructor of the temporary object throws: nothing has been written
    yet, but for an exception derived from [std::exception] the handler
    calls [operator delete(end())] on a pointer into the middle of the
    vector's block, which is undefined; any other exception passes by the
    handler and leaves the vector and the heap as they were. *)
Theorem Emplace_with_room_constructor_throws w this v xs x i e :
  objs w !! this = Some v → holds w v xs →
  size_ v < capacity_ (data_ v) → i < length xs →
  throws_after w 0 e →
  ∃ w', Vec.Emplace E this (Ptr (buffer_ (data_ v)) i) x w
        = (if is_std_exception e then Undefined else Throw e, w') ∧
        objs w' = objs w ∧ mem w' = mem w ∧ leaked w' = leaked w.
Proof.
  intros Ho Hh Hroom Hi [_ He]. pose proof Hh as (Hn & Hle & Hfc & Hb).
  destruct w as [m o t s l]. destruct v as [[buf cap] n].
  cbn [size_ data_ buffer_ capacity_ mem objs tick schedule leaked] in *. subst n.
  rewrite Nat.add_0_r in He.
  destruct buf as [a|]; [|lia]. destruct Hb as [_ Hm].
  exists (mkWorld m o (S t) s l). split; [|done].
  assert (Vec.end_ this (mkWorld m o (S t) s l)
          = (Ok (Ptr (Some a) (length xs)), mkWorld m o (S t) s l)) as Hend'.
  { apply (end_Ok _ _ _ _ _ _ _ Ho). cbn [size_ data_ capacity_]. lia. }
  unfold Vec.Emplace.
  rewrite (bind_Ok _ _ _ _ _ (obj_Ok _ _ _ _ _ _ _ Ho)).
  unfold Vec.Capacity, RawMem.Capacity. cbn [size_ data_ capacity_].
  destruct (decide (length xs = cap)); [lia|].
  unfold Vec.UnusedEmplace.
  erewrite bind_Ok; cycle 1.
  { apply (end_Ok _ _ _ _ _ _ _ Ho). cbn [size_ data_ capacity_]. lia. }
  cbn [size_ data_ buffer_].
  destruct (decide (Ptr (Some a) i = Ptr (Some a) (length xs))) as [Heq|_].
  { injection Heq as Heq. lia. }
  rewrite (bind_Ok _ _ _ _ _ (begin_Ok _ _ _ _ _ _ _ Ho)). cbn [data_ buffer_].
  erewrite bind_Ok; cycle 1.
  { unfold ptr_diff. cbn [block index].
    destruct (decide (Some a = Some a ∧ 0 ≤ i)) as [_|Hno]; [reflexivity|].
    destruct Hno. split; [done | lia]. }
  rewrite run_bind.
  erewrite try_catch_std_Throw; cycle 1.
  { erewrite bind_Throw; [reflexivity|]. unfold emplace_local.
    erewrite bind_Throw; [reflexivity|]. by apply fallible_Throw. }
  destruct (is_std_exception e); [|done].
  rewrite (bind_Ok _ _ _ _ _ Hend').
  unfold operator_delete. cbn [block index].
  by destruct xs; [simpl in Hi; lia|].
Qed.

(** X26. Move assignment never releases the block of the destination.
    When the two vectors have different blocks and different capacities
    the destination takes over the source's block, and its own block stays
    allocated with its elements alive in it while neither vector refers to
    it any more: nothing can destroy those elements or free the block. *)
Theorem move_assignment_abandons_the_destination_block w this rhs vt vr xs ys a :
  this ≠ rhs → objs w !! this = Some vt → objs w !! rhs = Some vr →
  holds w vt xs → holds w vr ys →
  buffer_ (data_ vt) = Some a →
  buffer_ (data_ vt) ≠ buffer_ (data_ vr) →
  capacity_ (data_ vt) ≠ capacity_ (data_ vr) →
  ∃ w' vt' vr',
    Vec.assign_move this rhs w = (Ok tt, w') ∧
    objs w' !! this = Some vt' ∧ objs w' !! rhs = Some vr' ∧
    Vec.Data vt' = Vec.Data vr ∧
    buffer_ (data_ vt') ≠ Some a ∧ buffer_ (data_ vr') ≠ Some a ∧
    mem w' !! a = Some (block_image xs (capacity_ (data_ vt))) ∧
    mem w' = mem w ∧ leaked w' = leaked w.
Proof.
  intros Hne Hot Hor Hht Hhr Ha Hbuf Hcap.
  pose proof Hht as (_ & _ & _ & Hb). rewrite Ha in Hb. destruct Hb as [_ Hm].
  pose proof (RawMemory_move_assign_transfers _ _ Hbuf Hcap) as Hmv.
  exists (with_objs (λ o, <[this := mkVector (data_ vr) (size_ vr)]>
                            (<[rhs := mkVector RawMem.default (size_ vr)]> o)) w),
    (mkVector (data_ vr) (size_ vr)), (mkVector RawMem.default (size_ vr)).
  split.
  { rewrite (assign_move_Ok w this rhs vt vr Hne Hot Hor). by rewrite Hmv. }
  destruct w as [m o t s l]. cbn [with_objs objs mem leaked data_ buffer_] in *.
  split; [by rewrite lookup_insert_eq|].
  split; [rewrite lookup_insert_ne by done; by rewrite lookup_insert_eq|].
  split; [done|]. split; [congruence|]. split; [done|]. done.
Qed.

End HandlersAndOwnership.

Section RawStorage.
Context {T : Type}.
Implicit Types (w : world T).


End RawStorage.

(** * Sequences of insertions at the end *)

(** One step of the growth policy on a capacity that is 0 for no element
    and the least power of two that holds [n] elements otherwise. *)
Lemma doubling_step n c :
  n ≤ c →
  (n = 0 ∧ c = 0) ∨ (0 < n ∧ c = 2 ^ Nat.log2_up n) →
  (if decide (n = c) then 1 `max` (2 * n) else c) = 2 ^ Nat.log2_up (S n).
Proof.
  intros Hle [[-> ->]|[Hn Hc]]; [reflexivity|].
  set (k := Nat.log2_up n) in *.
  destruct (decide (n = c)) as [Heq|Hneq].
  - replace (S n) with (S (2 ^ k)) by lia.
    rewrite Nat.log2_up_succ_pow2 by lia. rewrite Nat.pow_succ_r'. lia.
  - destruct (decide (n = 1)) as [->|Hn1].
    { unfold k in Hc. rewrite Nat.log2_up_1 in Hc. simpl in Hc. lia. }
    pose proof (Nat.log2_up_spec n ltac:(lia)) as [Hlo Hhi]. fold k in Hlo, Hhi.
    rewrite Hc. f_equal. symmetry. apply Nat.log2_up_unique.
    + destruct k; [simpl in *; lia | lia].
    + lia.
Qed.

Section PushBackSequences.
Context {T : Type} (E : element_type T).
Implicit Types (w : world T) (v : Vector) (xs ys : list T).

(** [for (x : ys) v.PushBack(x);] when nothing throws. *)
Lemma PushBack_each_Ok this ys : ∀ w v xs,
  objs w !! this = Some v → holds w v xs →
  (capacity_ (data_ v) < length xs + length ys → fits (2 * (length xs + length ys))) →
  calm w →
  ∃ w' v',
    foldr (λ x k, Vec.PushBack E this x;; k) (mret tt : M T unit) ys w = (Ok tt, w') ∧
    objs w' !! this = Some v' ∧ holds w' v' (xs ++ ys) ∧
    (length xs + length ys ≤ capacity_ (data_ v) → data_ v' = data_ v) ∧
    ((length xs = 0 ∧ capacity_ (data_ v) = 0) ∨
     (0 < length xs ∧ capacity_ (data_ v) = 2 ^ Nat.log2_up (length xs)) →
     (length xs + length ys = 0 ∧ capacity_ (data_ v') = 0) ∨
     (0 < length xs + length ys ∧
      capacity_ (data_ v') = 2 ^ Nat.log2_up (length xs + length ys))).
Proof.
  induction ys as [|y ys IH]; intros w v xs Ho Hh Hfit Hc.
  - exists w, v. rewrite app_nil_r, Nat.add_0_r.
    split; [reflexivity|]. split; [done|]. split; [done|]. split; [done|]. tauto.
  - pose proof Hh as (Hn & Hle & _ & _). cbn [length] in *.
    destruct (EmplaceBack_Ok E w this v xs y Ho Hh) as
      (w1 & v1 & Hrun1 & Ho1 & Hh1 & Hs1 & Hfull & Hroom & Hc1); [|done|].
    { intros Hf. eapply fits_le; [|apply Hfit]; lia. }
    assert (capacity_ (data_ v1)
            = if decide (length xs = capacity_ (data_ v))
              then 1 `max` (2 * length xs) else capacity_ (data_ v)) as Hcap1.
    { rewrite <- Hn. destruct (decide (size_ v = capacity_ (data_ v))) as [Hf|Hf].
      - by apply Hfull.
      - rewrite Hroom; [done | lia]. }
    destruct (IH w1 v1 (xs ++ [y]) Ho1 Hh1) as (w' & v' & Hrun & Ho' & Hh' & Hsame & Hdbl);
      [|done|].
    { rewrite length_app. cbn [length]. intros Hlt.
      replace (length xs + 1 + length ys) with (length xs + S (length ys)) by lia.
      apply Hfit. destruct (decide (length xs = capacity_ (data_ v))); lia. }
    exists w', v'. split.
    { cbn [foldr]. unfold Vec.PushBack. rewrite run_bind, run_bind, Hrun1. cbn.
      exact Hrun. }
    split; [done|]. split; [by rewrite cons_middle, app_assoc|].
    rewrite length_app in Hsame, Hdbl. cbn [length] in Hsame, Hdbl.
    replace (length xs + 1 + length ys) with (length xs + S (length ys))
      in Hsame, Hdbl by lia.
    split.
    + intros Hin. rewrite Hsame; [apply Hroom; lia|].
      rewrite Hcap1. destruct (decide (length xs = capacity_ (data_ v))); lia.
    + intros Hd. apply Hdbl. right. split; [lia|].
      rewrite Hcap1, Nat.add_1_r. by apply doubling_step.
Qed.

(** X24. Starting from an empty vector without storage, pushing the
    elements of [ys] one after the other gives a vector holding [ys] whose
    capacity is the least power of two that is at least [Size()]: the
    doubling never leaves more than half of the block unused. *)
Theorem PushBack_sequence_capacity w this ys :
  objs w !! this = Some (mkVector RawMem.default 0) →
  fits (2 * length ys) → calm w →
  ∃ w' v',
    foldr (λ x k, Vec.PushBack E this x;; k) (mret tt : M T unit) ys w = (Ok tt, w') ∧
    objs w' !! this = Some v' ∧ holds w' v' ys ∧
    Vec.Capacity v' = (if decide (ys = []) then 0 else 2 ^ Nat.log2_up (length ys)) ∧
    (ys ≠ [] → Vec.Capacity v' < 2 * length ys).
Proof.
  intros Ho Hfit Hc.
  destruct (PushBack_each_Ok this ys w (mkVector RawMem.default 0) [])
    as (w' & v' & Hrun & Ho' & Hh' & _ & Hdbl); [done | by repeat split | done | done |].
  exists w', v'. split; [exact Hrun|]. split; [done|]. split; [done|].
  unfold Vec.Capacity, RawMem.Capacity. cbn [length] in Hdbl. simpl in Hdbl.
  destruct Hdbl as [[Hz Hcap]|[Hpos Hcap]]; [by left | |].
  - destruct ys; [|done]. split; [done|]. done.
  - destruct (decide (ys = [])) as [->|Hne]; [simpl in Hpos; lia|].
    split; [done|]. intros _. rewrite Hcap.
    destruct (decide (length ys = 1)) as [->|Hn1]; [simpl; lia|].
    pose proof (Nat.log2_up_spec (length ys) ltac:(lia)) as [Hlo Hhi].
    destruct (Nat.log2_up (length ys)) as [|k]; [simpl in *; lia|].
    rewrite Nat.pow_succ_r'. simpl in Hlo. lia.
Qed.

(** X25. Insertions at the end that fit the capacity never reallocate:
    after pushing [ys] into a vector with at least that much room the
    buffer and the capacity are the same, so the pointers to the elements
    it had still refer to them. *)
Theorem PushBack_within_capacity w this v xs ys :
  objs w !! this = Some v → holds w v xs →
  length xs + length ys ≤ Vec.Capacity v → calm w →
  ∃ w' v',
    foldr (λ x k, Vec.PushBack E this x;; k) (mret tt : M T unit) ys w = (Ok tt, w') ∧
    objs w' !! this = Some v' ∧ holds w' v' (xs ++ ys) ∧
    Vec.Data v' = Vec.Data v ∧
    (∀ i x, xs !! i = Some x → pointee w' (Ptr (buffer_ (data_ v)) i) = Some x).
Proof.
  intros Ho Hh Hroom Hc. unfold Vec.Capacity, RawMem.Capacity in Hroom.
  destruct (PushBack_each_Ok this ys w v xs)
    as (w' & v' & Hrun & Ho' & Hh' & Hsame & _); [done | done | lia | done |].
  exists w', v'. split; [exact Hrun|]. split; [done|]. split; [done|].
  specialize (Hsame Hroom). split; [done|].
  intros i x Hx. rewrite <- Hsame. eapply holds_pointee; [exact Hh'|].
  by apply lookup_app_l_Some.
Qed.

End PushBackSequences.

Section PartialAssignment.
Context {T : Type} (E : element_type T).
Implicit Types (w : world T) (xs ys us vs : list T)
  (m : gmap positive (list (option T))) (o : gmap positive Vector)
  (s : nat → option exn) (bpre bpost sblk : list (option T)).

Lemma copy_assign_Throw m o t s l sa si sblk v a i bpre bpost u e :
  m !! sa = Some sblk → sblk !! si = Some (Some v) →
  m !! a = Some (bpre ++ Some u :: bpost) → i = length bpre → s t = Some e →
  copy_assign (Ptr (Some a) i) (Ptr (Some sa) si) (mkWorld m o t s l)
  = (Throw e, mkWorld m o (S t) s l).
Proof.
  intros Hsm Hsb Hm Hi Hs. unfold copy_assign.
  rewrite (bind_Ok _ _ _ _ _ (load_Ok _ _ _ _ _ _ _ _ _ Hsm Hsb)).
  rewrite (bind_Ok _ _ _ _ _ (load_Ok _ _ _ _ _ _ _ _ _ Hm (lookup_cut _ _ _ _ Hi))).
  by rewrite (bind_Throw _ _ _ _ _ (fallible_Throw _ _ _ _ _ _ Hs)).
Qed.

(** The assignment of element [k] throws: the elements before it have been
    assigned, the others have not. *)
Lemma assign_loop_Throw us : ∀ vs k e m o t s l this rhs a capt nt ar capr nr sblk i
                               bpre bpost,
  o !! this = Some (mkVector (mkRawMemory (Some a) capt) nt) →
  o !! rhs = Some (mkVector (mkRawMemory (Some ar) capr) nr) →
  ar ≠ a →
  m !! ar = Some sblk →
  (∀ j v, vs !! j = Some v → sblk !! (i + j) = Some (Some v)) →
  m !! a = Some (bpre ++ (Some <$> us) ++ bpost) → i = length bpre →
  length vs = length us →
  i + length us ≤ capt → i + length us ≤ nr → nr ≤ capr → fits capt →
  k < length us →
  (∀ j, j < k → s (t + j) = None) → s (t + k) = Some e →
  Vec.assign_loop this rhs i (length us) (mkWorld m o t s l)
  = (Throw e,
     mkWorld (<[a := bpre ++ (Some <$> take k vs) ++ (Some <$> drop k us) ++ bpost]> m)
             o (t + S k) s l).
Proof.
  induction us as [|u us IH];
    intros vs k e m o t s l this rhs a capt nt ar capr nr sblk i bpre bpost
           Hot Hor Hne Hsm Hsrc Hm Hi Hlen Hct Hnr Hcr Hfit Hk Hs He;
    [simpl in Hk; lia|].
  destruct vs as [|v vs]; [done|]. simpl in Hlen, Hct, Hnr, Hk.
  rewrite !fmap_cons in *. cbn [length Vec.assign_loop].
  rewrite (bind_Ok _ _ _ _ _ (obj_Ok _ _ _ _ _ _ _ Hot)). cbn [data_].
  erewrite bind_Ok; [| apply RawMemory_at_Ok; simpl; lia].
  erewrite bind_Ok; cycle 1.
  { unfold Vec.at_. rewrite (bind_Ok _ _ _ _ _ (obj_Ok _ _ _ _ _ _ _ Hor)).
    cbn [size_ data_]. destruct (decide (i < nr)); [|lia].
    apply RawMemory_at_Ok. simpl. lia. }
  cbn [buffer_].
  assert (sblk !! i = Some (Some v)) as Hv.
  { specialize (Hsrc 0 v eq_refl). by rewrite Nat.add_0_r in Hsrc. }
  destruct k as [|k].
  - rewrite Nat.add_0_r in He.
    erewrite bind_Throw; cycle 1.
    { eapply copy_assign_Throw; [exact Hsm | exact Hv | exact Hm | exact Hi | exact He]. }
    cbn [take drop fmap list_fmap app]. rewrite insert_id by done.
    do 2 f_equal. lia.
  - erewrite bind_Ok; cycle 1.
    { eapply copy_assign_Ok; [exact Hsm | exact Hv | exact Hm | exact Hi |].
      specialize (Hs 0 ltac:(lia)). by rewrite Nat.add_0_r in Hs. }
    rewrite sz_add_fits by (eapply fits_le; [|exact Hfit]; lia).
    erewrite (IH vs k e _ o (S t) s l this rhs a capt nt ar capr nr sblk (i + 1)
                (bpre ++ [Some v]) bpost);
      [| done | done | done | by rewrite lookup_insert_ne | | | | | | | | | | |].
    + rewrite insert_insert_eq, <- app_assoc. cbn [take drop]. rewrite fmap_cons.
      simpl. do 2 f_equal. lia.
    + intros j v' Hj. specialize (Hsrc (S j) v' Hj).
      by replace (i + 1 + j) with (i + S j) by lia.
    + rewrite lookup_insert_eq. by rewrite <- app_assoc.
    + rewrite length_app. simpl. lia.
    + lia.
    + lia.
    + lia.
    + done.
    + done.
    + lia.
    + intros j Hj. specialize (Hs (S j) ltac:(lia)).
      by replace (S t + j) with (t + S j) by lia.
    + by replace (S t + k) with (t + S k) by lia.
Qed.

Lemma drop_take_drop {X} (l : list X) k n :
  k ≤ n → drop k (take n l) ++ drop n l = drop k l.
Proof.
  intros Hkn. rewrite <- (take_drop n l) at 3.
  destruct (decide (n ≤ length l)) as [Hn|Hn].
  - rewrite drop_app_le; [done|]. rewrite length_take. lia.
  - rewrite (drop_ge l n) by lia. rewrite !app_nil_r. done.
Qed.

(** X30. Copy assignment in place has the basic guarantee only. When the
    destination has the capacity for the source and the assignment of
    element [k] of the common prefix throws, the exception leaves
    [operator=] with the first [k] elements of the destination already
    overwritten by those of the source, the other elements and the size as
    they were, and the source untouched. *)
Theorem copy_assignment_in_place_fails w this rhs vt vr xs ys k e :
  this ≠ rhs →
  objs w !! this = Some vt → objs w !! rhs = Some vr →
  holds w vt xs → holds w vr ys →
  buffer_ (data_ vt) ≠ buffer_ (data_ vr) →
  Vec.Size vr ≤ Vec.Capacity vt →
  k < length xs `min` length ys →
  throws_after w k e →
  ∃ w', Vec.assign_copy E this rhs w = (Throw e, w') ∧
        objs w' = objs w ∧
        holds w' vt (take k ys ++ drop k xs) ∧ holds w' vr ys ∧
        leaked w' = leaked w.
Proof.
  intros Hne Hot Hor Hht Hhr Hbuf Hcap Hk [Hs He].
  pose proof Hht as (Hnt & Hlet & Hfct & Hbt).
  pose proof Hhr as (Hnr & Hler & Hfcr & Hbr).
  unfold Vec.Size, Vec.Capacity, RawMem.Capacity in Hcap.
  destruct w as [m o t s l]. destruct vt as [[buft capt] nt], vr as [[bufr capr] nr].
  cbn [size_ data_ buffer_ capacity_ mem objs tick schedule leaked] in *. subst nt nr.
  destruct buft as [a|]; [|lia]. destruct Hbt as [Hct0 Hmt].
  destruct bufr as [ar|]; [|lia]. destruct Hbr as [Hcr0 Hmr].
  assert (ar ≠ a) as Hna by congruence.
  set (n := length xs `min` length ys) in *.
  assert (length (take n xs) = n) as Hlk by (rewrite length_take; unfold n; lia).
  assert (length (take k ys ++ drop k xs) = length xs) as Hlen1.
  { rewrite length_app, length_take, length_drop. unfold n in Hk. lia. }
  exists (mkWorld (<[a := block_image (take k ys ++ drop k xs) capt]> m) o (t + S k) s l).
  cbn [objs mem leaked]. split.
  { unfold Vec.assign_copy. destruct (decide (this ≠ rhs)); [|done].
    rewrite (bind_Ok _ _ _ _ _ (obj_Ok _ _ _ _ _ _ _ Hot)).
    rewrite (bind_Ok _ _ _ _ _ (obj_Ok _ _ _ _ _ _ _ Hor)).
    unfold RawMem.Capacity. cbn [size_ data_ capacity_].
    destruct (decide (capt < length ys)); [lia|].
    erewrite bind_Throw; [reflexivity|]. erewrite bind_Throw; [reflexivity|].
    fold n. rewrite <- Hlk at 1.
    erewrite (assign_loop_Throw (take n xs) (take n ys) k e m o t s l this rhs a capt
                (length xs) ar capr (length ys) (block_image ys capr) 0 []
                ((Some <$> drop n xs) ++ replicate (capt - length xs) None)).
    + do 3 f_equal. unfold block_image.
      rewrite Hlen1, fmap_app, <- !app_assoc. cbn [app].
      rewrite take_take, Nat.min_l by lia.
      rewrite (app_assoc (Some <$> drop k (take n xs))), <- fmap_app.
      by rewrite drop_take_drop by lia.
    + done.
    + done.
    + done.
    + done.
    + intros j v Hj. rewrite Nat.add_0_l. apply block_image_lookup.
      apply lookup_take_Some in Hj. by destruct Hj.
    + rewrite Hmt. unfold block_image. simpl.
      rewrite app_assoc, <- fmap_app, take_drop. done.
    + done.
    + rewrite !length_take. unfold n. lia.
    + rewrite Hlk. unfold n. lia.
    + rewrite Hlk. unfold n. lia.
    + done.
    + done.
    + lia.
    + done.
    + done. }
  split; [done|]. split.
  { unfold holds. cbn [size_ data_ buffer_ capacity_ mem].
    rewrite Hlen1. split; [done|]. split; [done|]. split; [done|]. split; [done|].
    by rewrite lookup_insert_eq. }
  split; [|done].
  unfold holds. cbn [size_ data_ buffer_ capacity_ mem].
  split; [done|]. split; [done|]. split; [done|]. split; [done|].
  by rewrite lookup_insert_ne.
Qed.

End PartialAssignment.

Section AfterMoveAssignment.
Context {T : Type} (E : element_type T).
Implicit Types (w : world T) (v : Vector) (xs ys : list T)
  (m : gmap positive (list (option T))) (o : gmap positive Vector)
  (s : nat → option exn).

(** X28. The source of a move assignment that handed its block over is
    left unusable rather than empty: it reports the size it had with
    capacity 0, so [end()] and every subscript fail the assertions of
    [RawMemory]. *)
Theorem moved_from_vector_is_unusable w this rhs vt vr :
  this ≠ rhs → objs w !! this = Some vt → objs w !! rhs = Some vr →
  Vec.Size vr ≠ 0 →
  buffer_ (data_ vt) ≠ buffer_ (data_ vr) →
  capacity_ (data_ vt) ≠ capacity_ (data_ vr) →
  ∃ w' vr',
    Vec.assign_move this rhs w = (Ok tt, w') ∧
    objs w' !! rhs = Some vr' ∧
    Vec.Size vr' = Vec.Size vr ∧ Vec.Capacity vr' = 0 ∧
    Vec.end_ rhs w' = (Undefined, w') ∧
    (∀ i, Vec.at_ rhs i w' = (Undefined, w')).
Proof.
  intros Hne Hot Hor Hsz Hbuf Hcap.
  pose proof (RawMemory_move_assign_transfers _ _ Hbuf Hcap) as Hmv.
  exists (with_objs (λ o, <[this := mkVector (data_ vr) (size_ vr)]>
                            (<[rhs := mkVector RawMem.default (size_ vr)]> o)) w),
    (mkVector RawMem.default (size_ vr)).
  split.
  { rewrite (assign_move_Ok w this rhs vt vr Hne Hot Hor). by rewrite Hmv. }
  destruct w as [m o t s l]. unfold with_objs.
  cbn [objs mem tick schedule leaked] in *.
  assert ((<[this := mkVector (data_ vr) (size_ vr)]>
             (<[rhs := mkVector RawMem.default (size_ vr)]> o)) !! rhs
          = Some (mkVector RawMem.default (size_ vr))) as Hor'.
  { rewrite lookup_insert_ne by done. by rewrite lookup_insert_eq. }
  split; [exact Hor'|]. split; [done|]. split; [done|].
  unfold Vec.Size in Hsz. split.
  - unfold Vec.end_. rewrite (bind_Ok _ _ _ _ _ (obj_Ok _ _ _ _ _ _ _ Hor')).
    unfold RawMem.plus. cbn [size_ data_ capacity_ RawMem.default].
    destruct (decide (size_ vr ≤ 0)); [lia | done].
  - intros i. unfold Vec.at_. rewrite (bind_Ok _ _ _ _ _ (obj_Ok _ _ _ _ _ _ _ Hor')).
    cbn [size_ data_]. destruct (decide (i < size_ vr)); [|done].
    unfold RawMem.at_. cbn [capacity_ RawMem.default].
    destruct (decide (i < 0)); [lia | done].
Qed.

(** X29. [Resize] to a larger size within the capacity has the strong
    guarantee: when the value construction of new element [k] throws, the
    elements already appended are destroyed and the vector, its size and
    the heap are as before the call. *)
Theorem Resize_fails_within_capacity w this v xs new_size k e :
  objs w !! this = Some v → holds w v xs →
  length xs ≤ new_size → new_size ≤ Vec.Capacity v →
  k < new_size - length xs → throws_after w k e →
  ∃ w', Vec.Resize E this new_size w = (Throw e, w') ∧
        objs w' = objs w ∧ mem w' = mem w ∧ leaked w' = leaked w.
Proof.
  intros Ho Hh Hge Hcap Hk [Hs He]. pose proof Hh as (Hn & Hle & Hfc & Hb).
  unfold Vec.Capacity, RawMem.Capacity in Hcap.
  destruct w as [m o t s l]. destruct v as [[buf cap] n].
  cbn [size_ data_ buffer_ capacity_ mem objs tick schedule leaked] in *. subst n.
  destruct buf as [a|]; [|lia]. destruct Hb as [_ Hm].
  exists (mkWorld m o (t + S k) s l). split; [|done].
  unfold Vec.Resize. rewrite (bind_Ok _ _ _ _ _ (obj_Ok _ _ _ _ _ _ _ Ho)).
  cbn [size_ data_]. destruct (decide (new_size < length xs)); [lia|].
  erewrite bind_Throw; [reflexivity|].
  unfold Vec.Capacity, RawMem.Capacity. cbn [data_ capacity_].
  destruct (decide (cap < new_size)); [lia|].
  rewrite (bind_Ok _ _ _ _ _ (run_ret _ _)).
  rewrite (bind_Ok _ _ _ _ _ (obj_Ok _ _ _ _ _ _ _ Ho)). cbn [size_ data_].
  erewrite bind_Ok; [| apply RawMemory_plus_Ok; simpl; lia]. cbn [buffer_].
  rewrite sz_sub_le by first [lia | eapply fits_le; [|exact Hfc]; lia].
  pose proof (uninitialized_value_construct_n_Throw E
                (replicate (new_size - length xs) None) k e m o t s l a (length xs)
                (Some <$> xs) (replicate (cap - new_size) None)) as Hfill.
  rewrite length_replicate in Hfill. rewrite Hfill.
  - rewrite insert_id; [done|]. rewrite Hm. unfold block_image. f_equal. f_equal.
    rewrite drop_replicate, <- !replicate_add. f_equal. lia.
  - rewrite Hm. unfold block_image. rewrite <- replicate_add. do 3 f_equal. lia.
  - by rewrite length_fmap.
  - done.
  - done.
  - done.
Qed.

End AfterMoveAssignment.

(** * The further properties at concrete vectors *)

Ltac concrete_throws :=
  repeat match goal with x := _ |- _ => subst x end;
  split;
  [ intros j Hj;
    unfold Sample.empty_world, Sample.one_vector, Sample.roomy_vector,
      Sample.two_vectors, Sample.only_at;
    cbn; repeat case_decide; first [reflexivity | lia]
  | reflexivity ].

Ltac concrete_fits := unfold fits; reflexivity.




(** X3 for a copy of the vector [1; 2] of capacity 5. *)
Lemma copy_construction_witness :
  let w := Sample.roomy_vector [1; 2] 3 Sample.never in
  let vo := mkVector (mkRawMemory (Some 1%positive) 5) 2 in
  ∃ w' v, Vec.ctor_copy Sample.Int 2%positive 1%positive w = (Ok tt, w') ∧
          holds w' v [1; 2] ∧ Vec.Capacity v = 2 ∧ holds w' vo [1; 2].
Proof.
  intros w vo.
  destruct (copy_construction Sample.Int w 2%positive 1%positive vo [1; 2])
    as (w' & v & Hrun & _ & Hh & Hcap & Hho & _).
  - reflexivity.
  - reflexivity.
  - concrete_holds.
  - concrete_calm.
  - exists w', v. split; [exact Hrun|]. split; [exact Hh|]. split; [exact Hcap | exact Hho].
Defined.

(** X4 for a copy of [1; 2; 3] whose second element fails to copy. *)
Lemma copy_construction_fails_witness :
  let w := Sample.one_vector [1; 2; 3] (Sample.only_at 2 (foreign_exception 7)) in
  ∃ w', Vec.ctor_copy Sample.Int 2%positive 1%positive w
        = (Throw (foreign_exception 7), w') ∧
        objs w' = objs w ∧ mem w' = mem w ∧ leaked w' = leaked w.
Proof.
  intros w.
  destruct (copy_construction_fails Sample.Int w 2%positive 1%positive
              (mkVector (mkRawMemory (Some 1%positive) 3) 3) [1; 2; 3] 2
              (foreign_exception 7))
    as (w' & Hrun & Hrest).
  - reflexivity.
  - reflexivity.
  - concrete_holds.
  - cbn. lia.
  - discriminate.
  - concrete_throws.
  - exists w'. split; [exact Hrun | exact Hrest].
Defined.

(** X5 for a copy of the vector [1; 2]. *)
Lemma copy_compares_unequal_witness :
  let w := Sample.one_vector [1; 2] Sample.never in
  let vo := mkVector (mkRawMemory (Some 1%positive) 2) 2 in
  ∃ w' v, Vec.ctor_copy Sample.Int 2%positive 1%positive w = (Ok tt, w') ∧
          objs w' !! 2%positive = Some v ∧
          elements w' v = Some [1; 2] ∧ elements w' vo = Some [1; 2] ∧
          Vec.neq v vo = false ∧
          (Vec.eq v vo = true ↔ Vec.Capacity vo = 0).
Proof.
  intros w vo.
  apply (copy_compares_unequal Sample.Int w 2%positive 1%positive vo [1; 2]).
  - reflexivity.
  - reflexivity.
  - concrete_holds.
  - concrete_calm.
Defined.

(** X6 for a vector moved from [1; 2]. *)
Lemma move_construction_witness :
  let w := Sample.one_vector [1; 2] Sample.never in
  let vo := mkVector (mkRawMemory (Some 1%positive) 2) 2 in
  ∃ w', Vec.ctor_move 2%positive 1%positive w = (Ok tt, w') ∧
        objs w' = <[1%positive := mkVector RawMem.default 0]>
                    (<[2%positive := vo]> (objs w)) ∧
        mem w' = mem w ∧ tick w' = tick w ∧ leaked w' = leaked w ∧
        holds w' vo [1; 2] ∧ holds w' (mkVector RawMem.default 0) [].
Proof.
  intros w vo.
  apply (move_construction w 2%positive 1%positive vo [1; 2]).
  - reflexivity.
  - reflexivity.
  - concrete_holds.
Defined.

(** X7 for the vectors [7] and [1; 2; 3]. *)
Lemma Swap_exchanges_witness :
  let w := Sample.two_vectors [7] [1; 2; 3] 0 Sample.never in
  let vt := mkVector (mkRawMemory (Some 1%positive) 1) 1 in
  let vo := mkVector (mkRawMemory (Some 2%positive) 3) 3 in
  ∃ w', Vec.Swap 1%positive 2%positive w = (Ok tt, w') ∧
        objs w' !! 1%positive = Some vo ∧ objs w' !! 2%positive = Some vt ∧
        holds w' vo [1; 2; 3] ∧ holds w' vt [7] ∧ mem w' = mem w.
Proof.
  intros w vt vo.
  destruct (Swap_exchanges w 1%positive 2%positive vt vo [7] [1; 2; 3])
    as (w' & Hrun & _ & Hot & Hoo & Hho & Hht & Hmem & _).
  - reflexivity.
  - reflexivity.
  - concrete_holds.
  - concrete_holds.
  - exists w'. split; [exact Hrun|]. split; [exact Hot|]. split; [exact Hoo|].
    split; [exact Hho|]. split; [exact Hht | exact Hmem].
Defined.

(** X8 for the vectors [7] and [1; 2; 3]. *)
Lemma Swap_twice_witness :
  let w := Sample.two_vectors [7] [1; 2; 3] 0 Sample.never in
  Vec.Swap 1%positive 2%positive w = Vec.Swap 2%positive 1%positive w ∧
  (Vec.Swap 1%positive 2%positive;; Vec.Swap 1%positive 2%positive) w = (Ok tt, w).
Proof.
  intros w.
  apply (Swap_twice w 1%positive 2%positive
           (mkVector (mkRawMemory (Some 1%positive) 1) 1)
           (mkVector (mkRawMemory (Some 2%positive) 3) 3)).
  - reflexivity.
  - reflexivity.
Defined.

(** X9 for the vector [1; 2]. *)
Lemma destructor_releases_everything_witness :
  let w := Sample.one_vector [1; 2] Sample.never in
  ∃ w', Vec.dtor Sample.Int 1%positive w = (Ok tt, w') ∧
        objs w' = delete 1%positive (objs w) ∧
        mem w' = delete 1%positive (mem w) ∧
        tick w' = tick w ∧ leaked w' = leaked w.
Proof.
  intros w.
  apply (destructor_releases_everything Sample.Int w 1%positive
           (mkVector (mkRawMemory (Some 1%positive) 2) 2) [1; 2]).
  - reflexivity.
  - concrete_holds.
Defined.

(** X10 for a temporary copy of the vector [1; 2]. *)
Lemma copy_then_destroy_witness :
  let w := Sample.one_vector [1; 2] Sample.never in
  ∃ w', (Vec.ctor_copy Sample.Int 2%positive 1%positive;;
         Vec.dtor Sample.Int 2%positive) w = (Ok tt, w') ∧
        objs w' = objs w ∧ mem w' = mem w ∧ leaked w' = leaked w.
Proof.
  intros w.
  apply (copy_then_destroy Sample.Int w 2%positive 1%positive
           (mkVector (mkRawMemory (Some 1%positive) 2) 2) [1; 2]).
  - reflexivity.
  - reflexivity.
  - concrete_holds.
  - concrete_calm.
Defined.




(** X14 for an empty vector of capacity 2. *)
Lemma PopBack_on_empty_witness :
  let w := Sample.roomy_vector [] 2 Sample.never in
  ∃ w', Vec.PopBack Sample.Int 1%positive w = (Undefined, w') ∧ mem w' = mem w.
Proof.
  intros w.
  destruct (PopBack_on_empty Sample.Int w 1%positive
              (mkVector (mkRawMemory (Some 1%positive) 2) 0))
    as (w' & Hrun & _ & Hmem).
  - reflexivity.
  - concrete_holds.
  - exists w'. split; [exact Hrun | exact Hmem].
Defined.

(** X15 for [1; 2] of capacity 3. *)
Lemma PushBack_then_PopBack_witness :
  let w := Sample.roomy_vector [1; 2] 1 Sample.never in
  let v := mkVector (mkRawMemory (Some 1%positive) 3) 2 in
  ∃ w' v', (Vec.PushBack Sample.Int 1%positive 9;; Vec.PopBack Sample.Int 1%positive) w
           = (Ok tt, w') ∧
           objs w' !! 1%positive = Some v' ∧ holds w' v' [1; 2] ∧ v' = v.
Proof.
  intros w v.
  destruct (PushBack_then_PopBack Sample.Int w 1%positive v [1; 2] 9)
    as (w' & v' & Hrun & Ho & Hh & Hsame & _).
  - reflexivity.
  - concrete_holds.
  - intros _. concrete_fits.
  - concrete_calm.
  - exists w', v'. split; [exact Hrun|]. split; [exact Ho|]. split; [exact Hh|].
    apply Hsame. cbn. lia.
Defined.

(** X16 for [1; 2] of capacity 3, at index 1. *)
Lemma subscript_bounds_witness :
  let w := Sample.roomy_vector [1; 2] 1 Sample.never in
  Vec.at_ 1%positive 1 w = (Ok (Ptr (Some 1%positive) 1), w) ∧
  (1 < 2 → pointee w (Ptr (Some 1%positive) 1) = [1; 2] !! 1).
Proof.
  intros w.
  apply (subscript_bounds w 1%positive
           (mkVector (mkRawMemory (Some 1%positive) 3) 2) [1; 2] 1).
  - reflexivity.
  - concrete_holds.
Defined.

(** X17 for the vector [1; 2; 3]. *)
Lemma begin_end_range_witness :
  let w := Sample.one_vector [1; 2; 3] Sample.never in
  ∃ b e, Vec.begin_ 1%positive w = (Ok b, w) ∧ Vec.end_ 1%positive w = (Ok e, w) ∧
         ptr_diff e b w = (Ok 3, w) ∧
         (∀ i, i < 3 → pointee w (ptr_add b i) = [1; 2; 3] !! i) ∧
         (b = e ↔ [1; 2; 3] = []).
Proof.
  intros w.
  apply (begin_end_range w 1%positive
           (mkVector (mkRawMemory (Some 1%positive) 3) 3) [1; 2; 3]).
  - reflexivity.
  - concrete_holds.
Defined.

(** X18 for the vector [1; 2; 3]. *)
Lemma Erase_at_end_witness :
  let w := Sample.one_vector [1; 2; 3] Sample.never in
  let v' := mkVector (mkRawMemory (Some 1%positive) 3) 2 in
  ∃ w', Vec.Erase Sample.Int 1%positive (Ptr (Some 1%positive) 3) w
        = (Ok (Ptr (Some 1%positive) 1), w') ∧
        objs w' !! 1%positive = Some v' ∧ holds w' v' [1; 2].
Proof.
  intros w v'.
  destruct (Erase_at_end Sample.Int w 1%positive
              (mkVector (mkRawMemory (Some 1%positive) 3) 3) [1; 2; 3])
    as (w' & Hrun & Hrest).
  - reflexivity.
  - concrete_holds.
  - exists w'. split; [exact Hrun|]. apply Hrest. discriminate.
Defined.

(** X19 for the full vector [1; 2; 3], position 1. *)
Lemma Emplace_then_Erase_witness :
  let w := Sample.one_vector [1; 2; 3] Sample.never in
  ∃ w' v',
    (it ← Vec.Emplace Sample.Int 1%positive (Ptr (Some 1%positive) 1) 9;
     Vec.Erase Sample.Int 1%positive it) w
    = (Ok (Ptr (buffer_ (data_ v')) 1), w') ∧
    objs w' !! 1%positive = Some v' ∧ holds w' v' [1; 2; 3].
Proof.
  intros w.
  destruct (Emplace_then_Erase Sample.Int w 1%positive
              (mkVector (mkRawMemory (Some 1%positive) 3) 3) [1; 2; 3] 9 1)
    as (w' & v' & Hrun & Ho & Hh & _).
  - reflexivity.
  - concrete_holds.
  - intros _. concrete_fits.
  - concrete_calm.
  - cbn. lia.
  - exists w', v'. split; [exact Hrun|]. split; [exact Ho | exact Hh].
Defined.

(** X20 for the full vector [1; 2] and a new element whose constructor
    throws. *)
Lemma EmplaceBack_fails_before_relocation_witness :
  let w := Sample.one_vector [1; 2] (Sample.only_at 1 (foreign_exception 7)) in
  ∃ w', Vec.EmplaceBack Sample.Int 1%positive 9 w = (Throw (foreign_exception 7), w') ∧
        objs w' = objs w ∧ mem w' = mem w ∧ leaked w' = leaked w.
Proof.
  intros w.
  destruct (EmplaceBack_fails_before_relocation Sample.Int w 1%positive
              (mkVector (mkRawMemory (Some 1%positive) 2) 2) [1; 2] 9 1
              (foreign_exception 7))
    as (w' & Hrun & Hobjs & Hmem & Hleak & _).
  - reflexivity.
  - concrete_holds.
  - reflexivity.
  - concrete_fits.
  - lia.
  - concrete_throws.
  - exists w'. split; [exact Hrun|]. split; [exact Hobjs|]. split; [exact Hmem | exact Hleak].
Defined.

(** X21 for the full vector [1; 2; 3] whose second element fails to copy
    with an exception that is not a [std::exception]. *)
Lemma EmplaceBack_foreign_exception_leaks_witness :
  let w := Sample.one_vector [1; 2; 3] (Sample.only_at 3 (foreign_exception 7)) in
  ∃ w', Vec.EmplaceBack Sample.Copyable 1%positive 9 w
        = (Throw (foreign_exception 7), w') ∧
        objs w' = objs w ∧ mem w' = mem w ∧
        leaked w' = leaked w + 1.
Proof.
  intros w.
  apply (EmplaceBack_foreign_exception_leaks Sample.Copyable w 1%positive
           (mkVector (mkRawMemory (Some 1%positive) 3) 3) [1; 2; 3] 9 1
           (foreign_exception 7)).
  - reflexivity.
  - concrete_holds.
  - reflexivity.
  - concrete_fits.
  - reflexivity.
  - reflexivity.
  - cbn. lia.
  - concrete_throws.
Defined.

(** X22 for the full vector [1; 2; 3] of a copyable type with a destructor
    of its own. *)
Lemma EmplaceBack_handler_destroys_raw_slots_witness :
  let E := mkElement nat false true false 0 (λ x, x) in
  let w := Sample.one_vector [1; 2; 3] (Sample.only_at 3 (std_exception 0)) in
  ∃ w', Vec.EmplaceBack E 1%positive 9 w = (Undefined, w').
Proof.
  intros E w.
  apply (EmplaceBack_handler_destroys_raw_slots E w 1%positive
           (mkVector (mkRawMemory (Some 1%positive) 3) 3) [1; 2; 3] 9 1
           (std_exception 0)).
  - reflexivity.
  - concrete_holds.
  - reflexivity.
  - concrete_fits.
  - reflexivity.
  - reflexivity.
  - reflexivity.
  - cbn. lia.
  - concrete_throws.
Defined.

(** X23 for an insertion at the front of [1; 2], capacity 4. *)
Lemma Emplace_with_room_constructor_throws_witness :
  let w := Sample.roomy_vector [1; 2] 2 (Sample.only_at 0 (std_exception 0)) in
  ∃ w', Vec.Emplace Sample.Int 1%positive (Ptr (Some 1%positive) 0) 9 w
        = (Undefined, w') ∧
        objs w' = objs w ∧ mem w' = mem w ∧ leaked w' = leaked w.
Proof.
  intros w.
  apply (Emplace_with_room_constructor_throws Sample.Int w 1%positive
           (mkVector (mkRawMemory (Some 1%positive) 4) 2) [1; 2] 9 0 (std_exception 0)).
  - reflexivity.
  - concrete_holds.
  - cbn. lia.
  - cbn. lia.
  - concrete_throws.
Defined.

(** X24 for five elements pushed into an empty vector: capacity 8. *)
Lemma PushBack_sequence_capacity_witness :
  let w := mkWorld ∅ {[ 1%positive := mkVector RawMem.default 0 ]} 0 Sample.never 0 in
  ∃ w' v',
    foldr (λ x k, Vec.PushBack Sample.Int 1%positive x;; k) (mret tt : M nat unit)
          [1; 2; 3; 4; 5] w = (Ok tt, w') ∧
    objs w' !! 1%positive = Some v' ∧ holds w' v' [1; 2; 3; 4; 5] ∧
    Vec.Capacity v' = 8.
Proof.
  intros w.
  destruct (PushBack_sequence_capacity Sample.Int w 1%positive [1; 2; 3; 4; 5])
    as (w' & v' & Hrun & Ho & Hh & Hcap & _).
  - reflexivity.
  - concrete_fits.
  - concrete_calm.
  - exists w', v'. split; [exact Hrun|]. split; [exact Ho|]. split; [exact Hh | exact Hcap].
Defined.

(** X25 for three elements pushed into [1; 2] of capacity 5. *)
Lemma PushBack_within_capacity_witness :
  let w := Sample.roomy_vector [1; 2] 3 Sample.never in
  let v := mkVector (mkRawMemory (Some 1%positive) 5) 2 in
  ∃ w' v',
    foldr (λ x k, Vec.PushBack Sample.Int 1%positive x;; k) (mret tt : M nat unit)
          [7; 8; 9] w = (Ok tt, w') ∧
    objs w' !! 1%positive = Some v' ∧ holds w' v' [1; 2; 7; 8; 9] ∧
    Vec.Data v' = Vec.Data v.
Proof.
  intros w v.
  destruct (PushBack_within_capacity Sample.Int w 1%positive v [1; 2] [7; 8; 9])
    as (w' & v' & Hrun & Ho & Hh & Hdata & _).
  - reflexivity.
  - concrete_holds.
  - cbn. lia.
  - concrete_calm.
  - exists w', v'. split; [exact Hrun|]. split; [exact Ho|]. split; [exact Hh | exact Hdata].
Defined.

(** X26 for [dst = std::move(src)] with [dst] holding [7] and [src]
    holding [1; 2; 3]. *)
Lemma move_assignment_abandons_the_destination_block_witness :
  let w := Sample.two_vectors [7] [1; 2; 3] 0 Sample.never in
  ∃ w' vt' vr',
    Vec.assign_move 1%positive 2%positive w = (Ok tt, w') ∧
    objs w' !! 1%positive = Some vt' ∧ objs w' !! 2%positive = Some vr' ∧
    buffer_ (data_ vt') ≠ Some 1%positive ∧ buffer_ (data_ vr') ≠ Some 1%positive ∧
    mem w' !! 1%positive = Some [Some 7].
Proof.
  intros w.
  destruct (move_assignment_abandons_the_destination_block w 1%positive 2%positive
              (mkVector (mkRawMemory (Some 1%positive) 1) 1)
              (mkVector (mkRawMemory (Some 2%positive) 3) 3) [7] [1; 2; 3] 1%positive)
    as (w' & vt' & vr' & Hrun & Hot & Hor & _ & Hnt & Hnr & Hblk & _).
  - discriminate.
  - reflexivity.
  - reflexivity.
  - concrete_holds.
  - concrete_holds.
  - reflexivity.
  - cbn. discriminate.
  - cbn. discriminate.
  - exists w', vt', vr'. split; [exact Hrun|]. split; [exact Hot|]. split; [exact Hor|].
    split; [exact Hnt|]. split; [exact Hnr | exact Hblk].
Defined.


(** X28 for the source [1; 2; 3] of a move assignment to [7]. *)
Lemma moved_from_vector_is_unusable_witness :
  let w := Sample.two_vectors [7] [1; 2; 3] 0 Sample.never in
  ∃ w' vr',
    Vec.assign_move 1%positive 2%positive w = (Ok tt, w') ∧
    objs w' !! 2%positive = Some vr' ∧
    Vec.Size vr' = 3 ∧ Vec.Capacity vr' = 0 ∧
    Vec.end_ 2%positive w' = (Undefined, w') ∧
    (∀ i, Vec.at_ 2%positive i w' = (Undefined, w')).
Proof.
  intros w.
  apply (moved_from_vector_is_unusable w 1%positive 2%positive
           (mkVector (mkRawMemory (Some 1%positive) 1) 1)
           (mkVector (mkRawMemory (Some 2%positive) 3) 3)).
  - discriminate.
  - reflexivity.
  - reflexivity.
  - cbn. discriminate.
  - cbn. discriminate.
  - cbn. discriminate.
Defined.

(** X29 for [Resize(5)] on [1; 2] of capacity 5 whose second new element
    fails to construct. *)
Lemma Resize_fails_within_capacity_witness :
  let w := Sample.roomy_vector [1; 2] 3 (Sample.only_at 1 (std_exception 0)) in
  ∃ w', Vec.Resize Sample.Int 1%positive 5 w = (Throw (std_exception 0), w') ∧
        objs w' = objs w ∧ mem w' = mem w ∧ leaked w' = leaked w.
Proof.
  intros w.
  apply (Resize_fails_within_capacity Sample.Int w 1%positive
           (mkVector (mkRawMemory (Some 1%positive) 5) 2) [1; 2] 5 1 (std_exception 0)).
  - reflexivity.
  - concrete_holds.
  - cbn. lia.
  - cbn. lia.
  - cbn. lia.
  - concrete_throws.
Defined.

(** X30 for [dst = src] with [dst] holding [7; 8; 9], [src] holding
    [1; 2], and the second assignment throwing. *)
Lemma copy_assignment_in_place_fails_witness :
  let w := Sample.two_vectors [7; 8; 9] [1; 2] 0 (Sample.only_at 1 (std_exception 0)) in
  let vt := mkVector (mkRawMemory (Some 1%positive) 3) 3 in
  let vr := mkVector (mkRawMemory (Some 2%positive) 2) 2 in
  ∃ w', Vec.assign_copy Sample.Int 1%positive 2%positive w
        = (Throw (std_exception 0), w') ∧
        objs w' = objs w ∧
        holds w' vt [1; 8; 9] ∧ holds w' vr [1; 2] ∧
        leaked w' = leaked w.
Proof.
  intros w vt vr.
  apply (copy_assignment_in_place_fails Sample.Int w 1%positive 2%positive vt vr
           [7; 8; 9] [1; 2] 1 (std_exception 0)).
  - discriminate.
  - reflexivity.
  - reflexivity.
  - concrete_holds.
  - concrete_holds.
  - cbn. discriminate.
  - cbn. lia.
  - cbn. lia.
  - concrete_throws.
Defined.
